(** * LC-MS feature extraction (ms_feature_validation/lcms.py)

    A shallow embedding of the numerical core of [lcms.py]: the EIC extractor
    [chromatogram], the spectral accumulator [accumulate_spectra] with its
    grid builder [_get_mz_roi], the isotopic envelope search
    [find_isotopic_distribution], the mass matcher [_match_mz], the trace
    tracker [_RoiProcessor] with its driver [_make_roi], and the helpers that
    choose the parameters of the peak picker.

    Conventions used throughout.
    - Python floats are modelled by exact rationals [Q]; comparisons go
      through [Qle_bool], so every function respects [Qeq].  The only
      non-finite value the modelled code can produce is the NaN of [np.mean]
      over an empty axis; it is modelled by the constructor [NaN] of [npfloat].
    - numpy arrays are lists; fancy indexing, masks, slices and the reductions
      used by the source are written out in module [Numpy].
    - Python exceptions are values of [exn]; a function that may raise returns
      a [result]. *)

From Stdlib Require Import QArith Qround Qabs ZArith List String Lia Lqa Bool Sorted.
From stdpp Require Import base list gmap strings.
Import ListNotations.

Open Scope Q_scope.
Open Scope string_scope.
Open Scope list_scope.

(** ** Exceptions *)

(** [ValueError msg] carries the message of the [raise] statement (or of the
    numpy routine) it comes from, [InterpolationError] stands for any exception
    raised inside [scipy.interpolate.interp1d]. *)
Inductive exn : Type :=
| ValueError (msg : string)
| KeyError (key : string)
| IndexError
| TypeError
| InterpolationError.

Inductive result (A : Type) : Type :=
| Ok (a : A)
| Raise (e : exn).
Arguments Ok {A} a.
Arguments Raise {A} e.

Definition bind {A B : Type} (r : result A) (k : A -> result B) : result B :=
  match r with
  | Ok a => k a
  | Raise e => Raise e
  end.

Notation "x <- e ;; k" := (bind e (fun x => k))
  (at level 100, e at next level, right associativity).

Definition is_ok {A : Type} (r : result A) : bool :=
  match r with Ok _ => true | Raise _ => false end.

(** A computed array with its fractions in lowest terms, to compare it with
    literals. *)
Definition reduced (r : result (list Q)) : result (list Q) :=
  l <- r ;; Ok (map Qred l).

(** ** numpy primitives *)

Module Numpy.

Definition Qltb (x y : Q) : bool := negb (Qle_bool y x).

(** [a[i]] for a non-negative index. *)
Definition getitem {A : Type} (a : list A) (i : nat) : result A :=
  match a !! i with
  | Some x => Ok x
  | None => Raise IndexError
  end.

(** Python's index normalisation: a negative index counts from the end. *)
Definition norm_index (len : nat) (i : Z) : result nat :=
  let j := (if i <? 0 then i + Z.of_nat len else i)%Z in
  if ((0 <=? j) && (j <? Z.of_nat len))%Z then Ok (Z.to_nat j)
  else Raise IndexError.

(** [a[i] = x] for a Python integer index. *)
Definition setitem {A : Type} (a : list A) (i : Z) (x : A) : result (list A) :=
  j <- norm_index (length a) i ;;
  Ok (<[j := x]> a).

(** [a[idx]] with an integer index array. *)
Fixpoint take_idx {A : Type} (a : list A) (idx : list nat) : result (list A) :=
  match idx with
  | [] => Ok []
  | i :: idx' =>
      x <- getitem a i ;;
      xs <- take_idx a idx' ;;
      Ok (x :: xs)
  end.

(** [a[idx] = vals]: element-wise, later writes win. *)
Fixpoint put_idx {A : Type} (a : list A) (idx : list nat) (vals : list A)
  : result (list A) :=
  match idx, vals with
  | i :: idx', v :: vals' =>
      if Nat.ltb i (length a) then put_idx (<[i := v]> a) idx' vals'
      else Raise IndexError
  | _, _ => Ok a
  end.

(** [a[idx] = v] with a scalar right-hand side. *)
Definition put_idx_const {A : Type} (a : list A) (idx : list nat) (v : A)
  : result (list A) :=
  put_idx a idx (repeat v (length idx)).

(** [a[mask]] with a boolean mask. *)
Fixpoint compress {A : Type} (mask : list bool) (a : list A) : list A :=
  match mask, a with
  | b :: mask', x :: a' => if b then x :: compress mask' a' else compress mask' a'
  | _, _ => []
  end.

(** [a[mask]] where the lengths are checked, as numpy does. *)
Definition take_mask {A : Type} (mask : list bool) (a : list A) : result (list A) :=
  if Nat.eqb (length mask) (length a) then Ok (compress mask a)
  else Raise IndexError.

(** [a[mask] = v] with a boolean mask. *)
Fixpoint put_mask {A : Type} (a : list A) (mask : list bool) (v : A) : list A :=
  match a, mask with
  | x :: a', b :: mask' => (if b then v else x) :: put_mask a' mask' v
  | _, _ => a
  end.

(** [np.where(mask)[0]]. *)
Fixpoint where_from (k : nat) (mask : list bool) : list nat :=
  match mask with
  | [] => []
  | b :: mask' => if b then k :: where_from (S k) mask' else where_from (S k) mask'
  end.
Definition where_ (mask : list bool) : list nat := where_from 0 mask.

(** [a[lo:hi]] for non-negative bounds. *)
Definition slice {A : Type} (lo hi : nat) (a : list A) : list A :=
  take (hi - lo) (drop lo a).

(** Bound normalisation of Python slices: negative bounds count from the end
    and everything is clipped to [0, len]. *)
Definition norm_bound (len : nat) (i : Z) : nat :=
  let j := (if i <? 0 then i + Z.of_nat len else i)%Z in
  Z.to_nat (Z.min (Z.max 0 j) (Z.of_nat len)).

Definition pyslice {A : Type} (lo hi : Z) (a : list A) : list A :=
  slice (norm_bound (length a) lo) (norm_bound (length a) hi) a.

(** [range(lo, hi)]. *)
Definition range (lo hi : Z) : list Z :=
  map (fun k => (lo + Z.of_nat k)%Z) (seq 0 (Z.to_nat (hi - lo))).

Definition Qsum (l : list Q) : Q := fold_right Qplus 0 l.

(** [np.mean] of a one-dimensional array that is not empty. *)
Definition Qmean (l : list Q) : Q := Qsum l / inject_Z (Z.of_nat (length l)).

(** [np.searchsorted(a, v)] (side left) on an ascending array: the number of
    leading elements strictly below [v]. *)
Fixpoint searchsorted (a : list Q) (v : Q) : nat :=
  match a with
  | [] => 0
  | x :: a' => if Qltb x v then S (searchsorted a' v) else 0
  end.

(** [np.argmin(a)]: position of the first minimum ([a] is not empty where the
    source calls it). *)
Fixpoint argmin_from (best : Q) (besti k : nat) (a : list Q) : nat :=
  match a with
  | [] => besti
  | x :: a' =>
      if Qltb x best then argmin_from x k (S k) a'
      else argmin_from best besti (S k) a'
  end.
Definition argmin (a : list Q) : result nat :=
  match a with
  | [] => Raise (ValueError "attempt to get argmin of an empty sequence")
  | x :: a' => Ok (argmin_from x 0%nat 1%nat a')
  end.

(** [a.min()] and [a.max()]. *)
Definition Qminb (x y : Q) : Q := if Qle_bool x y then x else y.
Definition Qmaxb (x y : Q) : Q := if Qle_bool x y then y else x.

Definition amin (a : list Q) : result Q :=
  match a with
  | [] => Raise (ValueError "zero-size array to reduction operation minimum which has no identity")
  | x :: a' => Ok (fold_left Qminb a' x)
  end.
Definition amax (a : list Q) : result Q :=
  match a with
  | [] => Raise (ValueError "zero-size array to reduction operation maximum which has no identity")
  | x :: a' => Ok (fold_left Qmaxb a' x)
  end.

(** [np.diff(a)]. *)
Fixpoint diff (a : list Q) : list Q :=
  match a with
  | x :: ((y :: _) as a') => (y - x) :: diff a'
  | _ => []
  end.

(** [np.arange(start, stop, step)] on floats: [ceil((stop - start) / step)]
    points [start + i * step]; a zero step is refused.  In exact arithmetic
    every point stays below [stop]; in double precision the quotient and the
    points are rounded, and the last point can reach or pass [stop].  Nothing
    below is stated about the number of points or about their upper end. *)
Definition arange (start stop step : Q) : result (list Q) :=
  if Qeq_bool step 0 then Raise (ValueError "Maximum allowed size exceeded")
  else
    let n := Z.to_nat (Qceiling ((stop - start) / step)) in
    Ok (map (fun i => start + inject_Z (Z.of_nat i) * step) (seq 0 n)).

(** Insertion of [x] into an ascending duplicate-free list. *)
Fixpoint insert_unique (x : nat) (l : list nat) : list nat :=
  match l with
  | [] => [x]
  | y :: l' =>
      if Nat.ltb x y then x :: l
      else if Nat.eqb x y then l
      else y :: insert_unique x l'
  end.

(** First position of [x] in [l]. *)
Fixpoint index_of (x : nat) (l : list nat) : nat :=
  match l with
  | [] => 0
  | y :: l' => if Nat.eqb x y then 0 else S (index_of x l')
  end.

Definition count_of (x : nat) (l : list nat) : nat :=
  length (List.filter (Nat.eqb x) l).

(** [np.unique(a, return_index=True, return_counts=True)]: the ascending
    distinct values, the position of the first occurrence of each and the
    number of occurrences of each. *)
Definition unique (a : list nat) : list nat * list nat * list nat :=
  let u := fold_right insert_unique [] a in
  (u, map (fun x => index_of x a) u, map (fun x => count_of x a) u).

(** [np.setdiff1d(np.arange(lo, hi), x)]. *)
Definition arange_without (lo hi x : nat) : list nat :=
  List.filter (fun k => negb (Nat.eqb k x)) (seq lo (hi - lo)).

End Numpy.
Import Numpy.

(** ** Nearest-element search *)

(** Modelled from the spec: [find_closest] lives in [utils.py], which is not
    among the sources; the spec says of it that it "finds the nearest"
    element "by absolute difference".  Between equally near elements the
    earliest one is taken.  The functions below take the search as a section
    variable, so that the general results hold for every implementation of
    it; this definition is used to evaluate them on concrete spectra. *)
Definition find_closest (x : list Q) (xq : Q) : nat :=
  match argmin (map (fun v => Qabs (v - xq)) x) with
  | Ok i => i
  | Raise _ => 0%nat
  end.

(** ** Isotopic envelope search *)

Section IsotopicSearch.

Variable find_closest : list Q -> Q -> nat.

(** Mass difference between 13C and 12C. *)
Definition dm : Q := 1003355 # 1000000.

Definition find_isotopic_distribution_aux (mz : list Q) (mz_ft : Q)
    (q n_isotopes : nat) (tol : Q) : result (list nat) :=
  let mono_index := find_closest mz mz_ft in
  mz_mono <- getitem mz mono_index ;;
  if Qltb tol (Qabs (mz_mono - mz_ft)) then Ok []
  else
    let mz_theoretic :=
      map (fun k => mz_mono + inject_Z (Z.of_nat k) * dm / inject_Z (Z.of_nat q))
          (seq 0 n_isotopes) in
    let closest_ind := map (find_closest mz) mz_theoretic in
    near <- take_idx mz closest_ind ;;
    let match_ind :=
      where_ (zip_with (fun a b => Qle_bool (Qabs (a - b)) tol) near mz_theoretic) in
    take_idx closest_ind match_ind.

(** The loop over the charges of [find_isotopic_distribution]; [n_peaks] is
    the loop variable of the source, which no statement of the loop assigns. *)
Fixpoint charge_loop (mz : list Q) (mz_mono : Q) (n_isotopes : nat) (tol : Q)
    (qs : list nat) (best_peaks : list nat) (n_peaks : nat)
  : result (list nat) :=
  match qs with
  | [] => Ok best_peaks
  | q :: qs' =>
      tmp <- find_isotopic_distribution_aux mz mz_mono q n_isotopes tol ;;
      if Nat.ltb n_peaks (length tmp)
      then charge_loop mz mz_mono n_isotopes tol qs' tmp n_peaks
      else charge_loop mz mz_mono n_isotopes tol qs' best_peaks n_peaks
  end.

Definition find_isotopic_distribution (mz : list Q) (mz_mono : Q)
    (q_max n_isotopes : nat) (tol : Q) : result (list nat) :=
  charge_loop mz mz_mono n_isotopes tol (seq 1 q_max) [] 0%nat.

End IsotopicSearch.

(** ** Mass matcher *)

(** The [mz_reduce] and [sp_reduce] arguments: a name or a callable. *)
Inductive reducer : Type :=
| Named (name : string)
| Callable (f : list Q -> Q).

Definition call (r : reducer) (a : list Q) : result Q :=
  match r with
  | Callable f => Ok (f a)
  | Named _ => Raise TypeError
  end.

Section Matcher.

Variable find_closest : list Q -> Q -> nat.

(** Body of the loop of mode closest over the slots matched more than once:
    the accumulated [rm_index], [mz_replace] and [spint_replace]. *)
Fixpoint closest_loop (dmz mz2 sp2 : list Q) (groups : list (nat * nat))
  : result (list nat * list Q * list Q) :=
  match groups with
  | [] => Ok ([], [], [])
  | (index, count) :: groups' =>
      k <- argmin (slice index (index + count) dmz) ;;
      let closest := (k + index)%nat in
      m <- getitem mz2 closest ;;
      s <- getitem sp2 closest ;;
      let remove := arange_without index (index + count) closest in
      r <- closest_loop dmz mz2 sp2 groups' ;;
      let '(rm_index, mz_replace, spint_replace) := r in
      Ok (remove ++ rm_index, m :: mz_replace, s :: spint_replace)
  end.

(** Body of the loop of mode reduce. *)
Fixpoint reduce_loop (mz_reduce sp_reduce : reducer) (mz2 sp2 : list Q)
    (groups : list (nat * nat)) (mz_match sp_match : list Q)
  : result (list Q * list Q) :=
  match groups with
  | [] => Ok (mz_match, sp_match)
  | (index, count) :: groups' =>
      m <- call mz_reduce (slice index (index + count) mz2) ;;
      mz_match' <- setitem mz_match (Z.of_nat index) m ;;
      s <- call sp_reduce (slice index (index + count) sp2) ;;
      sp_match' <- setitem sp_match (Z.of_nat index) s ;;
      reduce_loop mz_reduce sp_reduce mz2 sp2 groups' mz_match' sp_match'
  end.

Definition _match_mz (mz1 mz2 sp2 : list Q) (tolerance : Q) (mode : string)
    (mz_reduce sp_reduce : reducer)
  : result (list nat * list Q * list Q * list Q * list Q) :=
  let closest_index := map (find_closest mz1) mz2 in
  near <- take_idx mz1 closest_index ;;
  let dmz := zip_with (fun a b => Qabs (a - b)) near mz2 in
  let match_mask := map (fun d => Qle_bool d tolerance) dmz in
  let no_match_mask := map negb match_mask in
  let match_index := compress match_mask closest_index in
  (* check multiple matches *)
  let '(unique_, first_index, count_index) := unique match_index in
  (* set match values *)
  let match_index := unique_ in
  sp2_matched <- take_mask match_mask sp2 ;;
  sp_match <- take_idx sp2_matched first_index ;;
  mz2_matched <- take_mask match_mask mz2 ;;
  mz_match <- take_idx mz2_matched first_index ;;
  (* compute matches for duplicates *)
  let multiple_match_mask := map (Nat.ltb 1) count_index in
  let first_index := compress multiple_match_mask first_index in
  let count_index := compress multiple_match_mask count_index in
  r <- (if Nat.ltb 0 (length first_index) then
          if String.eqb mode "closest" then
            l <- closest_loop dmz mz2 sp2 (combine first_index count_index) ;;
            let '(rm_index, mz_replace, spint_replace) := l in
            no_match_mask' <- put_idx_const no_match_mask rm_index true ;;
            mz_match' <- put_idx mz_match first_index mz_replace ;;
            sp_match' <- put_idx sp_match first_index spint_replace ;;
            Ok (no_match_mask', mz_match', sp_match')
          else if String.eqb mode "reduce" then
            l <- reduce_loop mz_reduce sp_reduce mz2 sp2
                   (combine first_index count_index) mz_match sp_match ;;
            Ok (no_match_mask, fst l, snd l)
          else Raise (ValueError "mode must be `closest` or `merge`")
        else Ok (no_match_mask, mz_match, sp_match)) ;;
  let '(no_match_mask, mz_match, sp_match) := r in
  mz_no_match <- take_mask no_match_mask mz2 ;;
  sp_no_match <- take_mask no_match_mask sp2 ;;
  Ok (match_index, mz_match, sp_match, mz_no_match, sp_no_match).

End Matcher.

(** ** Trace tracker *)

Record Chromatogram : Type := mkChromatogram {
  chrom_spint : list Q;
  chrom_rt : list Q;
  chrom_mz : list Q;
  chrom_start : nat;
  chrom_end : nat }.

(** [Chromatogram(spint, rt, mz)] with [start] and [end] left out. *)
Definition new_Chromatogram (spint rt mz : list Q) : Chromatogram :=
  mkChromatogram spint rt mz 0 (length rt).

Record RoiProcessor : Type := mkRoiProcessor {
  _mz_reduce : reducer;
  _spint_reduce : reducer;
  _first_scan : nat;
  _mz_mean : list Q;
  _mz : list (list Q);
  _sp : list (list Q);
  _counter : list Q;
  _missing : list Z;
  _index : nat;
  _start : list nat;
  roi : list Chromatogram;
  max_missing : Z;
  min_length : Z;
  tolerance : Q;
  multiple_match : string }.

(** [a[rows, col] = vals] on a two-dimensional array. *)
Fixpoint put_col (a : list (list Q)) (rows : list nat) (col : nat) (vals : list Q)
  : result (list (list Q)) :=
  match rows, vals with
  | r :: rows', v :: vals' =>
      row <- getitem a r ;;
      if Nat.ltb col (length row)
      then put_col (<[r := <[col := v]> row]> a) rows' col vals'
      else Raise IndexError
  | _, _ => Ok a
  end.

Section Tracker.

Variable find_closest : list Q -> Q -> nat.

(** [_RoiProcessor.__init__]; a list is one-dimensional by its type. *)
Definition RoiProcessor_init (mz_seed : list Q) (size : nat)
    (max_missing min_length : Z) (tolerance : Q) (multiple_match : string)
    (first_scan : nat) (mz_reduce sp_reduce : reducer) : result RoiProcessor :=
  if negb (String.eqb multiple_match "closest" || String.eqb multiple_match "reduce")
  then Raise (ValueError "Valid modes are closest or reduce")
  else
    let mz_reduce' :=
      match mz_reduce with
      | Named "mean" => Callable Qmean
      | _ => mz_reduce
      end in
    let sp_reduce' :=
      match sp_reduce with
      | Named "mean" => Callable Qmean
      | Named "sum" => Callable Qsum
      | _ => sp_reduce
      end in
    Ok {| _mz_reduce := mz_reduce';
          _spint_reduce := sp_reduce';
          _first_scan := first_scan;
          _mz_mean := mz_seed;
          _mz := repeat (repeat 0 size) (length mz_seed);
          _sp := repeat (repeat 0 size) (length mz_seed);
          _counter := repeat 1 (length mz_seed);
          _missing := repeat 0%Z (length mz_seed);
          _index := 0;
          _start := repeat 0%nat (length mz_seed);
          roi := [];
          max_missing := max_missing;
          min_length := min_length;
          tolerance := tolerance;
          multiple_match := multiple_match |}.

(** The matcher call that opens [add]. *)
Definition add_match (p : RoiProcessor) (mz sp : list Q)
  : result (list nat * list Q * list Q * list Q * list Q) :=
  _match_mz find_closest (_mz_mean p) mz sp (tolerance p) (multiple_match p)
    (_mz_reduce p) (_spint_reduce p).

(** [updated_mean] of [add], for one slot. *)
Definition updated_mean (mean counter x : Q) : Q :=
  (mean * counter + x) / (counter + 1).

Fixpoint updated_means (means counters xs : list Q) : list Q :=
  match means, counters, xs with
  | m :: means', c :: counters', x :: xs' =>
      updated_mean m c x :: updated_means means' counters' xs'
  | _, _, _ => []
  end.

Definition add (p : RoiProcessor) (mz sp : list Q)
  : result (RoiProcessor * (list Q * list Q)) :=
  (* find matching values *)
  m <- add_match p mz sp ;;
  let '(match_index, mz_match, sp_match, mz_no_match, sp_no_match) := m in
  mz' <- put_col (_mz p) match_index (_index p) mz_match ;;
  sp' <- put_col (_sp p) match_index (_index p) sp_match ;;
  (* update mz_mean and missings *)
  means <- take_idx (_mz_mean p) match_index ;;
  counters <- take_idx (_counter p) match_index ;;
  let updated := updated_means means counters mz_match in
  counter' <- put_idx (_counter p) match_index (map (fun c => c + 1) counters) ;;
  mz_mean' <- put_idx (_mz_mean p) match_index updated ;;
  missing' <- put_idx_const (map (Z.add 1) (_missing p)) match_index 0%Z ;;
  Ok ({| _mz_reduce := _mz_reduce p;
         _spint_reduce := _spint_reduce p;
         _first_scan := _first_scan p;
         _mz_mean := mz_mean';
         _mz := mz';
         _sp := sp';
         _counter := counter';
         _missing := missing';
         _index := S (_index p);
         _start := _start p;
         roi := roi p;
         max_missing := max_missing p;
         min_length := min_length p;
         tolerance := tolerance p;
         multiple_match := multiple_match p |},
      (mz_no_match, sp_no_match)).

(** The chromatogram that [append_to_roi] builds for one completed row. *)
Definition row_chromatogram (p : RoiProcessor) (rt : list Q) (row : nat)
  : result Chromatogram :=
  start <- getitem (_start p) row ;;
  let end_ := _index p in
  let rt_start := (_first_scan p + start)%nat in
  let rt_end := (_first_scan p + end_)%nat in
  sp_row <- getitem (_sp p) row ;;
  mz_row <- getitem (_mz p) row ;;
  Ok (new_Chromatogram (slice start end_ sp_row) (slice rt_start rt_end rt)
        (slice start end_ mz_row)).

Fixpoint row_chromatograms (p : RoiProcessor) (rt : list Q) (rows : list nat)
  : result (list Chromatogram) :=
  match rows with
  | [] => Ok []
  | row :: rows' =>
      c <- row_chromatogram p rt row ;;
      cs <- row_chromatograms p rt rows' ;;
      Ok (c :: cs)
  end.

Definition is_completed (p : RoiProcessor) : list bool :=
  map (fun m => Z.ltb (max_missing p) m) (_missing p).

Definition is_valid_roi (p : RoiProcessor) : list bool :=
  map (fun s => Z.leb (min_length p) (Z.of_nat (_index p) - Z.of_nat s)) (_start p).

Definition completed_index (p : RoiProcessor) : list nat :=
  where_ (zip_with andb (is_completed p) (is_valid_roi p)).

Definition append_to_roi (p : RoiProcessor) (rt : list Q) : result RoiProcessor :=
  chroms <- row_chromatograms p rt (completed_index p) ;;
  Ok {| _mz_reduce := _mz_reduce p;
        _spint_reduce := _spint_reduce p;
        _first_scan := _first_scan p;
        _mz_mean := _mz_mean p;
        _mz := _mz p;
        _sp := _sp p;
        _counter := _counter p;
        _missing := put_mask (_missing p) (is_completed p) 0%Z;
        _index := _index p;
        _start := put_mask (_start p) (is_completed p) (_index p);
        roi := roi p ++ chroms;
        max_missing := max_missing p;
        min_length := min_length p;
        tolerance := tolerance p;
        multiple_match := multiple_match p |}.

Definition flag_as_completed (p : RoiProcessor) : RoiProcessor :=
  {| _mz_reduce := _mz_reduce p;
     _spint_reduce := _spint_reduce p;
     _first_scan := _first_scan p;
     _mz_mean := _mz_mean p;
     _mz := _mz p;
     _sp := _sp p;
     _counter := _counter p;
     _missing := map (fun _ => (max_missing p + 1)%Z) (_missing p);
     _index := _index p;
     _start := _start p;
     roi := roi p;
     max_missing := max_missing p;
     min_length := min_length p;
     tolerance := tolerance p;
     multiple_match := multiple_match p |}.

(** A tracker fed scan after scan, [append_to_roi] following every [add]. *)
Fixpoint feed (p : RoiProcessor) (rt : list Q) (scans : list (list Q * list Q))
  : result RoiProcessor :=
  match scans with
  | [] => Ok p
  | (mz, sp) :: scans' =>
      r <- add p mz sp ;;
      p' <- append_to_roi (fst r) rt ;;
      feed p' rt scans'
  end.

(** The value matched to slot [i] by one call of the matcher, if any. *)
Fixpoint assoc {A : Type} (i : nat) (l : list (nat * A)) : option A :=
  match l with
  | [] => None
  | (k, v) :: l' => if Nat.eqb k i then Some v else assoc i l'
  end.

Definition slot_match (p : RoiProcessor) (mz sp : list Q) (i : nat) : option Q :=
  match add_match p mz sp with
  | Ok (match_index, mz_match, _, _, _) => assoc i (zip match_index mz_match)
  | Raise _ => None
  end.

(** The values matched to slot [i] while the tracker is fed [scans]. *)
Fixpoint slot_matches (p : RoiProcessor) (rt : list Q)
    (scans : list (list Q * list Q)) (i : nat) : list Q :=
  match scans with
  | [] => []
  | (mz, sp) :: scans' =>
      match r <- add p mz sp ;; append_to_roi (fst r) rt with
      | Ok p' =>
          match slot_match p mz sp i with
          | Some x => x :: slot_matches p' rt scans' i
          | None => slot_matches p' rt scans' i
          end
      | Raise _ => []
      end
  end.

End Tracker.

(** ** Scan accessor *)

(** A scan: its retention time and its (mass, intensity) peaks, mass-sorted.
    The accessor is external to [lcms.py]; an index outside the experiment is
    modelled as an [IndexError]. *)
Record Spectrum : Type := mkSpectrum {
  getRT : Q;
  peaks : list (Q * Q) }.

Definition msexperiment : Type := list Spectrum.

Definition get_peaks (sp : Spectrum) : list Q * list Q :=
  (map fst (peaks sp), map snd (peaks sp)).

Definition getNrSpectra (msexp : msexperiment) : Z := Z.of_nat (length msexp).

Definition getSpectrum (msexp : msexperiment) (k : Z) : result Spectrum :=
  if (k <? 0)%Z then Raise IndexError else getitem msexp (Z.to_nat k).

(** ** EIC extractor *)

Module Eic.

(** [a[::2]] and [a[1::2]]. *)
Fixpoint evens {A : Type} (a : list A) : list A :=
  match a with
  | x :: _ :: a' => x :: evens a'
  | [x] => [x]
  | [] => []
  end.
Fixpoint odds {A : Type} (a : list A) : list A :=
  match a with
  | _ :: y :: a' => y :: odds a'
  | _ => []
  end.

(** [np.add.reduceat(a, ind)]: entry [i] is the sum of [a[ind[i]:ind[i+1]]]
    when [ind[i] < ind[i+1]], and [a[ind[i]]] otherwise; the last entry sums
    to the end of [a]. *)
Fixpoint reduceat_go (a : list Q) (ind : list nat) : list Q :=
  match ind with
  | [] => []
  | i :: ind' =>
      (match ind' with
       | [] => Qsum (drop i a)
       | j :: _ => if Nat.ltb i j then Qsum (slice i j a) else nth i a 0
       end) :: reduceat_go a ind'
  end.

Definition reduceat (a : list Q) (ind : list Z) : result (list Q) :=
  if forallb (fun i => (0 <=? i) && (i <? Z.of_nat (length a)))%Z ind
  then Ok (reduceat_go a (map Z.to_nat ind))
  else Raise IndexError.

(** [a[:, k]] and [a[:, k] = col] on an array with [ncols] columns. *)
Definition get_column (a : list (list Q)) (ncols : nat) (k : Z) : result (list Q) :=
  j <- norm_index ncols k ;;
  Ok (map (fun row => nth j row 0) a).

Definition set_column (a : list (list Q)) (ncols : nat) (k : Z) (col : list Q)
  : result (list (list Q)) :=
  j <- norm_index ncols k ;;
  Ok (zip_with (fun row v => <[j := v]> row) a col).

Definition invalid_accumulator : exn :=
  ValueError "accumulator possible values are `mean` and `sum`.".

(** The loop over the scans [ksp] of [range(start, end)]. *)
Fixpoint chromatogram_loop (msexp : msexperiment) (mz_intervals : list Q)
    (accumulator : string) (ncols : nat) (ksps : list Z)
    (rt : list Q) (chromatograms : list (list Q))
  : result (list Q * list (list Q)) :=
  match ksps with
  | [] => Ok (rt, chromatograms)
  | ksp :: ksps' =>
      sp <- getSpectrum msexp ksp ;;
      rt' <- setitem rt ksp (getRT sp) ;;
      let '(mz_sp, int_sp) := get_peaks sp in
      let size := Z.of_nat (length int_sp) in
      let ind_sp := map (fun v => Z.of_nat (searchsorted mz_sp v)) mz_intervals in
      (* elements added at the end of mz_sp raise IndexError *)
      let ind_sp := map (fun i => if (size <=? i)%Z then (size - 1)%Z else i) ind_sp in
      red <- reduceat int_sp ind_sp ;;
      chrom' <- set_column chromatograms ncols ksp (evens red) ;;
      if String.eqb accumulator "mean" then
        let norm := zip_with Z.sub (odds ind_sp) (evens ind_sp) in
        let norm := map (fun n => if (n =? 0)%Z then 1%Z else n) norm in
        col <- get_column chrom' ncols ksp ;;
        chrom'' <- set_column chrom' ncols ksp
                     (zip_with (fun c n => c / inject_Z n) col norm) ;;
        chromatogram_loop msexp mz_intervals accumulator ncols ksps' rt' chrom''
      else if String.eqb accumulator "sum" then
        chromatogram_loop msexp mz_intervals accumulator ncols ksps' rt' chrom'
      else Raise invalid_accumulator
  end.

Definition chromatogram (msexp : msexperiment) (mz : list Q) (window : Q)
    (start end_ : option Z) (accumulator : string)
  : result (list Q * list (list Q)) :=
  let mz_intervals := flat_map (fun m => [m - window; m + window]) mz in
  let nsp := getNrSpectra msexp in
  let start := default 0%Z start in
  let end_ := default nsp end_ in
  if (end_ - start <? 0)%Z
  then Raise (ValueError "negative dimensions are not allowed")
  else
    let ncols := Z.to_nat (end_ - start) in
    let chromatograms := repeat (repeat 0 ncols) (length mz) in
    let rt := repeat 0 ncols in
    chromatogram_loop msexp mz_intervals accumulator ncols (range start end_)
      rt chromatograms.

End Eic.
Import Eic.

(** ** Spectral accumulator *)

(** Entries of the accumulated intensity: a number, or the NaN that [np.mean]
    returns for an axis of length zero. *)
Inductive npfloat : Type :=
| Num (q : Q)
| NaN.

Definition np_sub (x y : npfloat) : npfloat :=
  match x, y with
  | Num a, Num b => Num (a - b)
  | _, _ => NaN
  end.

(** Column sums of a block of rows with [ncols] columns. *)
Definition column_sums (rows : list (list Q)) (ncols : nat) : list Q :=
  fold_right (zip_with Qplus) (repeat 0 ncols) rows.

(** [np.sum(rows, axis=0)] and [np.mean(rows, axis=0)]. *)
Definition np_sum (rows : list (list Q)) (ncols : nat) : list npfloat :=
  map Num (column_sums rows ncols).

Definition np_mean (rows : list (list Q)) (ncols : nat) : list npfloat :=
  match rows with
  | [] => repeat NaN ncols
  | _ :: _ =>
      map (fun s => Num (s / inject_Z (Z.of_nat (length rows))))
          (column_sums rows ncols)
  end.

(** The dictionary [accumulator_functions]. *)
Definition accumulator_functions (name : string)
  : result (list (list Q) -> nat -> list npfloat) :=
  if String.eqb name "sum" then Ok np_sum
  else if String.eqb name "mean" then Ok np_mean
  else Raise (KeyError name).

Definition subtract_outside : exn :=
  ValueError "subtract region outside scan region.".

Section Accumulator.

(** [interp1d(x, y, kind)(x_new)] of scipy; [None] when it raises. *)
Variable interp1d : list Q -> list Q -> string -> list Q -> option (list Q).

(** [roi[roi_index] += 1]: every index of [roi_index] is read, then written. *)
Definition increment_at (roi : list Q) (roi_index : list nat) : result (list Q) :=
  old <- take_idx roi roi_index ;;
  put_idx roi roi_index (map (fun v => v + 1) old).

(** The loop of [_get_mz_roi] over the scans of the region. *)
Fixpoint roi_loop (ms_experiment : msexperiment) (mz_ref : list Q)
    (ks : list Z) (roi : list Q) : result (list Q) :=
  match ks with
  | [] => Ok roi
  | k :: ks' =>
      sp <- getSpectrum ms_experiment k ;;
      let curr_mz := fst (get_peaks sp) in
      let roi_index := map (searchsorted mz_ref) curr_mz in
      roi' <- increment_at roi roi_index ;;
      roi_loop ms_experiment mz_ref ks' roi'
  end.

Definition _get_mz_roi (ms_experiment : msexperiment) (scans : Z * Z)
  : result (list Q) :=
  sp0 <- getSpectrum ms_experiment (fst scans) ;;
  let mz_0 := fst (get_peaks sp0) in
  mz_min <- amin mz_0 ;;
  mz_max <- amax mz_0 ;;
  mz_res <- amin (diff mz_0) ;;
  mz_ref <- arange mz_min mz_max mz_res ;;
  let roi := repeat 0 (length mz_ref + 1) in
  (* +1 used to prevent error due to mz values bigger than mz_max *)
  roi <- roi_loop ms_experiment mz_ref (range (fst scans) (snd scans)) roi ;;
  let roi := map (fun v => negb (Qeq_bool v 0)) roi in
  take_mask (removelast roi) mz_ref.

(** The rows of [interp_int], one per scan of the subtract region. *)
Fixpoint interpolate_rows (msexp : msexperiment) (kind : string)
    (mz_ref : list Q) (scans : list Z) : result (list (list Q)) :=
  match scans with
  | [] => Ok []
  | scan :: scans' =>
      sp <- getSpectrum msexp scan ;;
      let '(mz_scan, int_scan) := get_peaks sp in
      row <- match interp1d mz_scan int_scan kind mz_ref with
             | Some r =>
                 if Nat.eqb (length r) (length mz_ref) then Ok r
                 else Raise (ValueError "could not broadcast input array")
             | None => Raise InterpolationError
             end ;;
      rows <- interpolate_rows msexp kind mz_ref scans' ;;
      Ok (row :: rows)
  end.

Definition accumulate_spectra (msexp : msexperiment) (start end_ : Z)
    (subtract : option (Z * Z)) (kind : string) (accumulator : string)
  : result (list Q * list npfloat) :=
  accumulator <- accumulator_functions accumulator ;;
  subtract <- match subtract with
              | Some (s0, s1) =>
                  if ((s0 >? start) || (s1 <? end_))%Z
                  then Raise subtract_outside
                  else Ok (s0, s1)
              | None => Ok (start, end_)
              end ;;
  (* interpolate accumulate and substract regions *)
  let rows := (snd subtract - fst subtract)%Z in
  mz_ref <- _get_mz_roi msexp subtract ;;
  if (rows <? 0)%Z then Raise (ValueError "negative dimensions are not allowed")
  else
    interp_int <- interpolate_rows msexp kind mz_ref
                    (range (fst subtract) (snd subtract)) ;;
    (* subtract indices to match interp_int rows *)
    let start := (start - fst subtract)%Z in
    let end_ := (end_ - fst subtract)%Z in
    let subtract := (0%Z, (snd subtract - fst subtract)%Z) in
    let n := length mz_ref in
    let accum_int :=
      zip_with np_sub
        (zip_with np_sub
           (accumulator (pyslice start end_ interp_int) n)
           (accumulator (pyslice (fst subtract) start interp_int) n))
        (accumulator (pyslice end_ (snd subtract) interp_int) n) in
    Ok (mz_ref, accum_int).

End Accumulator.

(** A mass of scan [k] falls into bin [i] of the grid [mz_ref]. *)
Definition lands_in (msexp : msexperiment) (mz_ref : list Q) (k : Z) (i : nat) : Prop :=
  exists sp m,
    getSpectrum msexp k = Ok sp /\ In m (fst (get_peaks sp)) /\
    searchsorted mz_ref m = i.

(** A model of scipy's linear [interp1d] on an ascending [x]: a query outside
    [x[0], x[-1]] raises, a query inside is interpolated between its two
    neighbours.  It is used to evaluate the accumulator on concrete scans. *)
Definition linear_interp_at (x y : list Q) (x_new : Q) : option Q :=
  match x, last x with
  | x0 :: _, Some xn =>
      if Qltb x_new x0 || Qltb xn x_new then None
      else
        let hi := Nat.max 1 (Nat.min (searchsorted x x_new) (length x - 1)) in
        let lo := (hi - 1)%nat in
        match x !! lo, x !! hi, y !! lo, y !! hi with
        | Some x_lo, Some x_hi, Some y_lo, Some y_hi =>
            Some (y_lo + (y_hi - y_lo) / (x_hi - x_lo) * (x_new - x_lo))
        | _, _, _, _ => None
        end
  | _, _ => None
  end.

Definition linear_interp1d (x y : list Q) (kind : string) (x_new : list Q)
  : option (list Q) :=
  if String.eqb kind "linear" then mapM (linear_interp_at x y) x_new else None.

(** ** The grid of the accumulator, read from the spec

    "Builds a reference mass grid from the union of masses observed across
    the union region, sampling at the minimum observed mass spacing, clipped
    to the observed min/max mass; a grid point is retained only if at least
    one scan in the region has an observed mass landing in that grid bin."
    This second definition follows these words; it is compared with
    [_get_mz_roi] below. *)

Fixpoint region_masses (msexp : msexperiment) (ks : list Z) : result (list (list Q)) :=
  match ks with
  | [] => Ok []
  | k :: ks' =>
      sp <- getSpectrum msexp k ;;
      ms <- region_masses msexp ks' ;;
      Ok (fst (get_peaks sp) :: ms)
  end.

Definition mz_roi_of_union (msexp : msexperiment) (scans : Z * Z) : result (list Q) :=
  ms <- region_masses msexp (range (fst scans) (snd scans)) ;;
  mz_min <- amin (concat ms) ;;
  mz_max <- amax (concat ms) ;;
  mz_res <- amin (concat (map diff ms)) ;;
  mz_ref <- arange mz_min mz_max mz_res ;;
  let kept :=
    map (fun i => existsb (fun m => Nat.eqb (searchsorted mz_ref m) i) (concat ms))
        (seq 0 (length mz_ref)) in
  Ok (compress kept mz_ref).

(** ** Concrete spectra and scans used below *)

Module Data.

(** Three peaks one 13C spacing apart (charge 1). *)
Definition spectrum_q1 : list Q := [500; 5010034 # 10000; 5020067 # 10000].

(** Peaks at the monoisotopic mass, half a spacing and one spacing above. *)
Definition spectrum_q2 : list Q := [500; 5005017 # 10000; 5010034 # 10000].

Definition tol_iso : Q := 1 # 100.

(** The matcher example of the spec, and two scans built around it. *)
Definition tol_match : Q := 5 # 1000.
Definition mz_pair : list Q := [1000010 # 10000; 1000020 # 10000].
Definition mz_low_pair : list Q := [50; 1000010 # 10000; 1000020 # 10000].
Definition mz_two_pairs : list Q :=
  [1000010 # 10000; 1000020 # 10000; 2000010 # 10000; 2000020 # 10000].

(** Tracker scenario: one seed at mass 100, eight scans. *)
Definition present : list Q * list Q := ([100], [10]).
Definition absent : list Q * list Q := ([200], [7]).
Definition rts : list Q := [0; 1; 2; 3; 4; 5; 6; 7].
Definition seeded_tracker : RoiProcessor :=
  {| _mz_reduce := Callable Qmean;
     _spint_reduce := Callable Qsum;
     _first_scan := 0;
     _mz_mean := [100];
     _mz := [[0; 0; 0; 0; 0; 0; 0; 0]];
     _sp := [[0; 0; 0; 0; 0; 0; 0; 0]];
     _counter := [1];
     _missing := [0%Z];
     _index := 0;
     _start := [0%nat];
     roi := [];
     max_missing := 1;
     min_length := 5;
     tolerance := tol_match;
     multiple_match := "closest" |}.
Definition seeded : result RoiProcessor :=
  RoiProcessor_init [100] 8 1 5 tol_match "closest" 0 (Named "mean") (Named "sum").
Definition scans_0_6 : list (list Q * list Q) :=
  [present; present; present; present; present; absent; absent].
Definition after_scan_5 : result RoiProcessor :=
  p <- seeded ;; feed find_closest p rts (take 6 scans_0_6).
Definition after_scan_6 : result RoiProcessor :=
  p <- seeded ;; feed find_closest p rts scans_0_6.
Definition after_scan_7 : result RoiProcessor :=
  p <- seeded ;; feed find_closest p rts (scans_0_6 ++ [present]).

(** Two scans whose mass drifts away from the seed within the tolerance. *)
Definition drift_scans : list (list Q * list Q) :=
  [([1000020 # 10000], [10]); ([1000040 # 10000], [10])].

(** A tracker with one row that has missed two scans after five matches. *)
Definition stalled : RoiProcessor :=
  {| _mz_reduce := Callable Qmean;
     _spint_reduce := Callable Qsum;
     _first_scan := 0;
     _mz_mean := [100];
     _mz := [[100; 100; 100; 100; 100; 0; 0; 0]];
     _sp := [[10; 10; 10; 10; 10; 0; 0; 0]];
     _counter := [6];
     _missing := [2%Z];
     _index := 7;
     _start := [0%nat];
     roi := [];
     max_missing := 1;
     min_length := 5;
     tolerance := tol_match;
     multiple_match := "closest" |}.

(** The trace completed after scan 6 of the scenario. *)
Definition trace_0_6 : Chromatogram :=
  {| chrom_spint := [10; 10; 10; 10; 10; 0; 0];
     chrom_rt := [0; 1; 2; 3; 4; 5; 6];
     chrom_mz := [100; 100; 100; 100; 100; 0; 0];
     chrom_start := 0;
     chrom_end := 7 |}.

(** EIC: one scan with peaks at 100 and 200. *)
Definition two_peaks : Spectrum := mkSpectrum 0 [(100, 5); (200, 7)].

(** Accumulator: scans on the masses 100, 101, 102 and a scan that reaches
    below and above them with a finer spacing. *)
Definition ramp : Spectrum := mkSpectrum 0 [(100, 1); (101, 3); (102, 5)].
Definition wide : Spectrum := mkSpectrum 1 [(997 # 10, 1); (999 # 10, 3); (150, 5)].

End Data.
Import Data.

(** ** Peak picking parameters *)

(** [np.linspace(start, stop, num)]: [num] evenly spaced points, the last one
    set to [stop]. *)
Definition linspace (start stop : Q) (num : nat) : list Q :=
  match num with
  | 0%nat => []
  | 1%nat => [start]
  | S div =>
      let step := (stop - start) / inject_Z (Z.of_nat div) in
      map (fun i => start + inject_Z (Z.of_nat i) * step) (seq 0 div) ++ [stop]
  end.

Definition make_widths_lc (mode : string) : result (list Q) :=
  r <- (if String.eqb mode "uplc" then Ok (1, 15, 60)
        else if String.eqb mode "hplc" then Ok (1, 30, 90)
        else Raise (ValueError "Valid modes are `hplc` or `uplc`.")) ;;
  let '(min_width, middle, max_width) := r in
  (* [:-1] prevents repeated value *)
  Ok (removelast (linspace min_width middle 20) ++ linspace middle max_width 20).

(** The second branch of the source tests the mode qtof again. *)
Definition make_widths_ms (mode : string) : result (list Q) :=
  r <- (if String.eqb mode "qtof" then Ok (5 # 1000, 1 # 10, 2 # 10)
        else if String.eqb mode "qtof" then Ok (5 # 10000, 1 # 1000, 5 # 1000)
        else Raise (ValueError "mode must be `orbitrap` or `qtof`")) ;;
  let '(min_width, middle, max_width) := r in
  (* [:-1] prevents repeated value *)
  Ok (removelast (linspace min_width middle 20) ++ linspace middle max_width 10).

(** Keyword parameters of the peak picker: a dictionary from names to numbers
    or [None]. *)
Definition cwt_base_params : gmap string (option Q) :=
  <["snr" := Some 10]>
    (<["bl_ratio" := Some 2]>
       (<["min_length" := None]>
          (<["max_distance" := None]>
             (<["gap_thresh" := Some 1]> ∅)))).

Definition get_lc_cwt_params (mode : string) : result (gmap string (option Q)) :=
  let cwt_params := cwt_base_params in
  if String.eqb mode "hplc" then
    Ok (<["max_width" := Some 90]> (<["min_width" := Some 10]> cwt_params))
  else if String.eqb mode "uplc" then
    Ok (<["max_width" := Some 60]> (<["min_width" := Some 5]> cwt_params))
  else Raise (ValueError "`mode` must be `hplc` or `uplc`").

Definition get_ms_cwt_params (mode : string) : result (gmap string (option Q)) :=
  let cwt_params := cwt_base_params in
  if String.eqb mode "qtof" then
    Ok (<["max_width" := Some (2 # 10)]> (<["min_width" := Some (1 # 100)]> cwt_params))
  else if String.eqb mode "orbitrap" then
    Ok (<["max_width" := Some (5 # 1000)]> (<["min_width" := Some (5 # 10000)]> cwt_params))
  else Raise (ValueError "`mode` must be `qtof` or `orbitrap`").

(** ** Mass spectrum *)

Section Spectrum.

(** The peaks returned by [peaks.pick_cwt], and the picker itself, which is
    not part of [lcms.py]. *)
Variable Peak : Type.
Variable pick_cwt :
  list Q -> list Q -> list Q -> gmap string (option Q) -> result (list Peak).

Record MSSpectrum : Type := mkMSSpectrum {
  ms_mz : list Q;
  ms_spint : list Q;
  ms_peaks : option (list Peak) }.

(** [MSSpectrum.__init__]. *)
Definition MSSpectrum_init (mz spint : list Q) : MSSpectrum :=
  mkMSSpectrum mz spint None.

(** [MSSpectrum.find_peaks]; [default_params.update(cwt_params)] lets the
    entries of [cwt_params] win. *)
Definition find_peaks (self : MSSpectrum) (mode : string)
    (cwt_params : option (gmap string (option Q))) : result MSSpectrum :=
  default_params <- get_ms_cwt_params mode ;;
  let default_params :=
    match cwt_params with
    | Some params =>
        if decide (params = ∅) then default_params else params ∪ default_params
    | None => default_params
    end in
  widths <- make_widths_ms mode ;;
  peak_list <- pick_cwt (ms_mz self) (ms_spint self) widths default_params ;;
  Ok (mkMSSpectrum (ms_mz self) (ms_spint self) (Some peak_list)).

End Spectrum.

(** ** Nearest-element searches *)

(** What the isotopic search and the matcher expect of [find_closest]: on an
    array that is not empty it returns the position of an element that is at
    least as near to the query as every other element. *)
Definition nearest_search (fc : list Q -> Q -> nat) : Prop :=
  forall (x : list Q) (xq : Q),
    x <> [] ->
    exists m, x !! fc x xq = Some m /\
      forall i xi, x !! i = Some xi -> Qabs (m - xq) <= Qabs (xi - xq).

(** ** Shape of a tracker *)

(** A tracker with [n] slots and buffers of [size] columns. *)
Definition tracker_shape (n size : nat) (p : RoiProcessor) : Prop :=
  length (_mz_mean p) = n /\ length (_counter p) = n /\
  length (_missing p) = n /\ length (_start p) = n /\
  length (_mz p) = n /\ length (_sp p) = n /\
  Forall (fun row => length row = size) (_mz p) /\
  Forall (fun row => length row = size) (_sp p).

(** ** ROI driver *)

Section Driver.

Variable find_closest : list Q -> Q -> nat.

(** The inner loop of [_make_roi]: the scan is handed from tracker to
    tracker, each one keeping its matches; the loop stops at the first
    tracker that would receive no mass. *)
Fixpoint feed_processors (processors : list RoiProcessor) (rt mz spint : list Q)
  : result (list RoiProcessor * (list Q * list Q)) :=
  match processors with
  | [] => Ok ([], (mz, spint))
  | processor :: processors' =>
      if Nat.ltb 0 (length mz) then
        r <- add find_closest processor mz spint ;;
        let '(processor', (mz', spint')) := r in
        processor'' <- append_to_roi processor' rt ;;
        rest <- feed_processors processors' rt mz' spint' ;;
        Ok (processor'' :: fst rest, snd rest)
      else Ok (processors, (mz, spint))
  end.

(** The loop of [_make_roi] over the scans. *)
Fixpoint make_roi_loop (msexp : msexperiment) (tolerance : Q)
    (max_missing min_length : Z) (multiple_match : string)
    (targeted_mode : bool) (start end_ : Z) (mz_reduce sp_reduce : reducer)
    (k_scans : list Z) (rt : list Q) (roi_processor_list : list RoiProcessor)
  : result (list Q * list RoiProcessor) :=
  match k_scans with
  | [] => Ok (rt, roi_processor_list)
  | k_scan :: k_scans' =>
      sp <- getSpectrum msexp k_scan ;;
      rt' <- setitem rt (k_scan - start) (getRT sp) ;;
      let '(mz, spint) := get_peaks sp in
      r <- feed_processors roi_processor_list rt' mz spint ;;
      let '(processors', (mz', spint')) := r in
      if Nat.ltb 0 (length mz') && negb targeted_mode then
        tmp_processor <- RoiProcessor_init mz' (Z.to_nat (end_ - k_scan))
                           max_missing min_length tolerance multiple_match
                           (Z.to_nat (k_scan - start)) mz_reduce sp_reduce ;;
        r' <- add find_closest tmp_processor mz' spint' ;;
        tmp_processor' <- append_to_roi (fst r') rt' ;;
        make_roi_loop msexp tolerance max_missing min_length multiple_match
          targeted_mode start end_ mz_reduce sp_reduce k_scans' rt'
          (processors' ++ [tmp_processor'])
      else
        make_roi_loop msexp tolerance max_missing min_length multiple_match
          targeted_mode start end_ mz_reduce sp_reduce k_scans' rt' processors'
  end.

(** The closing loop of [_make_roi]: every tracker is flushed and its traces
    are collected. *)
Fixpoint collect_roi (rt : list Q) (roi_processor_list : list RoiProcessor)
  : result (list Chromatogram) :=
  match roi_processor_list with
  | [] => Ok []
  | processor :: processors' =>
      processor' <- append_to_roi (flag_as_completed processor) rt ;;
      rest <- collect_roi rt processors' ;;
      Ok (roi processor' ++ rest)
  end.

Definition _make_roi (msexp : msexperiment) (tolerance : Q)
    (max_missing min_length : Z) (multiple_match : string)
    (targeted_mz : option (list Q)) (start end_ : option Z)
    (mz_reduce sp_reduce : reducer) : result (list Chromatogram) :=
  let start := default 0%Z start in
  let end_ := default (getNrSpectra msexp) end_ in
  seed <- match targeted_mz with
          | None =>
              sp <- getSpectrum msexp start ;;
              Ok (fst (get_peaks sp), false)
          | Some mz => Ok (mz, true)
          end ;;
  let '(mz_seed, targeted_mode) := seed in
  let size := (end_ - start)%Z in
  if (size <? 0)%Z then Raise (ValueError "negative dimensions are not allowed")
  else
    let rt := repeat 0 (Z.to_nat size) in
    tmp_processor <- RoiProcessor_init mz_seed (Z.to_nat size) max_missing
                       min_length tolerance multiple_match 0 mz_reduce sp_reduce ;;
    r <- make_roi_loop msexp tolerance max_missing min_length multiple_match
           targeted_mode start end_ mz_reduce sp_reduce (range start end_)
           rt [tmp_processor] ;;
    (* add roi not completed during last scan and merge each processor roi *)
    collect_roi (fst r) (snd r).

End Driver.

(** Three scans that share the mass 100. *)
Definition three_scans : msexperiment :=
  [mkSpectrum 0 [(100, 5); (200, 7)]; mkSpectrum 1 [(100, 6)];
   mkSpectrum 2 [(100, 4); (300, 1)]].

(** A trace as the driver should return it: a mass and an intensity series of
    the same length, at least [min_len]. *)
Definition valid_trace (min_len : Z) (c : Chromatogram) : Prop :=
  length (chrom_spint c) = length (chrom_mz c) /\
  (min_len <= Z.of_nat (length (chrom_spint c)))%Z.

(** A tracker of the driver with [room] scans still to come: well shaped,
    with buffer columns left for these scans, and holding valid traces. *)
Definition tracker_ready (min_len : Z) (room : nat) (p : RoiProcessor) : Prop :=
  exists n size,
    tracker_shape n size p /\ (_index p + room <= size)%nat /\
    min_length p = min_len /\ Forall (valid_trace min_len) (roi p).

(** ** Windows of the EIC extractor *)

(** [ind_sp] of the loop of [chromatogram] for one scan, after the indices
    beyond the last peak were moved back onto it. *)
Definition clamped_indices (mz_intervals : list Q) (sp : Spectrum) : list Z :=
  let size := Z.of_nat (length (map snd (peaks sp))) in
  map (fun i => if (size <=? i)%Z then (size - 1)%Z else i)
      (map (fun v => Z.of_nat (searchsorted (map fst (peaks sp)) v)) mz_intervals).

(** A peak inside the half-open window [lo, hi). *)
Definition in_window (lo hi : Q) (peak : Q * Q) : bool :=
  Qle_bool lo (fst peak) && Qltb (fst peak) hi.

(** [chromatogram] from the point where the window bounds are known.  The
    source computes the two rows [mz - window] and [mz + window] in double
    precision before the loop and only reads them afterwards; [bounds] holds
    one pair of computed bounds for each target mass, whatever the rounding
    made of them, and [mz_intervals] is their interleaving. *)
Definition chromatogram_from (msexp : msexperiment) (bounds : list (Q * Q))
    (start end_ : option Z) (accumulator : string)
  : result (list Q * list (list Q)) :=
  let mz_intervals := flat_map (fun b => [fst b; snd b]) bounds in
  let nsp := getNrSpectra msexp in
  let start := default 0%Z start in
  let end_ := default nsp end_ in
  if (end_ - start <? 0)%Z
  then Raise (ValueError "negative dimensions are not allowed")
  else
    let ncols := Z.to_nat (end_ - start) in
    let chromatograms := repeat (repeat 0 ncols) (length bounds) in
    let rt := repeat 0 ncols in
    chromatogram_loop msexp mz_intervals accumulator ncols (range start end_)
      rt chromatograms.

(** A scan with peaks at 100.1, 100.2, 100.3 and 500, and the bounds of a
    window around 100.2 both moved up by a rounding error, so that the peak
    at 100.1 lies just below the lower bound and the peak at 100.3 just below
    the upper bound. *)
Definition edge_scan : Spectrum :=
  mkSpectrum 0 [(1001 # 10, 1); (1002 # 10, 2); (1003 # 10, 4); (500, 8)].
Definition rounded_bounds : Q * Q :=
  (1001000000000001 # 10000000000000, 1003000000000001 # 10000000000000).


(** * Results *)

(** ** Isotopic envelope search *)

(** What the charge loop computes, for every nearest-element search: since
    [n_peaks] stays at its initial value, the last charge replaces the
    candidate set as soon as it has one match, whatever the earlier charges
    found. *)
Lemma charge_loop_app fc mz mz_mono n tol qs q : forall best,
  charge_loop fc mz mz_mono n tol (qs ++ [q]) best 0 =
  (b <- charge_loop fc mz mz_mono n tol qs best 0 ;;
   tmp <- find_isotopic_distribution_aux fc mz mz_mono q n tol ;;
   Ok (if Nat.ltb 0 (length tmp) then tmp else b)).
Proof.
  induction qs as [| q0 qs IH]; intros best.
  - cbn [app charge_loop bind].
    destruct (find_isotopic_distribution_aux fc mz mz_mono q n tol) as [tmp |];
      cbn [bind]; [| reflexivity].
    destruct (Nat.ltb 0 (length tmp)); reflexivity.
  - cbn [app charge_loop].
    destruct (find_isotopic_distribution_aux fc mz mz_mono q0 n tol) as [tmp0 |];
      cbn [bind]; [| reflexivity].
    destruct (Nat.ltb 0 (length tmp0)); apply IH.
Qed.

Lemma find_isotopic_distribution_last_charge fc mz mz_mono q_max n tol :
  find_isotopic_distribution fc mz mz_mono (S q_max) n tol =
  (b <- find_isotopic_distribution fc mz mz_mono q_max n tol ;;
   tmp <- find_isotopic_distribution_aux fc mz mz_mono (S q_max) n tol ;;
   Ok (if Nat.ltb 0 (length tmp) then tmp else b)).
Proof.
  unfold find_isotopic_distribution. rewrite seq_S. apply charge_loop_app.
Qed.

(** C1 (the code departs from the claim and from its own docstring): on the
    spectrum [spectrum_q1], charge 1 gives three matches and charge 2 gives
    two, yet the search over charges 1 and 2 returns the two indices of
    charge 2; on [spectrum_q2] both charges give two matches and the set of
    charge 2, tested last, is returned. *)
Theorem find_isotopic_distribution_keeps_last_charge :
  find_isotopic_distribution_aux find_closest spectrum_q1 500 1 3 tol_iso
    = Ok [0; 1; 2]%nat /\
  find_isotopic_distribution_aux find_closest spectrum_q1 500 2 3 tol_iso
    = Ok [0; 1]%nat /\
  find_isotopic_distribution find_closest spectrum_q1 500 2 3 tol_iso
    = Ok [0; 1]%nat /\
  find_isotopic_distribution_aux find_closest spectrum_q2 500 1 2 tol_iso
    = Ok [0; 2]%nat /\
  find_isotopic_distribution_aux find_closest spectrum_q2 500 2 2 tol_iso
    = Ok [0; 1]%nat /\
  find_isotopic_distribution find_closest spectrum_q2 500 2 2 tol_iso
    = Ok [0; 1]%nat.
Proof. repeat split; vm_compute; reflexivity. Qed.

(** ** Mass matcher *)

(** C2 (the code departs from the claim and from its own docstring): the
    example of the claim holds, the running mean 100 keeps 100.001 and returns
    100.002 as unmatched.  With one unmatched mass in front, the scan
    50, 100.001, 100.002 keeps 100.001 but returns only 50 as unmatched:
    100.002 is neither matched nor returned.  With two running means that
    each have two candidates the call raises an [IndexError]. *)
Theorem match_mz_closest_drops_candidate :
  _match_mz find_closest [100] mz_pair [1; 2] tol_match "closest"
      (Callable Qmean) (Callable Qsum)
    = Ok ([0%nat], [1000010 # 10000], [1], [1000020 # 10000], [2]) /\
  _match_mz find_closest [100] mz_low_pair [1; 2; 3] tol_match "closest"
      (Callable Qmean) (Callable Qsum)
    = Ok ([0%nat], [1000010 # 10000], [2], [50], [1]) /\
  _match_mz find_closest [100; 200] mz_two_pairs [1; 2; 3; 4] tol_match "closest"
      (Callable Qmean) (Callable Qsum)
    = Raise IndexError.
Proof. repeat split; vm_compute; reflexivity. Qed.

(** ** EIC extractor *)

(** C4 (the code departs from the claim): the window around 150 contains no
    mass of the scan with peaks at 100 and 200, and the reported intensity is
    7, the intensity of the peak at 200, in mode mean and in mode sum. *)
Theorem chromatogram_empty_window_not_zero :
  chromatogram [two_peaks] [150] (5 # 1000) None None "mean" = Ok ([0], [[7]]) /\
  chromatogram [two_peaks] [150] (5 # 1000) None None "sum" = Ok ([0], [[7]]).
Proof. split; vm_compute; reflexivity. Qed.

(** ** Spectral accumulator *)

(** C5 (the code departs from the claim in mode mean): with [subtract] left
    out, mode sum returns the column sums of the main region, while mode mean
    returns NaN at every grid point, the mean over the empty flanks. *)
Theorem accumulate_spectra_mean_without_subtract :
  accumulate_spectra linear_interp1d [ramp; ramp] 0 2 None "linear" "sum"
    = Ok ([100; 101], [Num 2; Num 6]) /\
  accumulate_spectra linear_interp1d [ramp; ramp] 0 2 None "linear" "mean"
    = Ok ([100; 101], [NaN; NaN]).
Proof. split; vm_compute; reflexivity. Qed.

(** ** Exceptions of the primitives *)

Ltac bind_inv H :=
  match type of H with
  | bind ?e _ = _ =>
      let E := fresh "E" in
      destruct e eqn:E; cbn [bind] in H; [| try discriminate H]
  end.

Tactic Notation "bind_inv_as" hyp(H) simple_intropattern(pat) :=
  match type of H with
  | bind ?e _ = _ =>
      let E := fresh "E" in
      destruct e as [pat |] eqn:E; cbn [bind] in H; [| try discriminate H]
  end.

Lemma getitem_error {A} (a : list A) i e : getitem a i = Raise e -> e = IndexError.
Proof. unfold getitem. destruct (a !! i); congruence. Qed.

Lemma getSpectrum_error msexp k e : getSpectrum msexp k = Raise e -> e = IndexError.
Proof.
  unfold getSpectrum. destruct (k <? 0)%Z; [congruence | apply getitem_error].
Qed.

Lemma norm_index_error len i e : norm_index len i = Raise e -> e = IndexError.
Proof.
  unfold norm_index.
  destruct ((0 <=? _) && _)%Z; congruence.
Qed.

Lemma norm_index_beyond len i : (Z.of_nat len <= i)%Z -> norm_index len i = Raise IndexError.
Proof.
  intros H. unfold norm_index.
  destruct (i <? 0)%Z eqn:Hneg; [lia |].
  destruct (0 <=? i)%Z; cbn [andb]; [| reflexivity].
  destruct (i <? Z.of_nat len)%Z eqn:Hlt; [lia | reflexivity].
Qed.

Lemma norm_index_inside len i :
  (0 <= i < Z.of_nat len)%Z -> norm_index len i = Ok (Z.to_nat i).
Proof.
  intros H. unfold norm_index.
  destruct (i <? 0)%Z eqn:Hneg; [lia |].
  destruct (0 <=? i)%Z eqn:H0; [| lia].
  destruct (i <? Z.of_nat len)%Z eqn:Hlt; [reflexivity | lia].
Qed.

Lemma setitem_error {A} (a : list A) i x e : setitem a i x = Raise e -> e = IndexError.
Proof.
  unfold setitem. intros H. bind_inv H; [discriminate |].
  injection H as <-. eapply norm_index_error; eassumption.
Qed.

Lemma setitem_length {A} (a a' : list A) i x : setitem a i x = Ok a' -> length a' = length a.
Proof.
  unfold setitem. intros H. bind_inv H. injection H as <-. apply length_insert.
Qed.

Lemma reduceat_error a ind e : reduceat a ind = Raise e -> e = IndexError.
Proof. unfold reduceat. destruct (forallb _ ind); congruence. Qed.

Lemma set_column_error a ncols k col e : set_column a ncols k col = Raise e -> e = IndexError.
Proof.
  unfold set_column. intros H. bind_inv H; [discriminate |].
  injection H as <-. eapply norm_index_error; eassumption.
Qed.

Lemma get_column_error a ncols k e : get_column a ncols k = Raise e -> e = IndexError.
Proof.
  unfold get_column. intros H. bind_inv H; [discriminate |].
  injection H as <-. eapply norm_index_error; eassumption.
Qed.

Lemma range_cons lo hi : (lo < hi)%Z -> range lo hi = lo :: range (lo + 1) hi.
Proof.
  intros H. unfold range.
  replace (Z.to_nat (hi - lo)) with (S (Z.to_nat (hi - (lo + 1)))) by lia.
  cbn [seq map]. f_equal; [lia |].
  rewrite <- seq_shift, map_map. apply map_ext. intros k. lia.
Qed.

Lemma range_nil lo hi : (hi <= lo)%Z -> range lo hi = [].
Proof.
  intros H. unfold range. replace (Z.to_nat (hi - lo)) with 0%nat by lia. reflexivity.
Qed.

Lemma range_last lo hi : (lo < hi)%Z -> In (hi - 1)%Z (range lo hi).
Proof.
  intros H. unfold range. apply in_map_iff.
  exists (Z.to_nat (hi - 1 - lo)). split; [lia |].
  apply in_seq. lia.
Qed.

(** ** EIC extractor: the scan loop *)

(** With a recognised accumulator the loop can only raise an [IndexError]. *)
Lemma chromatogram_loop_error msexp ivs acc ncols ksps :
  acc = "sum" \/ acc = "mean" ->
  forall rt chrom e,
    chromatogram_loop msexp ivs acc ncols ksps rt chrom = Raise e -> e = IndexError.
Proof.
  intros Hacc. induction ksps as [| ksp ksps IH]; intros rt chrom e H.
  - discriminate H.
  - cbn [chromatogram_loop] in H.
    bind_inv H; [| injection H as <-; eapply getSpectrum_error; eassumption].
    bind_inv H; [| injection H as <-; eapply setitem_error; eassumption].
    unfold get_peaks in H.
    bind_inv H; [| injection H as <-; eapply reduceat_error; eassumption].
    bind_inv H; [| injection H as <-; eapply set_column_error; eassumption].
    destruct Hacc as [-> | ->]; cbn [String.eqb Ascii.eqb Bool.eqb] in H.
    + eapply IH; eassumption.
    + bind_inv H; [| injection H as <-; eapply get_column_error; eassumption].
      bind_inv H; [| injection H as <-; eapply set_column_error; eassumption].
      eapply IH; eassumption.
Qed.

(** A scan index at or beyond the length of [rt] stops the loop. *)
Lemma chromatogram_loop_beyond msexp ivs acc ncols ksps :
  forall rt chrom k,
    In k ksps -> (Z.of_nat (length rt) <= k)%Z ->
    is_ok (chromatogram_loop msexp ivs acc ncols ksps rt chrom) = false.
Proof.
  induction ksps as [| ksp ksps IH]; intros rt chrom k Hin Hk.
  - destruct Hin.
  - cbn [chromatogram_loop].
    destruct (getSpectrum msexp ksp) as [sp |] eqn:Hsp; cbn [bind]; [| reflexivity].
    destruct (setitem rt ksp (getRT sp)) as [rt' |] eqn:Hrt; cbn [bind]; [| reflexivity].
    destruct Hin as [-> | Hin].
    { unfold setitem in Hrt. rewrite norm_index_beyond in Hrt by assumption.
      discriminate Hrt. }
    apply setitem_length in Hrt as Hlen.
    unfold get_peaks.
    match goal with |- context [reduceat ?a ?i] => destruct (reduceat a i) end;
      cbn [bind]; [| reflexivity].
    match goal with |- context [set_column ?a ?n ?j ?c] => destruct (set_column a n j c) end;
      cbn [bind]; [| reflexivity].
    destruct (String.eqb acc "mean").
    + match goal with |- context [get_column ?a ?n ?j] => destruct (get_column a n j) end;
        cbn [bind]; [| reflexivity].
      match goal with |- context [set_column ?a ?n ?j ?c] => destruct (set_column a n j c) end;
        cbn [bind]; [| reflexivity].
      apply IH with (k := k); [assumption | lia].
    + destruct (String.eqb acc "sum"); [| reflexivity].
      apply IH with (k := k); [assumption | lia].
Qed.

Lemma clamped_indices_in_range (mz_sp : list Q) (size : Z) (ivs : list Q) :
  (1 <= size)%Z ->
  forallb (fun i => (0 <=? i) && (i <? size))%Z
    (map (fun i => if (size <=? i)%Z then (size - 1)%Z else i)
       (map (fun v => Z.of_nat (searchsorted mz_sp v)) ivs)) = true.
Proof.
  intros Hsize. apply forallb_forall. intros i Hi.
  apply in_map_iff in Hi as [j [<- Hj]].
  apply in_map_iff in Hj as [v [<- _]]. cbv beta.
  destruct (size <=? Z.of_nat (searchsorted mz_sp v))%Z eqn:Hc;
    (apply andb_true_intro; split; [apply Z.leb_le | apply Z.ltb_lt]; lia).
Qed.

(** Whatever the accumulator, the loop raises nothing but an [IndexError] or,
    for an accumulator other than sum and mean, the accumulator error. *)
Lemma chromatogram_loop_error_any msexp ivs acc ncols ksps :
  forall rt chrom e,
    chromatogram_loop msexp ivs acc ncols ksps rt chrom = Raise e ->
    e = IndexError \/
    (acc <> "sum" /\ acc <> "mean" /\ e = invalid_accumulator).
Proof.
  induction ksps as [| ksp ksps IH]; intros rt chrom e H.
  - discriminate H.
  - cbn [chromatogram_loop] in H.
    bind_inv H; [| injection H as <-; left; eapply getSpectrum_error; eassumption].
    bind_inv H; [| injection H as <-; left; eapply setitem_error; eassumption].
    unfold get_peaks in H.
    bind_inv H; [| injection H as <-; left; eapply reduceat_error; eassumption].
    bind_inv H; [| injection H as <-; left; eapply set_column_error; eassumption].
    destruct (String.eqb acc "mean") eqn:Hmean.
    + bind_inv H; [| injection H as <-; left; eapply get_column_error; eassumption].
      bind_inv H; [| injection H as <-; left; eapply set_column_error; eassumption].
      eapply IH; eassumption.
    + destruct (String.eqb acc "sum") eqn:Hsum.
      * eapply IH; eassumption.
      * injection H as <-. right.
        apply String.eqb_neq in Hmean, Hsum. repeat split; assumption.
Qed.

(** C10, as stated, fails for an accumulator other than sum and mean: the
    accumulator error of the first scan comes before the write beyond [rt]. *)
Lemma chromatogram_positive_start_accumulator_first :
  chromatogram [two_peaks; two_peaks; two_peaks] [150] (5 # 1000)
    (Some 1%Z) (Some 3%Z) "foo" = Raise invalid_accumulator.
Proof. vm_compute. reflexivity. Qed.

(** C10, amended: a call with [start >= 1] and [end > start] never returns a
    result.  With accumulator sum or mean the exception is an [IndexError]:
    [rt] has [end - start] entries and is written at the scan index, which
    reaches [end - 1].  With any other accumulator the exception is that
    [IndexError] or the accumulator error. *)
Theorem chromatogram_positive_start_raises msexp mz window start end_ acc :
  (1 <= start)%Z -> (start < end_)%Z ->
  is_ok (chromatogram msexp mz window (Some start) (Some end_) acc) = false /\
  (acc = "sum" \/ acc = "mean" ->
   chromatogram msexp mz window (Some start) (Some end_) acc = Raise IndexError) /\
  (chromatogram msexp mz window (Some start) (Some end_) acc = Raise IndexError \/
   (acc <> "sum" /\ acc <> "mean" /\
    chromatogram msexp mz window (Some start) (Some end_) acc
      = Raise invalid_accumulator)).
Proof.
  intros Hstart Hend.
  assert (Hnot : is_ok (chromatogram msexp mz window (Some start) (Some end_) acc) = false).
  { unfold chromatogram. cbn [from_option id].
    destruct (end_ - start <? 0)%Z eqn:Hneg; [reflexivity |].
    apply chromatogram_loop_beyond with (k := (end_ - 1)%Z).
    - apply range_last. assumption.
    - rewrite repeat_length. lia. }
  split; [exact Hnot |].
  destruct (chromatogram msexp mz window (Some start) (Some end_) acc) as [r | e] eqn:Hc;
    [discriminate Hnot |].
  unfold chromatogram in Hc. cbn [from_option id] in Hc.
  destruct (end_ - start <? 0)%Z eqn:Hneg; [lia |].
  split.
  - intros Hacc. f_equal. eapply chromatogram_loop_error; eassumption.
  - apply chromatogram_loop_error_any in Hc as [-> | (Hsum & Hmean & ->)];
      [left; reflexivity | right; repeat split; assumption].
Qed.

Lemma chromatogram_positive_start_raises_witness :
  chromatogram [two_peaks; two_peaks; two_peaks] [150] (5 # 1000)
    (Some 1%Z) (Some 3%Z) "sum" = Raise IndexError /\
  is_ok (chromatogram [two_peaks; two_peaks; two_peaks] [150] (5 # 1000)
           (Some 1%Z) (Some 3%Z) "foo") = false.
Proof.
  split.
  - apply (chromatogram_positive_start_raises
             [two_peaks; two_peaks; two_peaks] [150] (5 # 1000) 1 3 "sum");
      [lia | lia | left; reflexivity].
  - apply (chromatogram_positive_start_raises
             [two_peaks; two_peaks; two_peaks] [150] (5 # 1000) 1 3 "foo"); lia.
Defined.

(** C8, as stated, fails: with no scan in [start, end) an unrecognised
    accumulator is not reported and the call returns; and a scan index outside
    [rt], or a first scan without peaks, is reported before the accumulator is
    looked at. *)
Lemma chromatogram_invalid_accumulator_unreported :
  chromatogram [two_peaks] [150] (5 # 1000) (Some 1%Z) (Some 1%Z) "foo"
    = Ok ([], [[]]) /\
  chromatogram [] [150] (5 # 1000) None None "foo" = Ok ([], [[]]) /\
  chromatogram [two_peaks; two_peaks; two_peaks] [150] (5 # 1000)
    (Some 2%Z) (Some 3%Z) "foo" = Raise IndexError /\
  chromatogram [mkSpectrum 0 []] [150] (5 # 1000) None None "foo"
    = Raise IndexError.
Proof. repeat split; vm_compute; reflexivity. Qed.

(** C8, amended: with an accumulator other than sum and mean, a call over an
    empty scan range returns the empty result.  A call over a non-empty range
    is the first pass of the loop followed by the accumulator error: the
    spectrum is read, its retention time is written, the column is reduced
    and written, and only then is the accumulator looked at.  So the call
    raises the accumulator error exactly when the first scan exists, its
    index fits [rt], and it has a peak or there is no target mass; otherwise
    it raises the [IndexError] of the step that failed. *)
Theorem chromatogram_invalid_accumulator msexp mz window start end_ acc :
  acc <> "sum" -> acc <> "mean" ->
  let s := default 0%Z start in
  let e := default (getNrSpectra msexp) end_ in
  let ncols := Z.to_nat (e - s) in
  (s = e ->
   chromatogram msexp mz window start end_ acc = Ok ([], repeat [] (length mz))) /\
  ((s < e)%Z ->
   chromatogram msexp mz window start end_ acc =
   (sp <- getSpectrum msexp s ;;
    rt' <- setitem (repeat 0 ncols) s (getRT sp) ;;
    red <- reduceat (map snd (peaks sp))
             (clamped_indices (flat_map (fun m => [m - window; m + window]) mz) sp) ;;
    chrom' <- set_column (repeat (repeat 0 ncols) (length mz)) ncols s (evens red) ;;
    Raise invalid_accumulator)) /\
  ((s < e)%Z ->
   (chromatogram msexp mz window start end_ acc = Raise invalid_accumulator <->
    exists sp, getSpectrum msexp s = Ok sp /\ (0 <= s < e - s)%Z /\
               (mz = [] \/ peaks sp <> [])) /\
   (chromatogram msexp mz window start end_ acc = Raise invalid_accumulator \/
    chromatogram msexp mz window start end_ acc = Raise IndexError)).
Proof.
  intros Hsum Hmean s e ncols.
  apply String.eqb_neq in Hsum, Hmean.
  assert (Hfirst : (s < e)%Z ->
            chromatogram msexp mz window start end_ acc =
            (sp <- getSpectrum msexp s ;;
             rt' <- setitem (repeat 0 ncols) s (getRT sp) ;;
             red <- reduceat (map snd (peaks sp))
                      (clamped_indices
                         (flat_map (fun m => [m - window; m + window]) mz) sp) ;;
             chrom' <- set_column (repeat (repeat 0 ncols) (length mz)) ncols s
                         (evens red) ;;
             Raise invalid_accumulator)).
  { intros Hlt. unfold chromatogram. fold s. fold e. fold ncols.
    destruct (e - s <? 0)%Z eqn:Hneg; [apply Z.ltb_lt in Hneg; lia |].
    rewrite range_cons by assumption. cbn [chromatogram_loop].
    destruct (getSpectrum msexp s) as [sp |]; cbn [bind]; [| reflexivity].
    destruct (setitem (repeat 0 ncols) s (getRT sp)); cbn [bind]; [| reflexivity].
    unfold get_peaks, clamped_indices.
    match goal with |- context [reduceat ?a ?i] => destruct (reduceat a i) end;
      cbn [bind]; [| reflexivity].
    match goal with |- context [set_column ?a ?n ?j ?c] => destruct (set_column a n j c) end;
      cbn [bind]; [| reflexivity].
    rewrite Hmean, Hsum. reflexivity. }
  split; [| split; [exact Hfirst |]].
  - intros Heq. unfold chromatogram. fold s. fold e.
    rewrite Heq, Z.sub_diag. cbn [Z.ltb Z.compare Z.to_nat repeat].
    rewrite range_nil by lia. reflexivity.
  - intros Hlt. rewrite (Hfirst Hlt).
    destruct (getSpectrum msexp s) as [sp | ex] eqn:Hsp; cbn [bind].
    2:{ apply getSpectrum_error in Hsp as ->. split; [| right; reflexivity].
        split; [discriminate | intros [sp [Habs _]]; discriminate Habs]. }
    unfold setitem. rewrite repeat_length.
    destruct (norm_index ncols s) as [c | ex] eqn:Hnorm; cbn [bind].
    2:{ pose proof (norm_index_error _ _ _ Hnorm) as ->. split; [| right; reflexivity].
        split; [discriminate |]. intros [sp' [_ [Hfit _]]].
        unfold ncols in Hnorm. rewrite norm_index_inside in Hnorm by lia.
        discriminate Hnorm. }
    assert (Hfit : (0 <= s < e - s)%Z).
    { unfold norm_index in Hnorm.
      destruct (s <? 0)%Z eqn:Hneg.
      - apply Z.ltb_lt in Hneg.
        destruct ((0 <=? s + Z.of_nat ncols) && (s + Z.of_nat ncols <? Z.of_nat ncols))%Z
          eqn:Hin; [| discriminate Hnorm].
        exfalso. unfold getSpectrum in Hsp.
        destruct (s <? 0)%Z eqn:Hneg'; [discriminate Hsp | apply Z.ltb_ge in Hneg'; lia].
      - apply Z.ltb_ge in Hneg.
        destruct ((0 <=? s) && (s <? Z.of_nat ncols))%Z eqn:Hin; [| discriminate Hnorm].
        apply andb_true_iff in Hin as [_ Hin]. apply Z.ltb_lt in Hin.
        unfold ncols in Hin. lia. }
    unfold set_column. rewrite Hnorm.
    unfold reduceat.
    destruct (forallb _ _) eqn:Hall; cbn [bind].
    + split; [| left; reflexivity].
      split; [intros _ | reflexivity].
      exists sp. split; [reflexivity |]. split; [exact Hfit |].
      destruct mz as [| m mz]; [left; reflexivity | right].
      intros Hempty. unfold clamped_indices in Hall. rewrite Hempty in Hall.
      cbn in Hall. discriminate Hall.
    + split; [| right; reflexivity].
      split; [discriminate |]. intros [sp' [Hsp' [_ Hpeaks]]].
      injection Hsp' as <-. exfalso.
      destruct Hpeaks as [-> | Hpeaks]; [cbn in Hall; discriminate Hall |].
      unfold clamped_indices in Hall.
      rewrite clamped_indices_in_range in Hall; [discriminate Hall |].
      rewrite length_map. destruct (peaks sp); [congruence | cbn [length]; lia].
Qed.

Lemma chromatogram_invalid_accumulator_witness :
  chromatogram [two_peaks] [150] (5 # 1000) None None "foo"
    = Raise invalid_accumulator /\
  chromatogram [mkSpectrum 0 []] [150] (5 # 1000) None None "foo"
    <> Raise invalid_accumulator.
Proof.
  split.
  - refine (proj2 (proj1 (proj2 (proj2 (chromatogram_invalid_accumulator
              [two_peaks] [150] (5 # 1000) None None "foo" _ _)) _)) _).
    + discriminate.
    + discriminate.
    + reflexivity.
    + exists two_peaks. split; [reflexivity |].
      split; [unfold getNrSpectra; cbn; lia |]. right. discriminate.
  - intros H.
    refine (_ (proj1 (proj1 (proj2 (proj2 (chromatogram_invalid_accumulator
              [mkSpectrum 0 []] [150] (5 # 1000) None None "foo" _ _)) _)) H)).
    + intros [sp [Hsp [_ [Hmz | Hpeaks]]]].
      * discriminate Hmz.
      * injection Hsp as <-. apply Hpeaks. reflexivity.
    + discriminate.
    + discriminate.
    + reflexivity.
Defined.

(** ** Spectral accumulator: where the subtract error can come from *)

Lemma take_idx_error {A} (a : list A) idx e : take_idx a idx = Raise e -> e = IndexError.
Proof.
  induction idx as [| i idx IH]; cbn [take_idx]; intros H; [discriminate H |].
  bind_inv H; [| injection H as <-; eapply getitem_error; eassumption].
  bind_inv H; [discriminate H |].
  injection H as <-. apply IH. reflexivity.
Qed.

Lemma put_idx_error {A} idx : forall (a vals : list A) e,
  put_idx a idx vals = Raise e -> e = IndexError.
Proof.
  induction idx as [| i idx IH]; intros a vals e H; cbn [put_idx] in H.
  - discriminate H.
  - destruct vals as [| v vals]; [discriminate H |].
    destruct (Nat.ltb i (length a)); [eapply IH; eassumption | congruence].
Qed.

Lemma take_mask_error {A} mask (a : list A) e : take_mask mask a = Raise e -> e = IndexError.
Proof. unfold take_mask. destruct (Nat.eqb _ _); congruence. Qed.

Lemma roi_loop_error msexp mz_ref ks : forall roi e,
  roi_loop msexp mz_ref ks roi = Raise e -> e = IndexError.
Proof.
  induction ks as [| k ks IH]; intros roi e H; cbn [roi_loop] in H.
  - discriminate H.
  - bind_inv H; [| injection H as <-; eapply getSpectrum_error; eassumption].
    bind_inv H; [eapply IH; eassumption |].
    injection H as <-. unfold increment_at in E0.
    bind_inv E0; [| injection E0 as <-; eapply take_idx_error; eassumption].
    eapply put_idx_error; eassumption.
Qed.

Lemma _get_mz_roi_not_subtract_error msexp scans :
  _get_mz_roi msexp scans <> Raise subtract_outside.
Proof.
  unfold _get_mz_roi, subtract_outside. intros H.
  bind_inv H; [| injection H as ->; apply getSpectrum_error in E; discriminate E].
  bind_inv H; [| unfold amin in E0; destruct (fst (get_peaks a)); congruence].
  bind_inv H; [| unfold amax in E1; destruct (fst (get_peaks a)); congruence].
  bind_inv H; [| unfold amin in E2; destruct (diff (fst (get_peaks a))); congruence].
  bind_inv H; [| unfold arange in E3; destruct (Qeq_bool a2 0); congruence].
  bind_inv H; [| injection H as ->; apply roi_loop_error in E4; discriminate E4].
  apply take_mask_error in H. discriminate H.
Qed.

Lemma interpolate_rows_not_subtract_error interp msexp kind mz_ref scans :
  interpolate_rows interp msexp kind mz_ref scans <> Raise subtract_outside.
Proof.
  unfold subtract_outside.
  induction scans as [| scan scans IH]; cbn [interpolate_rows]; intros H.
  - discriminate H.
  - bind_inv H; [| injection H as ->; apply getSpectrum_error in E; discriminate E].
    unfold get_peaks in H.
    bind_inv H.
    + bind_inv H; [discriminate H |]. injection H as ->. apply IH. reflexivity.
    + injection H as ->.
      destruct (interp _ _ _ _) as [r |]; [| discriminate E0].
      destruct (Nat.eqb (length r) (length mz_ref)); discriminate E0.
Qed.

(** C6: with a recognised accumulator and a [subtract] pair, the call fails
    with the error of the region check if and only if [subtract[0] > start] or
    [subtract[1] < end]. *)
Theorem accumulate_spectra_subtract_region
    interp msexp (start end_ s0 s1 : Z) kind acc :
  acc = "sum" \/ acc = "mean" ->
  accumulate_spectra interp msexp start end_ (Some (s0, s1)) kind acc
    = Raise subtract_outside
  <-> (s0 > start \/ s1 < end_)%Z.
Proof.
  intros Hacc. unfold accumulate_spectra.
  assert (Hfn : exists f, accumulator_functions acc = Ok f).
  { destruct Hacc as [-> | ->]; eexists; reflexivity. }
  destruct Hfn as [f ->]. cbn [bind].
  destruct ((s0 >? start) || (s1 <? end_))%Z eqn:Hcheck.
  - cbn [bind]. split; [intros _ | reflexivity].
    apply orb_true_iff in Hcheck as [H | H]; [left | right]; lia.
  - cbn [bind fst snd]. apply orb_false_iff in Hcheck as [H0 H1].
    split; [| lia].
    intros H. exfalso.
    bind_inv H; [| injection H as ->; eapply _get_mz_roi_not_subtract_error; eassumption].
    destruct (s1 - s0 <? 0)%Z; [discriminate H |].
    bind_inv H; [discriminate H |].
    injection H as ->. eapply interpolate_rows_not_subtract_error; eassumption.
Qed.

Lemma accumulate_spectra_subtract_region_witness :
  accumulate_spectra linear_interp1d [ramp; ramp] 15 25 (Some (16, 30)%Z) "linear" "sum"
    = Raise subtract_outside /\
  accumulate_spectra linear_interp1d [ramp; ramp] 15 25 (Some (10, 30)%Z) "linear" "sum"
    <> Raise subtract_outside.
Proof.
  split.
  - apply (accumulate_spectra_subtract_region linear_interp1d [ramp; ramp]
             15 25 16 30 "linear" "sum"); [left; reflexivity | lia].
  - intros H.
    apply (accumulate_spectra_subtract_region linear_interp1d [ramp; ramp]
             15 25 10 30 "linear" "sum") in H; [lia | left; reflexivity].
Defined.

(** ** Index arrays: reading and writing *)

Lemma take_idx_spec {A} (a : list A) idx xs :
  take_idx a idx = Ok xs -> Forall2 (fun i x => a !! i = Some x) idx xs.
Proof.
  revert xs. induction idx as [| i idx IH]; cbn [take_idx]; intros xs H.
  - injection H as <-. constructor.
  - bind_inv H. bind_inv H. injection H as <-.
    constructor; [| apply IH; reflexivity].
    unfold getitem in E. destruct (a !! i); congruence.
Qed.

Lemma put_idx_length {A} idx : forall (a vals a' : list A),
  put_idx a idx vals = Ok a' -> length a' = length a.
Proof.
  induction idx as [| i idx IH]; intros a vals a' H; cbn [put_idx] in H.
  - injection H as <-. reflexivity.
  - destruct vals as [| v vals]; [injection H as <-; reflexivity |].
    destruct (Nat.ltb i (length a)); [| discriminate H].
    apply IH in H. rewrite H. apply length_insert.
Qed.

(** Writing [g (old value)] at every index of [idx], the old values being
    those of [a0]: an entry is rewritten exactly when its index occurs. *)
Lemma put_idx_map_lookup {A} (g : A -> A) (a0 : list A) idx :
  forall (a olds a' : list A),
    Forall2 (fun i o => a0 !! i = Some o) idx olds ->
    put_idx a idx (map g olds) = Ok a' ->
    forall i, a' !! i = if decide (i ∈ idx) then g <$> a0 !! i else a !! i.
Proof.
  induction idx as [| i0 idx IH]; intros a olds a' Hold H i.
  - cbn [put_idx] in H. injection H as <-.
    destruct (decide (i ∈ [])) as [Hin | _]; [| reflexivity].
    apply elem_of_nil in Hin. destruct Hin.
  - inversion Hold as [| ? o ? olds' Ho Holds]; subst.
    cbn [map put_idx] in H.
    destruct (Nat.ltb i0 (length a)) eqn:Hlt; [| discriminate H].
    apply Nat.ltb_lt in Hlt.
    rewrite (IH _ _ _ Holds H i).
    destruct (decide (i ∈ idx)) as [Hin | Hnin].
    + rewrite decide_True by (apply elem_of_cons; right; exact Hin). reflexivity.
    + destruct (decide (i = i0)) as [-> | Hne].
      * rewrite decide_True by (apply elem_of_cons; left; reflexivity).
        rewrite list_lookup_insert_eq by exact Hlt. rewrite Ho. reflexivity.
      * rewrite decide_False.
        -- apply list_lookup_insert_ne. congruence.
        -- intros Hc. apply elem_of_cons in Hc as [Hc | Hc]; [congruence | contradiction].
Qed.

Lemma increment_at_lookup roi roi_index roi' :
  increment_at roi roi_index = Ok roi' ->
  length roi' = length roi /\
  forall i, roi' !! i =
            if decide (i ∈ roi_index) then (fun v => v + 1) <$> roi !! i else roi !! i.
Proof.
  unfold increment_at. intros H. bind_inv H. split.
  - eapply put_idx_length; eassumption.
  - eapply put_idx_map_lookup; [apply take_idx_spec |]; eassumption.
Qed.

Lemma in_range k lo hi : In k (range lo hi) <-> (lo <= k < hi)%Z.
Proof.
  unfold range. rewrite in_map_iff. split.
  - intros [n [<- Hn]]. apply in_seq in Hn. lia.
  - intros H. exists (Z.to_nat (k - lo)). split; [lia | apply in_seq; lia].
Qed.

(** ** The grid of the accumulator *)

Lemma roi_loop_counts msexp mz_ref ks : forall roi roi',
  roi_loop msexp mz_ref ks roi = Ok roi' ->
  Forall (fun v => 0 <= v) roi ->
  length roi' = length roi /\
  Forall (fun v => 0 <= v) roi' /\
  forall i v', roi' !! i = Some v' ->
    exists v, roi !! i = Some v /\
      (~ v' == 0 <-> ~ v == 0 \/ exists k, In k ks /\ lands_in msexp mz_ref k i).
Proof.
  induction ks as [| k ks IH]; intros roi roi' H Hpos; cbn [roi_loop] in H.
  - injection H as <-. split; [reflexivity |]. split; [assumption |].
    intros i v' Hi. exists v'. split; [assumption |].
    split; [intros Hv; left; exact Hv |].
    intros [Hv | [k [[] _]]]. exact Hv.
  - bind_inv H. bind_inv H.
    apply increment_at_lookup in E0 as [Hlen Hlook].
    assert (Hpos0 : Forall (fun v => 0 <= v) a0).
    { apply Forall_lookup. intros i v Hi. rewrite Hlook in Hi.
      destruct (decide (i ∈ _)).
      - destruct (roi !! i) as [w |] eqn:Hw; [| discriminate Hi].
        injection Hi as <-.
        pose proof (proj1 (Forall_lookup _ _) Hpos i w Hw) as Hw0. cbv beta in Hw0.
        lra.
      - exact (proj1 (Forall_lookup _ _) Hpos i v Hi). }
    destruct (IH _ _ H Hpos0) as [Hlen' [Hpos' Hchar]].
    split; [congruence |]. split; [assumption |].
    intros i v' Hi.
    destruct (Hchar i v' Hi) as [w [Hw Hiff]].
    rewrite Hlook in Hw.
    destruct (decide (i ∈ _)) as [Hin | Hnin].
    + destruct (roi !! i) as [v |] eqn:Hv; [| discriminate Hw].
      injection Hw as <-. exists v. split; [reflexivity |].
      pose proof (proj1 (Forall_lookup _ _) Hpos i v Hv) as Hv0. cbv beta in Hv0.
      assert (Hk : lands_in msexp mz_ref k i).
      { apply list_elem_of_In, in_map_iff in Hin as [m [Hm Hin]].
        exists a, m. auto. }
      split.
      * intros _. right. exists k. split; [left; reflexivity | exact Hk].
      * intros _. apply Hiff. left. intros Hc. lra.
    + exists w. split; [assumption |].
      rewrite Hiff. split.
      * intros [Hv | [k' [Hk' Hl]]]; [left; exact Hv |].
        right. exists k'. split; [right; exact Hk' | exact Hl].
      * intros [Hv | [k' [[<- | Hk'] Hl]]]; [left; exact Hv | | right; eauto].
        exfalso. apply Hnin. destruct Hl as [sp [m [Hsp [Hm Hs]]]].
        rewrite E in Hsp. injection Hsp as <-.
        apply list_elem_of_In, in_map_iff. exists m. auto.
Qed.

Lemma removelast_lookup {A} (l : list A) i :
  (S i < length l)%nat -> removelast l !! i = l !! i.
Proof.
  revert i. induction l as [| x l IH]; intros i Hi; [cbn in Hi; lia |].
  destruct l as [| y l]; [cbn in Hi; lia |].
  change (removelast (x :: y :: l)) with (x :: removelast (y :: l)).
  destruct i as [| i]; [reflexivity |].
  cbn [lookup list_lookup]. apply IH. cbn [length] in *. lia.
Qed.

(** C7, as stated, fails: for the region made of [ramp] (masses 100, 101,
    102) followed by [wide] (masses 99.7, 99.9, 150) the grid is 100, 101,
    built from the first scan alone, while the grid read from the union of
    the masses starts at 99.7 with step 0.2; listing the same two scans in
    the other order changes the grid. *)
Lemma get_mz_roi_not_from_union :
  _get_mz_roi [ramp; wide] (0, 2)%Z = Ok [100; 101] /\
  reduced (mz_roi_of_union [ramp; wide] (0, 2)%Z)
    = Ok [997 # 10; 999 # 10; 1001 # 10; 1011 # 10; 1021 # 10] /\
  reduced (_get_mz_roi [wide; ramp] (0, 2)%Z)
    = Ok [997 # 10; 999 # 10; 1001 # 10; 1011 # 10; 1021 # 10].
Proof. repeat split; vm_compute; reflexivity. Qed.

(** C7, amended: the bounds and the step of the grid are the minimum, the
    maximum and the smallest spacing of the masses of the first scan of the
    region, and a point of that grid is retained exactly when a mass of some
    scan of the region lands in its bin. *)
Theorem get_mz_roi_from_first_scan msexp (s e : Z) grid :
  _get_mz_roi msexp (s, e) = Ok grid ->
  exists sp0 mz_min mz_max mz_res mz_ref mask,
    getSpectrum msexp s = Ok sp0 /\
    amin (fst (get_peaks sp0)) = Ok mz_min /\
    amax (fst (get_peaks sp0)) = Ok mz_max /\
    amin (diff (fst (get_peaks sp0))) = Ok mz_res /\
    arange mz_min mz_max mz_res = Ok mz_ref /\
    length mask = length mz_ref /\
    grid = compress mask mz_ref /\
    forall i, (i < length mz_ref)%nat ->
      (mask !! i = Some true <->
       exists k, (s <= k < e)%Z /\ lands_in msexp mz_ref k i).
Proof.
  unfold _get_mz_roi. cbn [fst snd]. intros H.
  bind_inv H. bind_inv H. bind_inv H. bind_inv H. bind_inv H. bind_inv H.
  rename a into sp0, a0 into mz_min, a1 into mz_max, a2 into mz_res,
         a3 into mz_ref, a4 into roi.
  unfold take_mask in H.
  destruct (Nat.eqb _ _) eqn:Hlen; [| discriminate H].
  apply Nat.eqb_eq in Hlen. injection H as <-.
  exists sp0, mz_min, mz_max, mz_res, mz_ref.
  eexists. repeat (split; [first [eassumption | reflexivity] |]).
  intros i Hi.
  assert (Hzero : Forall (fun v => 0 <= v) (repeat 0 (length mz_ref + 1))).
  { apply Forall_forall. intros v Hv. apply list_elem_of_In, repeat_spec in Hv.
    subst v. apply Qle_refl. }
  destruct (roi_loop_counts _ _ _ _ _ E4 Hzero) as [Hroi [_ Hchar]].
  rewrite repeat_length in Hroi.
  rewrite removelast_lookup by (rewrite length_map; lia).
  rewrite list_lookup_fmap.
  destruct (roi !! i) as [v' |] eqn:Hv'.
  2:{ apply lookup_ge_None in Hv'. lia. }
  destruct (Hchar i v' Hv') as [v [Hv Hiff]].
  assert (v = 0) as ->.
  { apply list_elem_of_lookup_2, list_elem_of_In, repeat_spec in Hv. exact Hv. }
  cbn [fmap option_fmap option_map].
  split.
  - intros Hb. injection Hb as Hb. apply negb_true_iff in Hb.
    assert (Hne : ~ v' == 0).
    { intros Hc. apply Qeq_bool_iff in Hc. congruence. }
    apply Hiff in Hne as [Hc | [k [Hk Hl]]]; [exfalso; apply Hc; reflexivity |].
    exists k. split; [apply in_range; exact Hk | exact Hl].
  - intros [k [Hk Hl]].
    assert (Hne : ~ v' == 0).
    { apply Hiff. right. exists k. split; [apply in_range; exact Hk | exact Hl]. }
    f_equal. apply negb_true_iff. destruct (Qeq_bool v' 0) eqn:Hq; [| reflexivity].
    exfalso. apply Hne. apply Qeq_bool_iff. exact Hq.
Qed.

Lemma get_mz_roi_from_first_scan_witness :
  exists sp0 mz_min mz_max mz_res mz_ref mask,
    getSpectrum [ramp; wide] 0 = Ok sp0 /\
    amin (fst (get_peaks sp0)) = Ok mz_min /\
    amax (fst (get_peaks sp0)) = Ok mz_max /\
    amin (diff (fst (get_peaks sp0))) = Ok mz_res /\
    arange mz_min mz_max mz_res = Ok mz_ref /\
    length mask = length mz_ref /\
    [100; 101] = compress mask mz_ref /\
    forall i, (i < length mz_ref)%nat ->
      (mask !! i = Some true <->
       exists k, (0 <= k < 2)%Z /\ lands_in [ramp; wide] mz_ref k i).
Proof.
  apply (get_mz_roi_from_first_scan [ramp; wide] 0 2 [100; 101]).
  vm_compute. reflexivity.
Defined.

(** ** Trace tracker: completed rows *)

Lemma where_from_spec mask : forall k i,
  In i (where_from k mask) <->
  exists j, i = (k + j)%nat /\ mask !! j = Some true.
Proof.
  induction mask as [| b mask IH]; intros k i; cbn [where_from].
  - split; [intros [] | intros [j [_ Hj]]; discriminate Hj].
  - assert (Htail : In i (where_from (S k) mask) <->
                    exists j, i = (k + S j)%nat /\ mask !! j = Some true).
    { rewrite IH. split; intros [j [Hi Hj]]; exists j; split; (lia || assumption). }
    destruct b.
    + cbn [In]. rewrite Htail. split.
      * intros [<- | [j [Hi Hj]]]; [exists 0%nat; split; [lia | reflexivity] |].
        exists (S j). split; assumption.
      * intros [[| j] [Hi Hj]]; [left; lia | right; exists j; split; assumption].
    + rewrite Htail. split.
      * intros [j [Hi Hj]]. exists (S j). split; assumption.
      * intros [[| j] [Hi Hj]]; [discriminate Hj | exists j; split; assumption].
Qed.

Lemma put_mask_lookup {A} (a : list A) : forall mask v i x,
  a !! i = Some x ->
  put_mask a mask v !! i =
  Some (match mask !! i with Some true => v | _ => x end).
Proof.
  induction a as [| y a IH]; intros mask v i x Hi; [discriminate Hi |].
  destruct mask as [| b mask].
  - cbn [put_mask]. rewrite Hi. reflexivity.
  - cbn [put_mask]. destruct i as [| i].
    + cbn in Hi |- *. injection Hi as <-. destruct b; reflexivity.
    + cbn [lookup list_lookup] in Hi |- *. apply IH. exact Hi.
Qed.

Lemma row_chromatograms_length p rt rows : forall chroms,
  row_chromatograms p rt rows = Ok chroms -> length chroms = length rows.
Proof.
  induction rows as [| row rows IH]; cbn [row_chromatograms]; intros chroms H.
  - injection H as <-. reflexivity.
  - bind_inv H. bind_inv H. injection H as <-. cbn [length]. f_equal.
    apply IH. reflexivity.
Qed.

Lemma completed_index_spec p row :
  In row (completed_index p) <->
  exists m s,
    _missing p !! row = Some m /\ _start p !! row = Some s /\
    (max_missing p < m)%Z /\
    (min_length p <= Z.of_nat (_index p) - Z.of_nat s)%Z.
Proof.
  unfold completed_index, where_. rewrite where_from_spec.
  unfold is_completed, is_valid_roi. split.
  - intros [j [-> Hj]]. cbn [Nat.add].
    rewrite lookup_zip_with, !list_lookup_fmap in Hj.
    destruct (_missing p !! j) as [m |]; [| discriminate Hj].
    destruct (_start p !! j) as [s |]; [| discriminate Hj].
    cbn in Hj. injection Hj as Hj. apply andb_true_iff in Hj as [Hm Hs].
    exists m, s. repeat split; [apply Z.ltb_lt; exact Hm | apply Z.leb_le; exact Hs].
  - intros [m [s [Hm [Hs [Hlt Hle]]]]]. exists row. split; [reflexivity |].
    rewrite lookup_zip_with, !list_lookup_fmap, Hm, Hs. cbn.
    f_equal. apply andb_true_iff. split; [apply Z.ltb_lt | apply Z.leb_le]; assumption.
Qed.

(** C3, as stated, fails on its scenario: the trace completed after scan 6
    does not have length 5, whichever of its series or bounds is measured. *)
Lemma completed_trace_not_of_length_5 :
  ~ exists p c,
      after_scan_6 = Ok p /\ In c (roi p) /\
      (length (chrom_spint c) = 5 \/ length (chrom_mz c) = 5 \/
       length (chrom_rt c) = 5 \/ (chrom_end c - chrom_start c = 5))%nat.
Proof.
  intros [p [c [Hp [Hc Hlen]]]].
  vm_compute in Hp. injection Hp as <-.
  cbn [roi In] in Hc. destruct Hc as [<- | []].
  cbn in Hlen. lia.
Qed.

(** C3, amended: [append_to_roi] emits one chromatogram for exactly the rows
    whose miss counter exceeds [max_missing] and whose length, counted from
    the start offset to the current scan, is at least [min_length]; every row
    whose miss counter exceeds [max_missing] has its counter and start offset
    reset, emitted or not, and the other rows are left as they are.  In the
    scenario nothing is emitted after scan 5, the trace emitted after scan 6
    covers scans 0 to 6 (five matched values and two zeros, length 7), and
    the value matched at scan 7 opens the range that starts at offset 7. *)
Theorem append_to_roi_emits_completed_rows :
  (forall p rt p',
     append_to_roi p rt = Ok p' ->
     (exists chroms,
        row_chromatograms p rt (completed_index p) = Ok chroms /\
        roi p' = roi p ++ chroms /\
        length chroms = length (completed_index p)) /\
     (forall row,
        In row (completed_index p) <->
        exists m s,
          _missing p !! row = Some m /\ _start p !! row = Some s /\
          (max_missing p < m)%Z /\
          (min_length p <= Z.of_nat (_index p) - Z.of_nat s)%Z) /\
     (forall row m,
        _missing p !! row = Some m ->
        _missing p' !! row = Some (if (max_missing p <? m)%Z then 0%Z else m)) /\
     (forall row m s,
        _missing p !! row = Some m -> _start p !! row = Some s ->
        _start p' !! row = Some (if (max_missing p <? m)%Z then _index p else s))) /\
  (p <- after_scan_5 ;; Ok (roi p, _start p, _missing p))
    = Ok ([], [0%nat], [1%Z]) /\
  (p <- after_scan_6 ;; Ok (roi p, _start p, _missing p, _index p))
    = Ok ([trace_0_6], [7%nat], [0%Z], 7%nat) /\
  (p <- after_scan_7 ;; Ok (roi p, _start p, _missing p, _mz p))
    = Ok ([trace_0_6], [7%nat], [0%Z], [[100; 100; 100; 100; 100; 0; 0; 100]]).
Proof.
  split; [| repeat split; vm_compute; reflexivity].
  intros p rt p' H. unfold append_to_roi in H. bind_inv H. injection H as <-.
  cbn [roi _missing _start].
  split; [| split; [| split]].
  - exists a. split; [reflexivity |]. split; [reflexivity |].
    eapply row_chromatograms_length; eassumption.
  - apply completed_index_spec.
  - intros row m Hm. rewrite (put_mask_lookup _ _ _ _ _ Hm).
    unfold is_completed. rewrite list_lookup_fmap, Hm. cbn.
    destruct (max_missing p <? m)%Z; reflexivity.
  - intros row m s Hm Hs. rewrite (put_mask_lookup _ _ _ _ _ Hs).
    unfold is_completed. rewrite list_lookup_fmap, Hm. cbn.
    destruct (max_missing p <? m)%Z; reflexivity.
Qed.

Lemma append_to_roi_emits_completed_rows_witness :
  exists p',
    append_to_roi stalled rts = Ok p' /\
    roi p' = [trace_0_6] /\ _missing p' !! 0%nat = Some 0%Z /\
    _start p' !! 0%nat = Some 7%nat.
Proof.
  eexists. split; [vm_compute; reflexivity |].
  destruct (proj1 append_to_roi_emits_completed_rows stalled rts _ eq_refl)
    as [[chroms [Hrows [Hroi _]]] [_ [Hmiss Hstart]]].
  split; [| split].
  - vm_compute in Hrows. injection Hrows as <-. exact Hroi.
  - exact (Hmiss 0%nat 2%Z eq_refl).
  - exact (Hstart 0%nat 2%Z 0%nat eq_refl eq_refl).
Defined.

(** ** Mass matcher: shape of the result *)

Lemma insert_unique_in x l z : In z (insert_unique x l) <-> z = x \/ In z l.
Proof.
  induction l as [| y l IH]; cbn [insert_unique].
  - cbn. intuition.
  - destruct (Nat.ltb x y) eqn:Hlt; [cbn; intuition |].
    destruct (Nat.eqb x y) eqn:Heq.
    + apply Nat.eqb_eq in Heq. subst y. cbn. intuition.
    + cbn [In]. rewrite IH. intuition.
Qed.

Lemma insert_unique_sorted x l :
  StronglySorted Nat.lt l -> StronglySorted Nat.lt (insert_unique x l).
Proof.
  induction l as [| y l IH]; cbn [insert_unique]; intros Hs.
  - repeat constructor.
  - apply StronglySorted_inv in Hs as [Hs Hy].
    destruct (Nat.ltb x y) eqn:Hlt.
    + apply Nat.ltb_lt in Hlt. constructor.
      * constructor; assumption.
      * constructor; [exact Hlt |].
        eapply Forall_impl; [exact Hy |]. cbv beta. intros z Hz. unfold Nat.lt in *. lia.
    + destruct (Nat.eqb x y) eqn:Heq; [constructor; assumption |].
      apply Nat.ltb_ge in Hlt. apply Nat.eqb_neq in Heq.
      constructor; [apply IH; exact Hs |].
      apply Forall_forall. intros z Hz.
      apply list_elem_of_In, insert_unique_in in Hz as [-> | Hz]; [lia |].
      apply (proj1 (Forall_forall _ _) Hy). apply list_elem_of_In. exact Hz.
Qed.

Lemma sorted_NoDup l : StronglySorted Nat.lt l -> NoDup l.
Proof.
  induction 1 as [| y l Hs IH Hy]; constructor; [| exact IH].
  intros Hin. apply (proj1 (Forall_forall _ _) Hy) in Hin. lia.
Qed.

Lemma unique_NoDup a : NoDup (fold_right insert_unique [] a).
Proof.
  apply sorted_NoDup. induction a as [| x a IH]; cbn [fold_right].
  - constructor.
  - apply insert_unique_sorted. exact IH.
Qed.

Lemma take_idx_length {A} (a : list A) idx xs :
  take_idx a idx = Ok xs -> length xs = length idx.
Proof.
  intros H. apply take_idx_spec in H. symmetry. eapply Forall2_length. exact H.
Qed.

Lemma reduce_loop_length mz_reduce sp_reduce mz2 sp2 groups :
  forall mz_match sp_match mz_match' sp_match',
    reduce_loop mz_reduce sp_reduce mz2 sp2 groups mz_match sp_match
      = Ok (mz_match', sp_match') ->
    length mz_match' = length mz_match.
Proof.
  induction groups as [| [index count] groups IH];
    intros mz_match sp_match mz_match' sp_match' H; cbn [reduce_loop] in H.
  - injection H as <- _. reflexivity.
  - bind_inv H. bind_inv H. bind_inv H. bind_inv H.
    apply IH in H. rewrite H. eapply setitem_length. eassumption.
Qed.

(** The slots returned by the matcher are distinct, and one mass is returned
    for each of them. *)
Lemma _match_mz_shape fc mz1 mz2 sp2 tol mode mz_reduce sp_reduce
    match_index mz_match sp_match mz_no_match sp_no_match :
  _match_mz fc mz1 mz2 sp2 tol mode mz_reduce sp_reduce
    = Ok (match_index, mz_match, sp_match, mz_no_match, sp_no_match) ->
  NoDup match_index /\ length mz_match = length match_index.
Proof.
  unfold _match_mz, unique. intros H.
  bind_inv H. bind_inv H. bind_inv H. bind_inv H. bind_inv H.
  apply take_idx_length in E3 as Hlen. rewrite length_map in Hlen.
  bind_inv_as H [[no_match_mask' mz_match'] sp_match'].
  bind_inv H. bind_inv H. injection H as <- <- _ _ _.
  split; [apply unique_NoDup |].
  transitivity (length a3); [| exact Hlen].
  match type of E4 with (if ?c then _ else _) = _ => destruct c end.
  - destruct (String.eqb mode "closest").
    + bind_inv_as E4 [[rm_index mz_replace] spint_replace].
      bind_inv E4. bind_inv E4. bind_inv E4. injection E4 as _ <- _.
      eapply put_idx_length. eassumption.
    + destruct (String.eqb mode "reduce"); [| discriminate E4].
      bind_inv_as E4 [mz_match'' sp_match''].
      injection E4 as _ <- _. cbn [fst].
      eapply reduce_loop_length. eassumption.
  - injection E4 as _ <- _. reflexivity.
Qed.

(** ** Trace tracker: the running mean *)

(** Writing at distinct indices: an entry holds the value paired with its
    index when there is one, and its old value otherwise. *)
Lemma put_idx_lookup {A} idx : forall (a vals a' : list A),
  put_idx a idx vals = Ok a' -> NoDup idx ->
  forall i, a' !! i = match assoc i (zip idx vals) with
                      | Some v => Some v
                      | None => a !! i
                      end.
Proof.
  induction idx as [| i0 idx IH]; intros a vals a' H Hnd i; cbn [put_idx] in H.
  - injection H as <-. reflexivity.
  - destruct vals as [| v vals]; [injection H as <-; reflexivity |].
    destruct (Nat.ltb i0 (length a)) eqn:Hlt; [| discriminate H].
    apply Nat.ltb_lt in Hlt. apply NoDup_cons in Hnd as [Hnin Hnd].
    rewrite (IH _ _ _ H Hnd i). cbn [zip zip_with assoc].
    destruct (Nat.eqb i0 i) eqn:Heq.
    + apply Nat.eqb_eq in Heq. subst i0.
      assert (Hnone : assoc i (zip idx vals) = None).
      { clear -Hnin. revert vals. induction idx as [| j idx IH]; intros vals; [reflexivity |].
        destruct vals as [| w vals]; [reflexivity |]. cbn [zip zip_with assoc].
        destruct (Nat.eqb j i) eqn:Hj.
        - apply Nat.eqb_eq in Hj. subst j. exfalso. apply Hnin. left.
        - apply IH. intros Hc. apply Hnin. right. exact Hc. }
      rewrite Hnone. apply list_lookup_insert_eq. exact Hlt.
    + apply Nat.eqb_neq in Heq.
      destruct (assoc i (zip idx vals)); [reflexivity |].
      apply list_lookup_insert_ne. exact Heq.
Qed.

(** The values written by [add] at the matched slots. *)
Lemma assoc_updates (mean counter : list Q) i m c :
  mean !! i = Some m -> counter !! i = Some c ->
  forall match_index means counters mz_match,
    Forall2 (fun j x => mean !! j = Some x) match_index means ->
    Forall2 (fun j x => counter !! j = Some x) match_index counters ->
    length mz_match = length match_index ->
    assoc i (zip match_index (updated_means means counters mz_match))
      = updated_mean m c <$> assoc i (zip match_index mz_match) /\
    assoc i (zip match_index (map (fun c => c + 1) counters))
      = (fun _ => c + 1) <$> assoc i (zip match_index mz_match).
Proof.
  intros Hm Hc. induction match_index as [| j match_index IH];
    intros means counters mz_match Hmeans Hcounters Hlen.
  - split; reflexivity.
  - inversion Hmeans as [| ? mj ? means' Hmj Hmeans']; subst.
    inversion Hcounters as [| ? cj ? counters' Hcj Hcounters']; subst.
    destruct mz_match as [| x mz_match]; [discriminate Hlen |].
    cbn [length] in Hlen. injection Hlen as Hlen.
    cbn [updated_means map zip zip_with assoc].
    destruct (Nat.eqb j i) eqn:Heq.
    + apply Nat.eqb_eq in Heq. subst j.
      rewrite Hm in Hmj. rewrite Hc in Hcj.
      injection Hmj as <-. injection Hcj as <-. split; reflexivity.
    + apply IH; assumption.
Qed.

(** One call of [add]: a matched slot gets the incremental average weighted
    by the counter it had before the call, and its counter grows by one; an
    unmatched slot keeps both. *)
Lemma add_updates_mean fc p mz sp p' unmatched i m c :
  add fc p mz sp = Ok (p', unmatched) ->
  _mz_mean p !! i = Some m -> _counter p !! i = Some c ->
  match slot_match fc p mz sp i with
  | Some x =>
      _mz_mean p' !! i = Some (updated_mean m c x) /\
      _counter p' !! i = Some (c + 1)
  | None =>
      _mz_mean p' !! i = Some m /\ _counter p' !! i = Some c
  end.
Proof.
  unfold add, slot_match. intros H Hm Hc.
  bind_inv_as H [[[[match_index mz_match] sp_match] mz_no_match] sp_no_match].
  apply _match_mz_shape in E as [Hnd Hlen].
  bind_inv H. bind_inv H. bind_inv_as H means. bind_inv_as H counters.
  bind_inv_as H counter'. bind_inv_as H mz_mean'. bind_inv H.
  injection H as <- _. cbn [_mz_mean _counter].
  apply take_idx_spec in E1, E2.
  destruct (assoc_updates _ _ i m c Hm Hc _ _ _ _ E1 E2 Hlen) as [Hmean Hcounter].
  rewrite (put_idx_lookup _ _ _ _ E4 Hnd i), (put_idx_lookup _ _ _ _ E3 Hnd i).
  rewrite Hmean, Hcounter.
  destruct (assoc i (zip match_index mz_match)); cbn; auto.
Qed.

Lemma append_to_roi_keeps_mean p rt p' :
  append_to_roi p rt = Ok p' ->
  _mz_mean p' = _mz_mean p /\ _counter p' = _counter p.
Proof.
  unfold append_to_roi. intros H. bind_inv H. injection H as <-. split; reflexivity.
Qed.

Lemma repeat_lookup_lt {A} (x : A) n i : (i < n)%nat -> repeat x n !! i = Some x.
Proof.
  revert i. induction n as [| n IH]; intros i Hi; [lia |].
  destruct i as [| i]; [reflexivity |]. cbn. apply IH. lia.
Qed.

Lemma inject_nat_succ n :
  inject_Z (Z.of_nat (S n)) == inject_Z (Z.of_nat n) + 1.
Proof. rewrite Nat2Z.inj_succ. unfold Z.succ. rewrite inject_Z_plus. reflexivity. Qed.

Lemma inject_nat_nonneg n : 0 <= inject_Z (Z.of_nat n).
Proof. change 0 with (inject_Z 0). rewrite <- Zle_Qle. lia. Qed.

(** While a tracker is fed, the product of the running mean of a slot and its
    counter grows by the matched values, and the counter by their number. *)
Lemma feed_running_mean fc rt scans : forall p p' i m0 c0,
  feed fc p rt scans = Ok p' ->
  _mz_mean p !! i = Some m0 -> _counter p !! i = Some c0 -> 0 < c0 ->
  exists m' c',
    _mz_mean p' !! i = Some m' /\ _counter p' !! i = Some c' /\
    c' == c0 + inject_Z (Z.of_nat (length (slot_matches fc p rt scans i))) /\
    m' * c' == m0 * c0 + Qsum (slot_matches fc p rt scans i).
Proof.
  induction scans as [| [mz sp] scans IH]; intros p p' i m0 c0 H Hm Hc Hpos.
  - cbn [feed] in H. injection H as <-. exists m0, c0.
    cbn [slot_matches length Qsum fold_right].
    repeat split; try assumption; cbn; ring.
  - cbn [feed] in H. cbn [slot_matches].
    bind_inv_as H [p1 unmatched]. cbn [bind fst] in H |- *.
    bind_inv_as H p2.
    pose proof (add_updates_mean _ _ _ _ _ _ _ _ _ E Hm Hc) as Hstep.
    apply append_to_roi_keeps_mean in E0 as [Hmean2 Hcounter2].
    rewrite <- Hmean2, <- Hcounter2 in Hstep.
    destruct (slot_match fc p mz sp i) as [x |].
    + destruct Hstep as [Hm1 Hc1].
      assert (Hpos1 : 0 < c0 + 1) by lra.
      destruct (IH _ _ _ _ _ H Hm1 Hc1 Hpos1) as [m' [c' [Hm' [Hc' [Hcount Hprod]]]]].
      exists m', c'. split; [assumption |]. split; [assumption |].
      cbn [length Qsum fold_right]. fold (Qsum (slot_matches fc p2 rt scans i)).
      split.
      * rewrite Hcount, inject_nat_succ. ring.
      * rewrite Hprod. unfold updated_mean. field. lra.
    + destruct Hstep as [Hm1 Hc1].
      destruct (IH _ _ _ _ _ H Hm1 Hc1 Hpos) as [m' [c' [Hm' [Hc' [Hcount Hprod]]]]].
      exists m', c'. repeat split; assumption.
Qed.

(** C9: a match of value [x] on a slot with running mean [m] and counter [n]
    sets the mean to [(m * n + x) / (n + 1)], [n] being the counter before the
    call, and the counter to [n + 1]; hence a slot seeded with [s] that has
    matched the values [x1 .. xk] has the running mean
    [(s + x1 + ... + xk) / (k + 1)]. *)
Theorem running_mean_is_incremental_average (fc : list Q -> Q -> nat) :
  (forall p mz sp p' unmatched i m n x,
     add fc p mz sp = Ok (p', unmatched) ->
     _mz_mean p !! i = Some m -> _counter p !! i = Some n ->
     slot_match fc p mz sp i = Some x ->
     _mz_mean p' !! i = Some ((m * n + x) / (n + 1)) /\
     _counter p' !! i = Some (n + 1)) /\
  (forall mz_seed size max_missing min_length tol mode first_scan
          mz_reduce sp_reduce p0 rt scans p i s,
     RoiProcessor_init mz_seed size max_missing min_length tol mode first_scan
       mz_reduce sp_reduce = Ok p0 ->
     feed fc p0 rt scans = Ok p ->
     mz_seed !! i = Some s ->
     exists m,
       _mz_mean p !! i = Some m /\
       m == (s + Qsum (slot_matches fc p0 rt scans i))
            / (inject_Z (Z.of_nat (length (slot_matches fc p0 rt scans i))) + 1)).
Proof.
  split.
  - intros p mz sp p' unmatched i m n x Hadd Hm Hn Hx.
    pose proof (add_updates_mean _ _ _ _ _ _ _ _ _ Hadd Hm Hn) as Hstep.
    rewrite Hx in Hstep. exact Hstep.
  - intros mz_seed size max_missing min_length tol mode first_scan
           mz_reduce sp_reduce p0 rt scans p i s Hinit Hfeed Hs.
    unfold RoiProcessor_init in Hinit.
    destruct (negb _); [discriminate Hinit |]. injection Hinit as <-.
    assert (Hc : repeat 1 (length mz_seed) !! i = Some 1).
    { apply repeat_lookup_lt. eapply lookup_lt_Some. exact Hs. }
    destruct (feed_running_mean fc rt scans _ _ i s 1 Hfeed Hs Hc)
      as [m [c [Hm [_ [Hcount Hprod]]]]]; [reflexivity |].
    exists m. split; [exact Hm |].
    set (xs := slot_matches fc _ rt scans i) in *.
    pose proof (inject_nat_nonneg (length xs)) as Hk.
    rewrite Hcount in Hprod.
    transitivity (m * (1 + inject_Z (Z.of_nat (length xs)))
                  / (inject_Z (Z.of_nat (length xs)) + 1)).
    + field. lra.
    + rewrite Hprod. field. lra.
Qed.

Lemma running_mean_is_incremental_average_witness :
  exists p m,
    feed find_closest seeded_tracker rts drift_scans = Ok p /\
    _mz_mean p !! 0%nat = Some m /\
    m == (100 + ((1000020 # 10000) + (1000040 # 10000))) / 3.
Proof.
  assert (Hinit : RoiProcessor_init [100] 8 1 5 tol_match "closest" 0
                    (Named "mean") (Named "sum") = Ok seeded_tracker)
    by reflexivity.
  assert (Hxs : slot_matches find_closest seeded_tracker rts drift_scans 0
                = [1000020 # 10000; 1000040 # 10000])
    by (vm_compute; reflexivity).
  destruct (feed find_closest seeded_tracker rts drift_scans) as [p |] eqn:Hfeed;
    [| vm_compute in Hfeed; discriminate Hfeed].
  destruct (proj2 (running_mean_is_incremental_average find_closest)
              [100] 8%nat 1%Z 5%Z tol_match "closest" 0%nat
              (Named "mean") (Named "sum") seeded_tracker rts drift_scans p
              0%nat 100 Hinit Hfeed eq_refl) as [m [Hm Heq]].
  exists p, m. split; [reflexivity |]. split; [exact Hm |].
  rewrite Hxs in Heq. rewrite Heq. cbn [length Qsum fold_right]. field.
Defined.

(** ** Spectral accumulator without a subtract region *)

Lemma pyslice_empty {A} (k : Z) (a : list A) : pyslice k k a = [].
Proof. unfold pyslice, slice. rewrite Nat.sub_diag. reflexivity. Qed.

Lemma interpolate_rows_width interp msexp kind mz_ref scans : forall rows,
  interpolate_rows interp msexp kind mz_ref scans = Ok rows ->
  Forall (fun row => length row = length mz_ref) rows.
Proof.
  induction scans as [| scan scans IH]; cbn [interpolate_rows]; intros rows H.
  - injection H as <-. constructor.
  - bind_inv H. unfold get_peaks in H. bind_inv_as H row. bind_inv_as H rows'.
    injection H as <-. constructor; [| apply IH; reflexivity].
    destruct (interp _ _ _ _) as [r |]; [| discriminate E0].
    destruct (Nat.eqb (length r) (length mz_ref)) eqn:Hlen; [| discriminate E0].
    injection E0 as <-. apply Nat.eqb_eq. exact Hlen.
Qed.

Lemma column_sums_length rows n :
  Forall (fun row => length row = n) rows -> length (column_sums rows n) = n.
Proof.
  unfold column_sums. induction 1 as [| row rows Hrow _ IH]; cbn [fold_right].
  - apply repeat_length.
  - rewrite length_zip_with, Hrow, IH. apply Nat.min_id.
Qed.

Lemma np_mean_length rows n :
  Forall (fun row => length row = n) rows -> length (np_mean rows n) = n.
Proof.
  intros H. unfold np_mean. destruct rows; [apply repeat_length |].
  rewrite length_map. apply column_sums_length. exact H.
Qed.

Lemma np_sub_nan_r (a : list npfloat) :
  zip_with np_sub a (repeat NaN (length a)) = repeat NaN (length a).
Proof.
  induction a as [| x a IH]; [reflexivity |]. cbn. rewrite IH.
  destruct x; reflexivity.
Qed.

Lemma np_sub_nan_l n : zip_with np_sub (repeat NaN n) (repeat NaN n) = repeat NaN n.
Proof. induction n as [| n IH]; [reflexivity |]. cbn. rewrite IH. reflexivity. Qed.

Lemma Forall_pyslice {A} (P : A -> Prop) lo hi (a : list A) :
  Forall P a -> Forall P (pyslice lo hi a).
Proof. intros H. unfold pyslice, slice. apply Forall_take, Forall_drop. exact H. Qed.

(** Whenever mode mean returns without [subtract], every entry of the
    accumulated intensity is NaN, for every interpolator and experiment. *)
Lemma accumulate_spectra_mean_all_nan interp msexp start end_ kind accum_mz accum_int :
  accumulate_spectra interp msexp start end_ None kind "mean"
    = Ok (accum_mz, accum_int) ->
  accum_int = repeat NaN (length accum_mz).
Proof.
  unfold accumulate_spectra.
  change (accumulator_functions "mean") with (Ok np_mean). cbn [bind fst snd].
  intros H. bind_inv_as H mz_ref.
  destruct (end_ - start <? 0)%Z; [discriminate H |].
  bind_inv_as H interp_int. injection H as <- <-.
  rewrite Z.sub_diag, !pyslice_empty.
  apply interpolate_rows_width in E0.
  cbn [np_mean].
  rewrite <- (np_mean_length (pyslice 0 (end_ - start) interp_int) (length mz_ref))
    at 2 3 4 by (apply Forall_pyslice; exact E0).
  rewrite np_sub_nan_r. apply np_sub_nan_l.
Qed.

(** * Further properties *)

(** ** Isotopic envelope search: what a candidate set contains *)

Lemma where_from_length mask : forall k, (length (where_from k mask) <= length mask)%nat.
Proof.
  induction mask as [| b mask IH]; intros k; cbn [where_from length]; [lia |].
  destruct b; cbn [length]; specialize (IH (S k)); lia.
Qed.

Lemma take_idx_in {A} (a : list A) idx xs x :
  take_idx a idx = Ok xs -> In x xs -> exists i, In i idx /\ a !! i = Some x.
Proof.
  intros H. apply take_idx_spec in H.
  induction H as [| i y idx xs Hy _ IH]; intros Hin; [destruct Hin |].
  destruct Hin as [<- | Hin].
  - exists i. split; [left; reflexivity | exact Hy].
  - destruct (IH Hin) as [j [Hj Hx]]. exists j. split; [right; exact Hj | exact Hx].
Qed.

(** X1: every index returned for one charge state points into the spectrum,
    at a mass within the tolerance of one of the [n_isotopes] predicted
    masses, and at most [n_isotopes] indices are returned; a set that is not
    empty means that the monoisotopic mass was found within the tolerance. *)
Theorem find_isotopic_distribution_aux_sound fc mz mz_ft q n_isotopes tol r :
  find_isotopic_distribution_aux fc mz mz_ft q n_isotopes tol = Ok r ->
  (length r <= n_isotopes)%nat /\
  exists mz_mono,
    mz !! fc mz mz_ft = Some mz_mono /\
    (r <> [] -> Qabs (mz_mono - mz_ft) <= tol) /\
    forall i, In i r ->
      exists m k,
        mz !! i = Some m /\ (k < n_isotopes)%nat /\
        Qabs (m - (mz_mono + inject_Z (Z.of_nat k) * dm / inject_Z (Z.of_nat q)))
        <= tol.
Proof.
  unfold find_isotopic_distribution_aux. intros H.
  bind_inv_as H mz_mono.
  assert (Hmono : mz !! fc mz mz_ft = Some mz_mono).
  { unfold getitem in E. destruct (mz !! fc mz mz_ft); congruence. }
  destruct (Qltb tol (Qabs (mz_mono - mz_ft))) eqn:Htol.
  { injection H as <-. split; [cbn; lia |]. exists mz_mono.
    split; [exact Hmono |]. split; [congruence | intros i []]. }
  bind_inv_as H near.
  set (mz_theoretic :=
         map (fun k => mz_mono + inject_Z (Z.of_nat k) * dm / inject_Z (Z.of_nat q))
             (seq 0 n_isotopes)) in *.
  set (mask := zip_with (fun a b => Qle_bool (Qabs (a - b)) tol) near mz_theoretic) in *.
  split.
  - apply take_idx_length in H. rewrite H. unfold where_.
    etransitivity; [apply where_from_length |].
    unfold mask. rewrite length_zip_with. unfold mz_theoretic.
    rewrite length_map, length_seq. lia.
  - exists mz_mono. split; [exact Hmono |]. split.
    + intros _. unfold Qltb in Htol. apply negb_false_iff, Qle_bool_iff in Htol.
      exact Htol.
    + intros i Hi.
      destruct (take_idx_in _ _ _ _ H Hi) as [p [Hp Hci]].
      unfold where_ in Hp. apply where_from_spec in Hp as [j [-> Hj]].
      cbn [Nat.add] in Hci. unfold mask in Hj.
      rewrite lookup_zip_with in Hj.
      destruct (near !! j) as [a |] eqn:Ha; [| discriminate Hj].
      destruct (mz_theoretic !! j) as [b |] eqn:Hb; [| discriminate Hj].
      cbn in Hj. injection Hj as Hj. apply Qle_bool_iff in Hj.
      apply take_idx_spec in E0.
      destruct (Forall2_lookup_r _ _ _ _ _ E0 Ha) as [c [Hc Hmz]].
      rewrite Hci in Hc. injection Hc as <-.
      unfold mz_theoretic in Hb. rewrite list_lookup_fmap in Hb.
      destruct (seq 0 n_isotopes !! j) as [k |] eqn:Hk; [| discriminate Hb].
      cbn in Hb. injection Hb as <-.
      apply lookup_seq in Hk as [-> Hlt].
      exists a, j. split; [exact Hmz |]. split; [exact Hlt | exact Hj].
Qed.

Lemma find_isotopic_distribution_aux_sound_witness :
  exists m k,
    spectrum_q1 !! 2%nat = Some m /\ (k < 3)%nat /\
    Qabs (m - (500 + inject_Z (Z.of_nat k) * dm / inject_Z (Z.of_nat 1)))
    <= tol_iso.
Proof.
  destruct (find_isotopic_distribution_aux_sound find_closest spectrum_q1 500 1 3
              tol_iso [0; 1; 2]%nat) as [_ [mz_mono [Hmono [_ Hall]]]].
  - vm_compute. reflexivity.
  - vm_compute in Hmono. injection Hmono as <-.
    apply (Hall 2%nat). right. right. left. reflexivity.
Defined.

(** X2: the search over the charges returns either the candidate set of one
    of the charges 1 .. q_max, or the empty set, and the empty set only when
    no charge has a candidate. *)
Theorem find_isotopic_distribution_from_one_charge fc mz mz_mono q_max n_isotopes tol r :
  find_isotopic_distribution fc mz mz_mono q_max n_isotopes tol = Ok r ->
  (r = [] /\
   forall q, (1 <= q <= q_max)%nat ->
     find_isotopic_distribution_aux fc mz mz_mono q n_isotopes tol = Ok []) \/
  (r <> [] /\
   exists q, (1 <= q <= q_max)%nat /\
     find_isotopic_distribution_aux fc mz mz_mono q n_isotopes tol = Ok r).
Proof.
  revert r. induction q_max as [| q_max IH]; intros r H.
  - cbn in H. injection H as <-. left. split; [reflexivity | intros q Hq; lia].
  - rewrite find_isotopic_distribution_last_charge in H.
    bind_inv_as H b. bind_inv_as H tmp. injection H as <-.
    destruct tmp as [| t tmp]; cbn [length Nat.ltb Nat.leb].
    + destruct (IH b eq_refl) as [[-> Hall] | [Hne [q [Hq Haux]]]].
      * left. split; [reflexivity |]. intros q Hq.
        destruct (decide (q = S q_max)) as [-> | Hneq]; [exact E0 |].
        apply Hall. lia.
      * right. split; [exact Hne |]. exists q. split; [lia | exact Haux].
    + right. split; [discriminate |]. exists (S q_max). split; [lia | exact E0].
Qed.

Lemma find_isotopic_distribution_from_one_charge_witness :
  exists q, (1 <= q <= 2)%nat /\
    find_isotopic_distribution_aux find_closest spectrum_q1 500 q 3 tol_iso
      = Ok [0; 1]%nat.
Proof.
  destruct (find_isotopic_distribution_from_one_charge find_closest spectrum_q1
              500 2 3 tol_iso [0; 1]%nat) as [[Hnil _] | [_ Hq]].
  - vm_compute. reflexivity.
  - discriminate Hnil.
  - exact Hq.
Defined.

(** ** The modelled search is a nearest-element search *)

Lemma Qltb_lt x y : Qltb x y = true <-> x < y.
Proof.
  unfold Qltb. rewrite negb_true_iff. split.
  - intros H. apply Qnot_le_lt. intros Hle. apply Qle_bool_iff in Hle. congruence.
  - intros H. destruct (Qle_bool y x) eqn:Hle; [| reflexivity].
    apply Qle_bool_iff in Hle. lra.
Qed.

Lemma Qltb_ge x y : Qltb x y = false <-> y <= x.
Proof.
  unfold Qltb. rewrite negb_false_iff. apply Qle_bool_iff.
Qed.

(** [argmin_from] returns either the running best, which is then below every
    element left, or the position of an element below the running best and
    below every element left. *)
Lemma argmin_from_spec a : forall best besti k,
  (argmin_from best besti k a = besti /\ Forall (fun x => best <= x) a) \/
  (exists p v, argmin_from best besti k a = (k + p)%nat /\ a !! p = Some v /\
               v <= best /\ Forall (fun x => v <= x) a).
Proof.
  induction a as [| x a IH]; intros best besti k; cbn [argmin_from].
  - left. split; [reflexivity | constructor].
  - destruct (Qltb x best) eqn:Hlt.
    + apply Qltb_lt in Hlt. right.
      destruct (IH x k (S k)) as [[Hres Hall] | [p [v [Hres [Hp [Hv Hall]]]]]].
      * exists 0%nat, x. rewrite Hres. split; [lia |]. split; [reflexivity |].
        split; [lra |]. constructor; [lra | exact Hall].
      * exists (S p), v. rewrite Hres. split; [lia |]. split; [exact Hp |].
        split; [lra |]. constructor; [exact Hv | exact Hall].
    + apply Qltb_ge in Hlt.
      destruct (IH best besti (S k)) as [[Hres Hall] | [p [v [Hres [Hp [Hv Hall]]]]]].
      * left. split; [exact Hres |]. constructor; [exact Hlt | exact Hall].
      * right. exists (S p), v. rewrite Hres. split; [lia |]. split; [exact Hp |].
        split; [exact Hv |]. constructor; [lra | exact Hall].
Qed.

Lemma find_closest_nearest : nearest_search find_closest.
Proof.
  intros x xq Hne. unfold find_closest.
  destruct x as [| x0 x]; [congruence |]. cbn [map argmin].
  destruct (argmin_from_spec (map (fun v => Qabs (v - xq)) x) (Qabs (x0 - xq)) 0 1)
    as [[Hres Hall] | [p [v [Hres [Hp [Hv Hall]]]]]]; rewrite Hres.
  - exists x0. split; [reflexivity |].
    intros [| i] xi Hi; [cbn in Hi | change (x !! i = Some xi) in Hi].
    + injection Hi as <-. apply Qle_refl.
    + apply (proj1 (Forall_lookup _ _) Hall i (Qabs (xi - xq))).
      rewrite list_lookup_fmap, Hi. reflexivity.
  - rewrite list_lookup_fmap in Hp.
    destruct (x !! p) as [m |] eqn:Hm; [| discriminate Hp].
    cbn in Hp. injection Hp as <-.
    exists m. split; [exact Hm |].
    intros [| i] xi Hi; [cbn in Hi | change (x !! i = Some xi) in Hi].
    + injection Hi as <-. exact Hv.
    + apply (proj1 (Forall_lookup _ _) Hall i (Qabs (xi - xq))).
      rewrite list_lookup_fmap, Hi. reflexivity.
Qed.

(** X3: with a nearest-element search, a charge state whose monoisotopic mass
    is found within the tolerance always returns a candidate set that starts
    with an index of the monoisotopic mass, as soon as one isotope is asked
    for. *)
Theorem find_isotopic_distribution_aux_keeps_monoisotopic
    fc mz mz_ft q n_isotopes tol r mz_mono :
  nearest_search fc ->
  find_isotopic_distribution_aux fc mz mz_ft q n_isotopes tol = Ok r ->
  mz !! fc mz mz_ft = Some mz_mono ->
  Qabs (mz_mono - mz_ft) <= tol ->
  (1 <= n_isotopes)%nat ->
  exists i rest m, r = i :: rest /\ mz !! i = Some m /\ m == mz_mono.
Proof.
  intros Hfc H Hmono Htol Hn.
  unfold find_isotopic_distribution_aux in H.
  unfold getitem in H. rewrite Hmono in H. cbn [bind] in H.
  assert (Hlt : Qltb tol (Qabs (mz_mono - mz_ft)) = false) by (apply Qltb_ge; exact Htol).
  rewrite Hlt in H.
  destruct n_isotopes as [| n']; [lia |].
  cbn [seq map] in H.
  remember (mz_mono + inject_Z (Z.of_nat 0) * dm / inject_Z (Z.of_nat q)) as t0
    eqn:Hdef.
  assert (Ht0 : t0 == mz_mono).
  { rewrite Hdef. unfold Qdiv. change (inject_Z (Z.of_nat 0)) with 0. ring. }
  clear Hdef.
  assert (Hne : mz <> []) by (intros ->; discriminate Hmono).
  destruct (Hfc mz t0 Hne) as [m [Hm Hnear]].
  pose proof (Hnear _ _ Hmono) as Hd.
  assert (Hzero : Qabs (m - t0) <= 0).
  { eapply Qle_trans; [exact Hd |].
    assert (Heq : mz_mono - t0 == 0) by (rewrite Ht0; ring).
    rewrite Heq. apply Qle_refl. }
  assert (Htol0 : 0 <= tol) by (eapply Qle_trans; [apply Qabs_nonneg | exact Htol]).
  cbn [take_idx] in H. unfold getitem in H at 1. rewrite Hm in H. cbn [bind] in H.
  destruct (take_idx mz (map (fc mz) (map _ (seq 1 n')))) as [near' |] eqn:Enear;
    cbn [bind zip_with] in H; [| discriminate H].
  assert (Hb : Qle_bool (Qabs (m - t0)) tol = true) by (apply Qle_bool_iff; lra).
  rewrite Hb in H. unfold where_ in H. cbn [where_from take_idx] in H.
  cbn [getitem lookup list_lookup bind] in H.
  bind_inv_as H rest. injection H as <-.
  exists (fc mz t0), rest, m. split; [reflexivity |]. split; [exact Hm |].
  rewrite <- Ht0.
  pose proof (Qle_Qabs (m - t0)) as H1.
  pose proof (Qle_Qabs (- (m - t0))) as H2. rewrite Qabs_opp in H2. lra.
Qed.

Lemma find_isotopic_distribution_aux_keeps_monoisotopic_witness :
  exists i rest m,
    [0; 1; 2]%nat = i :: rest /\ spectrum_q1 !! i = Some m /\ m == 500.
Proof.
  apply (find_isotopic_distribution_aux_keeps_monoisotopic find_closest
           spectrum_q1 500 1 3 tol_iso [0; 1; 2]%nat 500).
  - exact find_closest_nearest.
  - vm_compute. reflexivity.
  - vm_compute. reflexivity.
  - vm_compute. discriminate.
  - lia.
Defined.

(** ** Mass matcher: further shape properties *)

Lemma compress_in {A} (mask : list bool) : forall (a : list A) x,
  In x (compress mask a) -> In x a.
Proof.
  induction mask as [| b mask IH]; intros a x Hin; [destruct Hin |].
  destruct a as [| y a]; [destruct Hin |]. cbn [compress] in Hin.
  destruct b; [destruct Hin as [<- | Hin] |]; cbn; auto.
Qed.

Lemma compress_length_eq {A B} (mask : list bool) : forall (a : list A) (b : list B),
  length a = length b -> length (compress mask a) = length (compress mask b).
Proof.
  induction mask as [| m mask IH]; intros a b Hlen; [reflexivity |].
  destruct a as [| x a], b as [| y b]; try discriminate Hlen; [reflexivity |].
  cbn [compress]. injection Hlen as Hlen.
  destruct m; cbn [length]; rewrite (IH a b Hlen); reflexivity.
Qed.

Lemma compress_zip {A B} (mask : list bool) : forall (a : list A) (b : list B),
  zip (compress mask a) (compress mask b) = compress mask (zip a b).
Proof.
  induction mask as [| m mask IH]; intros a b; [reflexivity |].
  destruct a as [| x a]; [reflexivity |].
  destruct b as [| y b].
  - cbn [compress zip zip_with].
    destruct m; [reflexivity | destruct (compress mask a); reflexivity].
  - cbn [compress zip zip_with].
    destruct m; cbn [zip zip_with]; [f_equal |]; apply IH.
Qed.

Lemma compress_sublist {A} (mask : list bool) : forall (a : list A),
  sublist (compress mask a) a.
Proof.
  induction mask as [| m mask IH]; intros a; [apply sublist_nil_l |].
  destruct a as [| x a]; [constructor |]. cbn [compress].
  destruct m; [apply sublist_skip | apply sublist_cons]; apply IH.
Qed.

Lemma take_mask_ok {A} mask (a r : list A) :
  take_mask mask a = Ok r -> length mask = length a /\ r = compress mask a.
Proof.
  unfold take_mask. destruct (Nat.eqb _ _) eqn:H; [| discriminate].
  intros [= <-]. apply Nat.eqb_eq in H. split; [exact H | reflexivity].
Qed.

Lemma unique_sorted a : StronglySorted Nat.lt (fold_right insert_unique [] a).
Proof.
  induction a as [| x a IH]; cbn [fold_right]; [constructor |].
  apply insert_unique_sorted. exact IH.
Qed.

Lemma unique_in a x : In x (fold_right insert_unique [] a) <-> In x a.
Proof.
  induction a as [| y a IH]; cbn [fold_right]; [reflexivity |].
  rewrite insert_unique_in, IH. cbn. intuition.
Qed.

Lemma reduce_loop_length_sp mz_reduce sp_reduce mz2 sp2 groups :
  forall mz_match sp_match mz_match' sp_match',
    reduce_loop mz_reduce sp_reduce mz2 sp2 groups mz_match sp_match
      = Ok (mz_match', sp_match') ->
    length sp_match' = length sp_match.
Proof.
  induction groups as [| [index count] groups IH];
    intros mz_match sp_match mz_match' sp_match' H; cbn [reduce_loop] in H.
  - injection H as _ <-. reflexivity.
  - bind_inv H. bind_inv H. bind_inv H. bind_inv H.
    apply IH in H. rewrite H. eapply setitem_length. eassumption.
Qed.

(** X4: the slots returned by the matcher increase strictly, each one is a
    position of the running means, and one mass and one intensity are
    returned for each; the unmatched masses and intensities come in equal
    numbers. *)
Theorem _match_mz_result_shape fc mz1 mz2 sp2 tol mode mz_reduce sp_reduce
    match_index mz_match sp_match mz_no_match sp_no_match :
  _match_mz fc mz1 mz2 sp2 tol mode mz_reduce sp_reduce
    = Ok (match_index, mz_match, sp_match, mz_no_match, sp_no_match) ->
  StronglySorted Nat.lt match_index /\
  Forall (fun slot => (slot < length mz1)%nat) match_index /\
  length mz_match = length match_index /\
  length sp_match = length match_index /\
  length mz_no_match = length sp_no_match.
Proof.
  intros H. pose proof H as Hshape. apply _match_mz_shape in Hshape as [_ Hmz].
  unfold _match_mz, unique in H.
  bind_inv_as H near. bind_inv_as H sp2_matched. bind_inv_as H sp_match0.
  bind_inv_as H mz2_matched. bind_inv_as H mz_match0.
  apply take_idx_length in E1 as Hlen. rewrite length_map in Hlen.
  bind_inv_as H [[no_match_mask' mz_match'] sp_match'].
  bind_inv_as H mz_no. bind_inv_as H sp_no.
  apply take_mask_ok in E0 as [Hsp2 _], E2 as [Hmz2 _].
  apply take_mask_ok in E5 as [Hm1 ->], E6 as [Hm2 ->].
  injection H as <- <- <- <- <-.
  split; [apply unique_sorted |]. split; [| split; [exact Hmz | split]].
  - apply Forall_forall. intros slot Hslot.
    apply list_elem_of_In, unique_in, compress_in in Hslot.
    apply take_idx_spec in E.
    apply list_elem_of_In, list_elem_of_lookup in Hslot as [j Hj].
    destruct (Forall2_lookup_l _ _ _ _ _ E Hj) as [y [_ Hy]].
    eapply lookup_lt_Some. exact Hy.
  - transitivity (length sp_match0); [| exact Hlen].
    match type of E4 with (if ?c then _ else _) = _ => destruct c end.
    + destruct (String.eqb mode "closest").
      * bind_inv_as E4 [[rm_index mz_replace] spint_replace].
        bind_inv E4. bind_inv E4. bind_inv E4. injection E4 as _ _ <-.
        eapply put_idx_length. eassumption.
      * destruct (String.eqb mode "reduce"); [| discriminate E4].
        bind_inv_as E4 [mz_match'' sp_match''].
        injection E4 as _ _ <-. cbn [snd].
        eapply reduce_loop_length_sp. eassumption.
    + injection E4 as _ _ <-. reflexivity.
  - apply compress_length_eq. congruence.
Qed.

Lemma _match_mz_result_shape_witness :
  StronglySorted Nat.lt [0%nat] /\
  Forall (fun slot => (slot < length [100])%nat) [0%nat] /\
  length [1000010 # 10000] = length [0%nat] /\
  length [1] = length [0%nat] /\
  length [1000020 # 10000] = length [2].
Proof.
  apply (_match_mz_result_shape find_closest [100] mz_pair [1; 2] tol_match
           "closest" (Callable Qmean) (Callable Qsum)).
  vm_compute. reflexivity.
Defined.

(** X5: the unmatched values are peaks of the scan, in the order of the scan,
    each mass with its own intensity. *)
Theorem _match_mz_unmatched_are_scan_peaks fc mz1 mz2 sp2 tol mode mz_reduce sp_reduce
    match_index mz_match sp_match mz_no_match sp_no_match :
  _match_mz fc mz1 mz2 sp2 tol mode mz_reduce sp_reduce
    = Ok (match_index, mz_match, sp_match, mz_no_match, sp_no_match) ->
  sublist (zip mz_no_match sp_no_match) (zip mz2 sp2).
Proof.
  unfold _match_mz, unique. intros H.
  bind_inv H. bind_inv H. bind_inv H. bind_inv H. bind_inv H.
  bind_inv_as H [[no_match_mask' mz_match'] sp_match'].
  bind_inv_as H mz_no. bind_inv_as H sp_no.
  injection H as _ _ _ <- <-.
  match goal with
  | H1 : take_mask _ mz2 = Ok mz_no, H2 : take_mask _ sp2 = Ok sp_no |- _ =>
      apply take_mask_ok in H1 as [_ ->], H2 as [_ ->]
  end.
  rewrite compress_zip. apply compress_sublist.
Qed.

Lemma _match_mz_unmatched_are_scan_peaks_witness :
  sublist (zip [50] [1]) (zip mz_low_pair [1; 2; 3]).
Proof.
  apply (_match_mz_unmatched_are_scan_peaks find_closest [100] mz_low_pair
           [1; 2; 3] tol_match "closest" (Callable Qmean) (Callable Qsum)
           [0%nat] [1000010 # 10000] [2]).
  vm_compute. reflexivity.
Defined.

(** X6: the mode is only looked at when some slot has several candidates: a
    call with an unrecognised mode that returns has met no such slot, and
    every mode and every pair of reduce functions return the same result on
    the same masses. *)
Theorem _match_mz_mode_checked_late fc mz1 mz2 sp2 tol mode mz_reduce sp_reduce res :
  mode <> "closest" -> mode <> "reduce" ->
  _match_mz fc mz1 mz2 sp2 tol mode mz_reduce sp_reduce = Ok res ->
  forall mode' mz_reduce' sp_reduce',
    _match_mz fc mz1 mz2 sp2 tol mode' mz_reduce' sp_reduce' = Ok res.
Proof.
  intros Hc Hr H mode' mz_reduce' sp_reduce'.
  apply String.eqb_neq in Hc, Hr.
  unfold _match_mz, unique in *.
  repeat match type of H with
         | bind (take_idx ?a ?i) _ = _ =>
             destruct (take_idx a i); cbn [bind] in *; [| discriminate H]
         | bind (take_mask ?m ?a) _ = _ =>
             destruct (take_mask m a); cbn [bind] in *; [| discriminate H]
         end.
  match type of H with
  | bind (if ?c then _ else _) _ = _ => destruct c
  end.
  - rewrite Hc, Hr in H. discriminate H.
  - exact H.
Qed.

Lemma _match_mz_mode_checked_late_witness :
  _match_mz find_closest [100] [50; 1000010 # 10000] [1; 2] tol_match "reduce"
    (Named "mean") (Named "sum")
  = Ok ([0%nat], [1000010 # 10000], [2], [50], [1]).
Proof.
  apply (_match_mz_mode_checked_late find_closest [100] [50; 1000010 # 10000]
           [1; 2] tol_match "merge" (Callable Qmean) (Callable Qsum)).
  - discriminate.
  - discriminate.
  - vm_compute. reflexivity.
Defined.

(** ** Trace tracker: what [add] changes *)

Lemma assoc_repeat {A B} (i : nat) (v : A) : forall (idx : list nat) (ws : list B),
  length ws = length idx ->
  assoc i (zip idx (repeat v (length idx))) = (fun _ => v) <$> assoc i (zip idx ws).
Proof.
  induction idx as [| j idx IH]; intros ws Hlen; [reflexivity |].
  destruct ws as [| w ws]; [discriminate Hlen |]. injection Hlen as Hlen.
  cbn [length repeat zip zip_with assoc].
  destruct (Nat.eqb j i); [reflexivity | apply IH; exact Hlen].
Qed.

Lemma assoc_none_not_in {A} (i : nat) : forall (idx : list nat) (vals : list A),
  ~ In i idx -> assoc i (zip idx vals) = None.
Proof.
  induction idx as [| j idx IH]; intros vals Hnin; [reflexivity |].
  destruct vals as [| w vals]; [reflexivity |]. cbn [zip zip_with assoc].
  destruct (Nat.eqb j i) eqn:Hj.
  - apply Nat.eqb_eq in Hj. subst j. exfalso. apply Hnin. left. reflexivity.
  - apply IH. intros Hc. apply Hnin. right. exact Hc.
Qed.

(** Writing one column at distinct rows. *)
Lemma put_col_lookup rows : forall a col vals a',
  put_col a rows col vals = Ok a' -> NoDup rows ->
  forall i, a' !! i = match assoc i (zip rows vals) with
                      | Some v => (fun row => <[col := v]> row) <$> a !! i
                      | None => a !! i
                      end.
Proof.
  induction rows as [| r rows IH]; intros a col vals a' H Hnd i; cbn [put_col] in H.
  - injection H as <-. reflexivity.
  - destruct vals as [| v vals]; [injection H as <-; reflexivity |].
    bind_inv_as H row.
    assert (Hrow : a !! r = Some row).
    { unfold getitem in E. destruct (a !! r); congruence. }
    destruct (Nat.ltb col (length row)); [| discriminate H].
    apply NoDup_cons in Hnd as [Hnin Hnd].
    rewrite (IH _ _ _ _ H Hnd i). cbn [zip zip_with assoc].
    destruct (Nat.eqb r i) eqn:Heq.
    + apply Nat.eqb_eq in Heq. subst i.
      rewrite assoc_none_not_in by (intros Hc; apply Hnin, list_elem_of_In; exact Hc).
      rewrite list_lookup_insert_eq by (eapply lookup_lt_Some; exact Hrow).
      rewrite Hrow. reflexivity.
    + apply Nat.eqb_neq in Heq.
      rewrite list_lookup_insert_ne by exact Heq. reflexivity.
Qed.

(** X7: one call of [add] moves the tracker to the next column, resets the
    miss counter of every matched slot to 0 and increases the miss counter of
    every other slot by 1; start offsets and emitted traces are not touched. *)
Theorem add_counts_misses fc p mz sp p' unmatched :
  add fc p mz sp = Ok (p', unmatched) ->
  _index p' = S (_index p) /\ _start p' = _start p /\ roi p' = roi p /\
  forall i m,
    _missing p !! i = Some m ->
    _missing p' !! i = Some (match slot_match fc p mz sp i with
                             | Some _ => 0
                             | None => m + 1
                             end)%Z.
Proof.
  unfold add, slot_match. intros H.
  bind_inv_as H [[[[match_index mz_match] sp_match] mz_no_match] sp_no_match].
  apply _match_mz_shape in E as [Hnd Hlen].
  bind_inv H. bind_inv H. bind_inv H. bind_inv H. bind_inv H. bind_inv H.
  bind_inv_as H missing'. injection H as <- _. cbn [_index _start roi _missing].
  repeat split.
  intros i m Hm. unfold put_idx_const in *.
  match goal with
  | Hput : put_idx _ match_index (repeat 0%Z _) = Ok missing' |- _ =>
      rewrite (put_idx_lookup _ _ _ _ Hput Hnd i)
  end.
  rewrite (assoc_repeat i 0%Z match_index mz_match Hlen).
  destruct (assoc i (zip match_index mz_match)); cbn; [reflexivity |].
  rewrite list_lookup_fmap, Hm. cbn. f_equal. lia.
Qed.

Lemma add_counts_misses_witness :
  exists p,
    add find_closest seeded_tracker [200] [7] = Ok (p, ([200], [7])) /\
    _index p = 1%nat /\ _missing p !! 0%nat = Some 1%Z.
Proof.
  eexists. split; [vm_compute; reflexivity |].
  match goal with
  | |- _index ?p' = _ /\ _ =>
      destruct (add_counts_misses find_closest seeded_tracker [200] [7] p'
                  ([200], [7]) eq_refl) as [Hidx [_ [_ Hmiss]]]
  end.
  split; [exact Hidx |]. exact (Hmiss 0%nat 0%Z eq_refl).
Defined.

(** X8: [add] returns the unmatched values of the matcher and writes each
    matched mass and intensity into the current column of its slot; nothing
    else in the buffers changes. *)
Theorem add_writes_current_column fc p mz sp p' unmatched
    match_index mz_match sp_match mz_no_match sp_no_match :
  add fc p mz sp = Ok (p', unmatched) ->
  add_match fc p mz sp
    = Ok (match_index, mz_match, sp_match, mz_no_match, sp_no_match) ->
  unmatched = (mz_no_match, sp_no_match) /\
  forall i,
    _mz p' !! i = match assoc i (zip match_index mz_match) with
                  | Some x => (fun row => <[_index p := x]> row) <$> _mz p !! i
                  | None => _mz p !! i
                  end /\
    _sp p' !! i = match assoc i (zip match_index sp_match) with
                  | Some y => (fun row => <[_index p := y]> row) <$> _sp p !! i
                  | None => _sp p !! i
                  end.
Proof.
  unfold add. intros H Hmatch. rewrite Hmatch in H. cbn [bind] in H.
  apply _match_mz_shape in Hmatch as [Hnd _].
  bind_inv_as H mz'. bind_inv_as H sp'.
  bind_inv H. bind_inv H. bind_inv H. bind_inv H. bind_inv H.
  injection H as <- <-. cbn [_mz _sp].
  split; [reflexivity |]. intros i. split.
  - eapply put_col_lookup; eassumption.
  - eapply put_col_lookup; eassumption.
Qed.

Lemma add_writes_current_column_witness :
  exists p row,
    add find_closest seeded_tracker [100] [10] = Ok (p, ([], [])) /\
    _mz p !! 0%nat = Some row /\ row !! 0%nat = Some 100.
Proof.
  eexists. eexists. split; [vm_compute; reflexivity |].
  match goal with
  | |- _mz ?p' !! _ = _ /\ _ =>
      destruct (add_writes_current_column find_closest seeded_tracker [100] [10]
                  p' ([], []) [0%nat] [100] [10] [] [] eq_refl eq_refl)
        as [_ Hcol]
  end.
  destruct (Hcol 0%nat) as [Hmz _]. split; [exact Hmz | reflexivity].
Defined.

(** ** Trace tracker: the shape of the state *)

Lemma put_mask_length {A} (a : list A) : forall mask v,
  length (put_mask a mask v) = length a.
Proof.
  induction a as [| x a IH]; intros mask v; [reflexivity |].
  destruct mask as [| b mask]; [reflexivity |]. cbn [put_mask length]. f_equal. apply IH.
Qed.

Lemma put_col_shape size rows : forall a col vals a',
  put_col a rows col vals = Ok a' ->
  Forall (fun row => length row = size) a ->
  length a' = length a /\ Forall (fun row => length row = size) a'.
Proof.
  induction rows as [| r rows IH]; intros a col vals a' H Hall; cbn [put_col] in H.
  - injection H as <-. split; [reflexivity | exact Hall].
  - destruct vals as [| v vals]; [injection H as <-; split; [reflexivity | exact Hall] |].
    bind_inv_as H row.
    assert (Hrow : a !! r = Some row).
    { unfold getitem in E. destruct (a !! r); congruence. }
    destruct (Nat.ltb col (length row)); [| discriminate H].
    apply IH in H as [Hlen Hall'].
    + rewrite length_insert in Hlen. split; [exact Hlen | exact Hall'].
    + apply Forall_insert; [exact Hall |].
      rewrite length_insert. exact (proj1 (Forall_lookup _ _) Hall r row Hrow).
Qed.

Lemma RoiProcessor_init_shape mz_seed size max_missing min_length tol mode first_scan
    mz_reduce sp_reduce p :
  RoiProcessor_init mz_seed size max_missing min_length tol mode first_scan
    mz_reduce sp_reduce = Ok p ->
  tracker_shape (length mz_seed) size p.
Proof.
  unfold RoiProcessor_init. destruct (negb _); [discriminate |].
  intros [= <-]. unfold tracker_shape. cbn.
  rewrite !repeat_length. repeat split; try reflexivity.
  - apply Forall_forall. intros row Hrow.
    apply list_elem_of_In, repeat_spec in Hrow. subst row. apply repeat_length.
  - apply Forall_forall. intros row Hrow.
    apply list_elem_of_In, repeat_spec in Hrow. subst row. apply repeat_length.
Qed.

Lemma add_shape fc n size p mz sp p' unmatched :
  tracker_shape n size p -> add fc p mz sp = Ok (p', unmatched) ->
  tracker_shape n size p'.
Proof.
  unfold tracker_shape, add.
  intros (Hmean & Hcounter & Hmissing & Hstart & Hmz & Hsp & Hmzrows & Hsprows) H.
  bind_inv_as H [[[[match_index mz_match] sp_match] mz_no_match] sp_no_match].
  bind_inv_as H mz'. bind_inv_as H sp'. bind_inv H. bind_inv H.
  bind_inv_as H counter'. bind_inv_as H mz_mean'. bind_inv_as H missing'.
  injection H as <- _. cbn.
  apply put_col_shape with (size := size) in E0 as [Hmz' Hmzrows']; [| exact Hmzrows].
  apply put_col_shape with (size := size) in E1 as [Hsp' Hsprows']; [| exact Hsprows].
  apply put_idx_length in E4, E5. unfold put_idx_const in E6.
  apply put_idx_length in E6. rewrite length_map in E6.
  repeat split; congruence.
Qed.

Lemma append_to_roi_shape n size p rt p' :
  tracker_shape n size p -> append_to_roi p rt = Ok p' -> tracker_shape n size p'.
Proof.
  unfold tracker_shape, append_to_roi.
  intros (Hmean & Hcounter & Hmissing & Hstart & Hmz & Hsp & Hmzrows & Hsprows) H.
  bind_inv H. injection H as <-. cbn. rewrite !put_mask_length.
  repeat split; assumption.
Qed.

Lemma flag_as_completed_shape n size p :
  tracker_shape n size p -> tracker_shape n size (flag_as_completed p).
Proof.
  unfold tracker_shape, flag_as_completed.
  intros (Hmean & Hcounter & Hmissing & Hstart & Hmz & Hsp & Hmzrows & Hsprows).
  cbn. rewrite length_map. repeat split; assumption.
Qed.

(** X9: the arrays of a tracker keep their shape: a tracker built for [n]
    seeds and [size] columns has [n] running means, counters, miss counters
    and start offsets and two buffers of [n] rows by [size] columns, and
    [add], [append_to_roi] and [flag_as_completed] preserve this. *)
Theorem tracker_shape_is_invariant fc :
  (forall mz_seed size max_missing min_length tol mode first_scan mz_reduce sp_reduce p,
     RoiProcessor_init mz_seed size max_missing min_length tol mode first_scan
       mz_reduce sp_reduce = Ok p ->
     tracker_shape (length mz_seed) size p) /\
  (forall n size p mz sp p' unmatched,
     tracker_shape n size p -> add fc p mz sp = Ok (p', unmatched) ->
     tracker_shape n size p') /\
  (forall n size p rt p',
     tracker_shape n size p -> append_to_roi p rt = Ok p' ->
     tracker_shape n size p') /\
  (forall n size p,
     tracker_shape n size p -> tracker_shape n size (flag_as_completed p)).
Proof.
  split; [| split; [| split]].
  - intros. eapply RoiProcessor_init_shape; eassumption.
  - intros. eapply add_shape; eassumption.
  - intros. eapply append_to_roi_shape; eassumption.
  - intros. apply flag_as_completed_shape; assumption.
Qed.

Lemma tracker_shape_is_invariant_witness :
  exists p',
    add find_closest seeded_tracker [100] [10] = Ok (p', ([], [])) /\
    tracker_shape 1 8 p'.
Proof.
  eexists. split; [vm_compute; reflexivity |].
  refine (proj1 (proj2 (tracker_shape_is_invariant find_closest))
            1%nat 8%nat seeded_tracker [100] [10] _ ([], []) _ _).
  - exact (proj1 (tracker_shape_is_invariant find_closest)
             [100] 8%nat 1%Z 5%Z tol_match "closest" 0%nat (Named "mean")
             (Named "sum") seeded_tracker eq_refl).
  - vm_compute. reflexivity.
Defined.

(** ** Trace tracker: emitting traces *)

Lemma where_from_none mask : forall k,
  Forall (fun b => b = false) mask -> where_from k mask = [].
Proof.
  induction mask as [| b mask IH]; intros k H; [reflexivity |].
  apply Forall_cons in H as [-> H]. cbn [where_from]. apply IH. exact H.
Qed.

Lemma put_mask_none {A} (a : list A) : forall mask v,
  Forall (fun b => b = false) mask -> put_mask a mask v = a.
Proof.
  induction a as [| x a IH]; intros mask v H; [reflexivity |].
  destruct mask as [| b mask]; [reflexivity |].
  apply Forall_cons in H as [-> H]. cbn [put_mask]. f_equal. apply IH. exact H.
Qed.


Lemma slice_length {A} (lo hi : nat) (l : list A) :
  (hi <= length l)%nat -> length (slice lo hi l) = (hi - lo)%nat.
Proof. intros H. unfold slice. rewrite length_take, length_drop. lia. Qed.


(** The traces built for completed rows of a well-shaped tracker. *)
Lemma row_chromatograms_valid n size p rt rows :
  tracker_shape n size p -> (_index p <= size)%nat ->
  Forall (fun row => In row (completed_index p)) rows ->
  exists chroms,
    row_chromatograms p rt rows = Ok chroms /\
    Forall (fun c => length (chrom_spint c) = length (chrom_mz c) /\
                     (min_length p <= Z.of_nat (length (chrom_spint c)))%Z) chroms.
Proof.
  intros (Hmean & Hcounter & Hmissing & Hstart & Hmz & Hsp & Hmzrows & Hsprows) Hidx.
  induction rows as [| row rows IH]; intros Hrows.
  - exists []. split; [reflexivity | constructor].
  - apply Forall_cons in Hrows as [Hrow Hrows].
    destruct (IH Hrows) as [chroms [Hchroms Hvalid]].
    apply completed_index_spec in Hrow as [m [s [Hm [Hs [_ Hlong]]]]].
    assert (Hlt : (row < n)%nat) by (rewrite <- Hmissing; eapply lookup_lt_Some; exact Hm).
    destruct (lookup_lt_is_Some_2 (_sp p) row) as [sp_row Hsprow]; [lia |].
    destruct (lookup_lt_is_Some_2 (_mz p) row) as [mz_row Hmzrow]; [lia |].
    pose proof (proj1 (Forall_lookup _ _) Hsprows row sp_row Hsprow) as Hlsp.
    pose proof (proj1 (Forall_lookup _ _) Hmzrows row mz_row Hmzrow) as Hlmz.
    cbv beta in Hlsp, Hlmz.
    eexists. cbn [row_chromatograms]. unfold row_chromatogram, getitem.
    rewrite Hs, Hsprow, Hmzrow. cbn [bind]. rewrite Hchroms. cbn [bind].
    split; [reflexivity |]. constructor; [| exact Hvalid].
    cbn [new_Chromatogram chrom_spint chrom_mz].
    rewrite !slice_length by lia. split; [reflexivity | lia].
Qed.

(** [append_to_roi] on a well-shaped tracker: the state it returns, and the
    traces it adds. *)
Lemma append_to_roi_returns n size p rt :
  tracker_shape n size p -> (_index p <= size)%nat ->
  exists p' chroms,
    append_to_roi p rt = Ok p' /\ roi p' = roi p ++ chroms /\
    min_length p' = min_length p /\ _index p' = _index p /\
    Forall (fun c => length (chrom_spint c) = length (chrom_mz c) /\
                     (min_length p <= Z.of_nat (length (chrom_spint c)))%Z) chroms.
Proof.
  intros Hshape Hidx.
  destruct (row_chromatograms_valid n size p rt (completed_index p) Hshape Hidx)
    as [chroms [Hchroms Hvalid]].
  { apply Forall_forall. intros row Hrow. apply list_elem_of_In. exact Hrow. }
  unfold append_to_roi. rewrite Hchroms. cbn [bind].
  eexists. exists chroms. repeat (split; [reflexivity |]). exact Hvalid.
Qed.

(** X10: on a well-shaped tracker that has not run past its buffers,
    [append_to_roi] always returns, and every trace it emits has a mass and
    an intensity series of the same length, at least [min_length]. *)
Theorem append_to_roi_emits_valid_traces n size p rt :
  tracker_shape n size p -> (_index p <= size)%nat ->
  exists p' chroms,
    append_to_roi p rt = Ok p' /\ roi p' = roi p ++ chroms /\
    Forall (fun c => length (chrom_spint c) = length (chrom_mz c) /\
                     (min_length p <= Z.of_nat (length (chrom_spint c)))%Z) chroms.
Proof.
  intros Hshape Hidx.
  destruct (row_chromatograms_valid n size p rt (completed_index p) Hshape Hidx)
    as [chroms [Hchroms Hvalid]].
  { apply Forall_forall. intros row Hrow. apply list_elem_of_In. exact Hrow. }
  unfold append_to_roi. rewrite Hchroms. cbn [bind].
  eexists. exists chroms. split; [reflexivity |]. split; [reflexivity | exact Hvalid].
Qed.

Lemma stalled_shape : tracker_shape 1 8 stalled.
Proof. unfold tracker_shape. cbn. repeat split; repeat constructor. Qed.

Lemma append_to_roi_emits_valid_traces_witness :
  exists p' chroms,
    append_to_roi stalled rts = Ok p' /\ roi p' = roi stalled ++ chroms /\
    Forall (fun c => length (chrom_spint c) = length (chrom_mz c) /\
                     (min_length stalled <= Z.of_nat (length (chrom_spint c)))%Z)
           chroms.
Proof.
  apply (append_to_roi_emits_valid_traces 1 8 stalled rts stalled_shape).
  cbn. lia.
Defined.




Lemma is_completed_after_reset (max_missing : Z) (missing : list Z) :
  (0 <= max_missing)%Z ->
  Forall (fun b => b = false)
    (map (fun m => Z.ltb max_missing m)
       (put_mask missing (map (fun m => Z.ltb max_missing m) missing) 0%Z)).
Proof.
  intros Hmax. induction missing as [| m missing IH]; [constructor |].
  cbn [map put_mask]. constructor; [| exact IH].
  destruct (max_missing <? m)%Z eqn:Hm; [apply Z.ltb_ge; lia | exact Hm].
Qed.

Lemma zip_with_andb_none (l k : list bool) :
  Forall (fun b => b = false) l -> Forall (fun b => b = false) (zip_with andb l k).
Proof.
  intros H. revert k. induction H as [| b l -> _ IH]; intros k; [constructor |].
  destruct k as [| c k]; [constructor |]. cbn [zip_with]. constructor; [reflexivity | apply IH].
Qed.

(** X12: with a miss threshold that is not negative, a second call of
    [append_to_roi] right after the first changes nothing: a completed trace
    is emitted once. *)
Theorem append_to_roi_twice p rt p' :
  (0 <= max_missing p)%Z ->
  append_to_roi p rt = Ok p' ->
  append_to_roi p' rt = Ok p'.
Proof.
  intros Hmax H.
  assert (Hnone : Forall (fun b => b = false) (is_completed p')).
  { unfold append_to_roi in H. bind_inv_as H chroms. injection H as <-.
    unfold is_completed. cbn [_missing max_missing].
    apply is_completed_after_reset. exact Hmax. }
  unfold append_to_roi, completed_index, where_.
  rewrite where_from_none by (apply zip_with_andb_none; exact Hnone).
  cbn [row_chromatograms bind].
  rewrite !put_mask_none by exact Hnone.
  rewrite app_nil_r. destruct p'; reflexivity.
Qed.

Lemma append_to_roi_twice_witness :
  exists p',
    append_to_roi stalled rts = Ok p' /\ roi p' = [trace_0_6] /\
    append_to_roi p' rts = Ok p'.
Proof.
  destruct (append_to_roi stalled rts) as [p' |] eqn:H;
    [| vm_compute in H; discriminate H].
  exists p'. split; [reflexivity |]. split.
  - pose proof H as H'. vm_compute in H'. injection H' as <-. reflexivity.
  - apply (append_to_roi_twice stalled rts p'); [cbn; lia | exact H].
Defined.

(** ** Trace tracker: every emitted trace is long enough *)

Lemma add_keeps_parameters fc p mz sp p' unmatched :
  add fc p mz sp = Ok (p', unmatched) ->
  min_length p' = min_length p /\ roi p' = roi p /\ _index p' = S (_index p).
Proof.
  unfold add. intros H.
  bind_inv_as H [[[[match_index mz_match] sp_match] mz_no_match] sp_no_match].
  bind_inv H. bind_inv H. bind_inv H. bind_inv H. bind_inv H. bind_inv H. bind_inv H.
  injection H as <- _. repeat split.
Qed.

Lemma append_to_roi_keeps_parameters p rt p' :
  append_to_roi p rt = Ok p' ->
  min_length p' = min_length p /\ _index p' = _index p.
Proof.
  unfold append_to_roi. intros H. bind_inv H. injection H as <-. split; reflexivity.
Qed.

(** Feeding scans keeps the tracker well shaped and its traces valid, as
    long as the buffers have room for the scans. *)
Lemma feed_valid_traces fc n size rt scans : forall p p',
  tracker_shape n size p ->
  (_index p + length scans <= size)%nat ->
  Forall (fun c => length (chrom_spint c) = length (chrom_mz c) /\
                   (min_length p <= Z.of_nat (length (chrom_spint c)))%Z) (roi p) ->
  feed fc p rt scans = Ok p' ->
  tracker_shape n size p' /\
  _index p' = (_index p + length scans)%nat /\
  min_length p' = min_length p /\
  Forall (fun c => length (chrom_spint c) = length (chrom_mz c) /\
                   (min_length p <= Z.of_nat (length (chrom_spint c)))%Z) (roi p').
Proof.
  induction scans as [| [mz sp] scans IH]; intros p p' Hshape Hroom Hroi H.
  - cbn [feed] in H. injection H as <-. cbn [length].
    split; [exact Hshape |]. split; [lia |]. split; [reflexivity | exact Hroi].
  - cbn [feed] in H. cbn [length] in Hroom.
    bind_inv_as H [p1 unmatched]. cbn [fst] in H. bind_inv_as H p2.
    pose proof (add_shape _ _ _ _ _ _ _ _ Hshape E) as Hshape1.
    apply add_keeps_parameters in E as (Hmin1 & Hroi1 & Hidx1).
    destruct (append_to_roi_returns n size p1 rt Hshape1)
      as [p2' [chroms [Hp2 [Hroi2 [_ [_ Hvalid]]]]]]; [lia |].
    rewrite E0 in Hp2. injection Hp2 as <-.
    apply append_to_roi_keeps_parameters in E0 as Hpar. destruct Hpar as [Hmin2 Hidx2].
    destruct (IH p2 p') as (Hshape' & Hidx' & Hmin' & Hroi').
    + eapply append_to_roi_shape; eassumption.
    + lia.
    + rewrite Hroi2, Hroi1, Hmin2, Hmin1. apply Forall_app. split; [exact Hroi |].
      rewrite <- Hmin1. exact Hvalid.
    + exact H.
    + split; [exact Hshape' |]. split; [cbn [length]; lia |].
      split; [congruence |]. rewrite <- Hmin1, <- Hmin2. exact Hroi'.
Qed.

(** X13: a tracker created with [size] columns and fed at most [size] scans,
    then flushed, only ever emits traces whose mass and intensity series have
    the same length, and that length is at least [min_length]. *)
Theorem tracker_emits_only_valid_traces fc mz_seed size max_miss min_len tol
    mode first_scan mz_reduce sp_reduce p0 rt scans p p' :
  RoiProcessor_init mz_seed size max_miss min_len tol mode first_scan
    mz_reduce sp_reduce = Ok p0 ->
  (length scans <= size)%nat ->
  feed fc p0 rt scans = Ok p ->
  append_to_roi (flag_as_completed p) rt = Ok p' ->
  Forall (fun c => length (chrom_spint c) = length (chrom_mz c) /\
                   (min_len <= Z.of_nat (length (chrom_spint c)))%Z) (roi p').
Proof.
  intros Hinit Hroom Hfeed Hflush.
  pose proof (RoiProcessor_init_shape _ _ _ _ _ _ _ _ _ _ Hinit) as Hshape.
  assert (Hp0 : _index p0 = 0%nat /\ roi p0 = [] /\ min_length p0 = min_len).
  { unfold RoiProcessor_init in Hinit. destruct (negb _); [discriminate Hinit |].
    injection Hinit as <-. repeat split. }
  destruct Hp0 as (Hidx0 & Hroi0 & Hmin0).
  destruct (feed_valid_traces fc _ _ rt scans p0 p Hshape) as (Hs & Hi & Hm & Hr).
  - lia.
  - rewrite Hroi0. constructor.
  - exact Hfeed.
  - destruct (append_to_roi_returns _ _ (flag_as_completed p) rt
                (flag_as_completed_shape _ _ _ Hs))
      as [p'' [chroms [Hp'' [Hroi'' [_ [_ Hvalid]]]]]].
    + cbn [flag_as_completed _index]. lia.
    + rewrite Hflush in Hp''. injection Hp'' as <-.
      rewrite Hroi''. cbn [flag_as_completed roi min_length] in *.
      apply Forall_app. rewrite <- Hmin0. split; [exact Hr |].
      rewrite <- Hm. exact Hvalid.
Qed.

Lemma tracker_emits_only_valid_traces_witness :
  exists p p',
    feed find_closest seeded_tracker rts (scans_0_6 ++ [present]) = Ok p /\
    append_to_roi (flag_as_completed p) rts = Ok p' /\
    Forall (fun c => length (chrom_spint c) = length (chrom_mz c) /\
                     (5 <= Z.of_nat (length (chrom_spint c)))%Z) (roi p').
Proof.
  destruct (feed find_closest seeded_tracker rts (scans_0_6 ++ [present]))
    as [p |] eqn:Hfeed; [| vm_compute in Hfeed; discriminate Hfeed].
  destruct (append_to_roi (flag_as_completed p) rts) as [p' |] eqn:Hflush.
  - exists p, p'. split; [reflexivity |]. split; [exact Hflush |].
    apply (tracker_emits_only_valid_traces find_closest [100] 8 1 5 tol_match
             "closest" 0 (Named "mean") (Named "sum") seeded_tracker rts
             (scans_0_6 ++ [present]) p p');
      [reflexivity | cbn; lia | exact Hfeed | exact Hflush].
  - exfalso. pose proof Hfeed as Hp. vm_compute in Hp. injection Hp as <-.
    vm_compute in Hflush. discriminate Hflush.
Defined.

(** ** EIC extractor: shape of the result *)

Lemma evens_odds_length {A} : forall n (l : list A),
  length l = (2 * n)%nat -> length (evens l) = n /\ length (odds l) = n.
Proof.
  induction n as [| n IH]; intros l Hlen.
  - destruct l; [split; reflexivity | discriminate Hlen].
  - destruct l as [| x [| y l]]; try (cbn in Hlen; lia).
    cbn [evens odds length]. destruct (IH l) as [He Ho]; [cbn in Hlen; lia |].
    split; congruence.
Qed.

Lemma reduceat_go_length a ind : length (reduceat_go a ind) = length ind.
Proof. induction ind as [| i ind IH]; [reflexivity |]. cbn [reduceat_go length]. congruence. Qed.

Lemma intervals_length (mz : list Q) (window : Q) :
  length (flat_map (fun m => [m - window; m + window]) mz) = (2 * length mz)%nat.
Proof. induction mz as [| m mz IH]; [reflexivity |]. cbn [flat_map app length]. lia. Qed.

Lemma set_column_shape a ncols k col a' :
  set_column a ncols k col = Ok a' ->
  length col = length a -> Forall (fun row => length row = ncols) a ->
  length a' = length a /\ Forall (fun row => length row = ncols) a'.
Proof.
  unfold set_column. intros H Hlen Hall. bind_inv_as H j. injection H as <-.
  split; [rewrite length_zip_with; lia |].
  clear E. revert col Hlen. induction Hall as [| row a Hrow _ IH]; intros col Hlen.
  - constructor.
  - destruct col as [| v col]; [discriminate Hlen |]. cbn [zip_with]. constructor.
    + rewrite length_insert. exact Hrow.
    + apply IH. cbn in Hlen. lia.
Qed.

Lemma get_column_length a ncols k col :
  get_column a ncols k = Ok col -> length col = length a.
Proof.
  unfold get_column. intros H. bind_inv H. injection H as <-. apply length_map.
Qed.

Lemma chromatogram_loop_result (msexp : list Spectrum) ivs acc nrows ncols :
  length ivs = (2 * nrows)%nat ->
  forall n lo rt chrom rt' chrom',
    (0 <= lo)%Z ->
    chromatogram_loop msexp ivs acc ncols (range lo (lo + Z.of_nat n)) rt chrom
      = Ok (rt', chrom') ->
    length rt = ncols -> length chrom = nrows ->
    Forall (fun row => length row = ncols) chrom ->
    length rt' = ncols /\ length chrom' = nrows /\
    Forall (fun row => length row = ncols) chrom' /\
    forall j,
      rt' !! j = if decide (Z.to_nat lo <= j < Z.to_nat lo + n)%nat
                 then getRT <$> msexp !! j else rt !! j.
Proof.
  intros Hivs. induction n as [| n IH];
    intros lo rt chrom rt' chrom' Hlo H Hrt Hchrom Hrows.
  - rewrite range_nil in H by lia. cbn [chromatogram_loop] in H.
    injection H as <- <-. repeat split; try assumption.
    intros j. rewrite decide_False by lia. reflexivity.
  - rewrite range_cons in H by lia.
    replace (lo + Z.of_nat (S n))%Z with (lo + 1 + Z.of_nat n)%Z in H by lia.
    cbn [chromatogram_loop] in H.
    bind_inv_as H sp. bind_inv_as H rt1.
    assert (Hsp : msexp !! Z.to_nat lo = Some sp).
    { unfold getSpectrum in E. destruct (lo <? 0)%Z; [discriminate E |].
      unfold getitem in E. revert E.
      destruct (msexp !! Z.to_nat lo); congruence. }
    assert (Hrt1 : rt1 = <[Z.to_nat lo := getRT sp]> rt /\ (Z.to_nat lo < length rt)%nat).
    { unfold setitem, norm_index in E0.
      destruct (lo <? 0)%Z eqn:Hneg; [lia |].
      destruct ((0 <=? lo) && (lo <? Z.of_nat (length rt)))%Z eqn:Hin;
        cbn [bind] in E0; [| discriminate E0].
      injection E0 as <-. apply andb_true_iff in Hin as [_ Hin].
      apply Z.ltb_lt in Hin. split; [reflexivity | lia]. }
    destruct Hrt1 as [-> Hlt].
    unfold get_peaks in H. bind_inv_as H red. bind_inv_as H chrom1.
    assert (Hred : length (evens red) = nrows).
    { unfold reduceat in E1. destruct (forallb _ _); [| discriminate E1].
      injection E1 as <-.
      apply (evens_odds_length nrows).
      rewrite reduceat_go_length, !length_map. exact Hivs. }
    apply set_column_shape in E2 as [Hc1 Hr1]; [| congruence | exact Hrows].
    assert (Hnext : forall rt2 chrom2,
               chromatogram_loop msexp ivs acc ncols
                 (range (lo + 1) (lo + 1 + Z.of_nat n)) (<[Z.to_nat lo := getRT sp]> rt)
                 chrom2 = Ok (rt2, chrom') ->
               rt2 = rt' -> length chrom2 = nrows ->
               Forall (fun row => length row = ncols) chrom2 ->
               length rt' = ncols /\ length chrom' = nrows /\
               Forall (fun row => length row = ncols) chrom' /\
               forall j,
                 rt' !! j = if decide (Z.to_nat lo <= j < Z.to_nat lo + S n)%nat
                            then getRT <$> msexp !! j else rt !! j).
    { intros rt2 chrom2 Hloop -> Hc2 Hr2.
      destruct (IH (lo + 1)%Z _ _ _ _ ltac:(lia) Hloop) as (Hl & Hc & Hr & Hj);
        [rewrite length_insert; exact Hrt | exact Hc2 | exact Hr2 |].
      repeat split; try assumption.
      intros j. rewrite Hj.
      replace (Z.to_nat (lo + 1)) with (S (Z.to_nat lo)) by lia.
      destruct (decide (S (Z.to_nat lo) <= j < S (Z.to_nat lo) + n)%nat).
      - rewrite decide_True by lia. reflexivity.
      - destruct (decide (j = Z.to_nat lo)) as [-> | Hne].
        + rewrite decide_True by lia.
          rewrite list_lookup_insert_eq by exact Hlt. rewrite Hsp. reflexivity.
        + rewrite decide_False by lia.
          apply list_lookup_insert_ne. congruence. }
    destruct (String.eqb acc "mean").
    + bind_inv_as H col. bind_inv_as H chrom2.
      apply get_column_length in E2 as Hcol.
      apply set_column_shape in E3 as [Hc2 Hr2]; [| | exact Hr1].
      * eapply Hnext; [exact H | reflexivity | congruence | exact Hr2].
      * match goal with
        | |- context [odds ?X] =>
            destruct (evens_odds_length nrows X) as [He Ho];
              [rewrite !length_map; exact Hivs |];
            set (idx := X) in *
        end.
        rewrite length_zip_with, Hcol, length_map, length_zip_with, He, Ho. lia.
    + destruct (String.eqb acc "sum"); [| discriminate H].
      eapply Hnext; [exact H | reflexivity | congruence | exact Hr1].
Qed.

(** X14: when the extractor is run from the first scan and returns, it has
    read the scans 0 .. end - 1: [rt] holds their retention times in order,
    and the matrix has one row per target mass and one column per scan. *)
Theorem chromatogram_result_shape (msexp : list Spectrum) mz window end_ accumulator
    rt chromatograms :
  chromatogram msexp mz window None end_ accumulator = Ok (rt, chromatograms) ->
  let e := Z.to_nat (default (getNrSpectra msexp) end_) in
  (e <= length msexp)%nat /\
  rt = map getRT (take e msexp) /\
  length chromatograms = length mz /\
  Forall (fun row => length row = e) chromatograms.
Proof.
  unfold chromatogram. cbn [from_option id].
  set (e := default (getNrSpectra msexp) end_). fold e.
  rewrite Z.sub_0_r. intros H.
  destruct (e <? 0)%Z eqn:Hneg; [discriminate H |]. apply Z.ltb_ge in Hneg.
  replace e with (0 + Z.of_nat (Z.to_nat e))%Z in H at 2 by lia.
  apply (chromatogram_loop_result msexp _ accumulator (length mz) (Z.to_nat e)
           (intervals_length mz window)) in H as (Hrt & Hc & Hr & Hj);
    [| lia | apply repeat_length | apply repeat_length |].
  2:{ apply Forall_forall. intros row Hrow.
      apply list_elem_of_In, repeat_spec in Hrow. subst row. apply repeat_length. }
  assert (He : (Z.to_nat e <= length msexp)%nat).
  { destruct (Z.to_nat e) as [| e'] eqn:Hz; [lia |].
    specialize (Hj e'). rewrite decide_True in Hj by (cbn; lia).
    destruct (msexp !! e') as [sp |] eqn:Hsp.
    - apply lookup_lt_Some in Hsp. lia.
    - cbn in Hj. apply lookup_ge_None in Hj. lia. }
  cbv zeta. split; [exact He |]. split; [| split; assumption].
  apply list_eq. intros j. rewrite Hj, list_lookup_fmap.
  destruct (decide (Z.to_nat 0 <= j < Z.to_nat 0 + Z.to_nat e)%nat) as [Hin | Hout].
  - rewrite lookup_take_lt by (cbn in Hin; lia). reflexivity.
  - rewrite lookup_take_ge by (cbn in Hout; lia).
    apply lookup_ge_None. rewrite repeat_length. cbn in Hout. lia.
Qed.

Lemma chromatogram_result_shape_witness :
  ([0], [[7]]) = (map getRT (take 1 [two_peaks]), [[7]]) /\
  length [[7]] = length [150] /\ Forall (fun row => length row = 1%nat) [[7]].
Proof.
  destruct (chromatogram_result_shape [two_peaks] [150] (5 # 1000) None "sum"
              [0] [[7]]) as (_ & Hrt & Hc & Hr).
  - vm_compute. reflexivity.
  - split; [rewrite Hrt; reflexivity |]. split; [exact Hc | exact Hr].
Defined.

(** ** EIC extractor: the sum over a window *)

Lemma searchsorted_le a : forall v w, v <= w -> (searchsorted a v <= searchsorted a w)%nat.
Proof.
  induction a as [| x a IH]; intros v w Hvw; cbn [searchsorted]; [lia |].
  destruct (Qltb x v) eqn:Hv; [| lia].
  apply Qltb_lt in Hv. assert (Hw : Qltb x w = true) by (apply Qltb_lt; lra).
  rewrite Hw. specialize (IH v w Hvw). lia.
Qed.

Lemma searchsorted_lt_length a : forall v x,
  In x a -> v <= x -> (searchsorted a v < length a)%nat.
Proof.
  induction a as [| y a IH]; intros v x Hin Hx; [destruct Hin |].
  cbn [searchsorted length]. destruct (Qltb y v) eqn:Hy; [| lia].
  apply Qltb_lt in Hy. destruct Hin as [-> | Hin]; [lra |].
  specialize (IH v x Hin Hx). lia.
Qed.

(** On ascending masses, the peaks between the two search positions are the
    peaks inside the window. *)
Lemma window_slice (peaks : list (Q * Q)) : forall lo hi,
  lo <= hi ->
  StronglySorted Qle (map fst peaks) ->
  slice (searchsorted (map fst peaks) lo) (searchsorted (map fst peaks) hi)
        (map snd peaks)
  = map snd (List.filter (in_window lo hi) peaks).
Proof.
  induction peaks as [| [x y] peaks IH]; intros lo hi Hle Hsorted; [reflexivity |].
  cbn [map fst snd] in *. apply StronglySorted_inv in Hsorted as [Hsorted Hx].
  specialize (IH lo hi Hle Hsorted).
  assert (Hhead : forall v, v <= x -> searchsorted (map fst peaks) v = 0%nat).
  { intros v Hv. destruct peaks as [| [x' y'] peaks]; [reflexivity |].
    cbn [map fst searchsorted]. apply Forall_cons in Hx as [Hx' _]. cbn [fst] in Hx'.
    assert (Hnot : Qltb x' v = false) by (apply Qltb_ge; lra).
    rewrite Hnot. reflexivity. }
  cbn [searchsorted List.filter]. unfold in_window at 1. cbn [fst].
  destruct (Qltb x lo) eqn:Hlo.
  - apply Qltb_lt in Hlo.
    assert (Hhi : Qltb x hi = true) by (apply Qltb_lt; lra). rewrite Hhi.
    assert (Hno : Qle_bool lo x = false).
    { destruct (Qle_bool lo x) eqn:Hc; [| reflexivity]. apply Qle_bool_iff in Hc. lra. }
    rewrite Hno. cbn [andb]. exact IH.
  - apply Qltb_ge in Hlo.
    assert (Hyes : Qle_bool lo x = true) by (apply Qle_bool_iff; exact Hlo).
    rewrite Hyes. cbn [andb]. rewrite (Hhead lo Hlo) in IH.
    destruct (Qltb x hi) eqn:Hhi.
    + cbn [map snd]. rewrite <- IH. unfold slice. cbn [drop].
      rewrite !Nat.sub_0_r. reflexivity.
    + apply Qltb_ge in Hhi. rewrite (Hhead hi Hhi) in IH. exact IH.
Qed.

Lemma evens_reduceat_go (a : list Q) (lo hi : nat) (ind : list nat) :
  evens (reduceat_go a (lo :: hi :: ind)) =
  (if Nat.ltb lo hi then Qsum (slice lo hi a) else nth lo a 0)
    :: evens (reduceat_go a ind).
Proof. reflexivity. Qed.

(** Entry [j] of the column of one scan: the reduction between the two
    clamped positions of the bounds of target [j]. *)
Lemma sum_column_entry (sp : Spectrum) : forall (bounds : list (Q * Q)) j lo hi,
  bounds !! j = Some (lo, hi) ->
  exists l h,
    clamped_indices [lo; hi] sp = [l; h] /\
    evens (reduceat_go (map snd (peaks sp))
             (map Z.to_nat
                (clamped_indices (flat_map (fun b => [fst b; snd b]) bounds) sp)))
      !! j
    = Some (if Nat.ltb (Z.to_nat l) (Z.to_nat h)
            then Qsum (slice (Z.to_nat l) (Z.to_nat h) (map snd (peaks sp)))
            else nth (Z.to_nat l) (map snd (peaks sp)) 0).
Proof.
  induction bounds as [| b0 bounds IH]; intros j lo hi Hj; [discriminate Hj |].
  destruct j as [| j].
  - cbn in Hj. injection Hj as ->. eexists. eexists. split; [reflexivity |].
    unfold clamped_indices. cbn [flat_map app map fst snd].
    rewrite evens_reduceat_go. reflexivity.
  - cbn [lookup list_lookup] in Hj. destruct (IH j lo hi Hj) as [l [h [Hlh Hentry]]].
    exists l, h. split; [exact Hlh |].
    unfold clamped_indices in *. cbn [flat_map app map].
    rewrite evens_reduceat_go. cbn [lookup list_lookup]. exact Hentry.
Qed.

Lemma bounds_length (bounds : list (Q * Q)) :
  length (flat_map (fun b => [fst b; snd b]) bounds) = (2 * length bounds)%nat.
Proof. induction bounds as [| b bounds IH]; cbn [flat_map app length]; lia. Qed.

(** [chromatogram] is [chromatogram_from] on the exact bounds. *)
Lemma chromatogram_exact_bounds msexp mz window start end_ accumulator :
  chromatogram msexp mz window start end_ accumulator
  = chromatogram_from msexp (map (fun m => (m - window, m + window)) mz)
      start end_ accumulator.
Proof.
  unfold chromatogram, chromatogram_from. rewrite length_map.
  replace (flat_map (fun b : Q * Q => [fst b; snd b])
             (map (fun m => (m - window, m + window)) mz))
    with (flat_map (fun m => [m - window; m + window]) mz); [reflexivity |].
  induction mz as [| m mz IH]; cbn [flat_map map app fst snd]; [reflexivity |].
  rewrite IH. reflexivity.
Qed.

(** In mode sum, every column of the scans of the loop holds the column of its
    scan, and the other columns are left alone. *)
Lemma chromatogram_loop_sum_entries (msexp : list Spectrum) ivs nrows ncols :
  length ivs = (2 * nrows)%nat ->
  forall n lo rt chrom rt' chrom',
    (0 <= lo)%Z ->
    chromatogram_loop msexp ivs "sum" ncols (range lo (lo + Z.of_nat n)) rt chrom
      = Ok (rt', chrom') ->
    length chrom = nrows ->
    Forall (fun row => length row = ncols) chrom ->
    forall j row',
      chrom' !! j = Some row' ->
      exists row,
        chrom !! j = Some row /\
        forall k,
          row' !! k =
          if decide (Z.to_nat lo <= k < Z.to_nat lo + n)%nat
          then sp ← msexp !! k;
               evens (reduceat_go (map snd (peaks sp))
                        (map Z.to_nat (clamped_indices ivs sp))) !! j
          else row !! k.
Proof.
  intros Hivs. induction n as [| n IH];
    intros lo rt chrom rt' chrom' Hlo H Hchrom Hrows j row' Hj.
  - rewrite range_nil in H by lia. cbn [chromatogram_loop] in H.
    injection H as <- <-. exists row'. split; [exact Hj |].
    intros k. rewrite decide_False by lia. reflexivity.
  - rewrite range_cons in H by lia.
    replace (lo + Z.of_nat (S n))%Z with (lo + 1 + Z.of_nat n)%Z in H by lia.
    cbn [chromatogram_loop] in H.
    bind_inv_as H sp. bind_inv_as H rt1.
    assert (Hsp : msexp !! Z.to_nat lo = Some sp).
    { unfold getSpectrum in E. destruct (lo <? 0)%Z; [discriminate E |].
      unfold getitem in E. revert E.
      destruct (msexp !! Z.to_nat lo); congruence. }
    unfold get_peaks in H. bind_inv_as H red. bind_inv_as H chrom1.
    cbn [String.eqb Ascii.eqb Bool.eqb] in H.
    assert (Hred : red = reduceat_go (map snd (peaks sp))
                           (map Z.to_nat (clamped_indices ivs sp))).
    { unfold reduceat in E1. unfold clamped_indices.
      destruct (forallb _ _); [| discriminate E1]. injection E1 as <-. reflexivity. }
    assert (Hlen : length (evens red) = nrows).
    { rewrite Hred. apply (evens_odds_length nrows).
      unfold clamped_indices. rewrite reduceat_go_length, !length_map. exact Hivs. }
    pose proof E2 as Hshape.
    apply set_column_shape in Hshape as [Hc1 Hr1]; [| congruence | exact Hrows].
    unfold set_column in E2. bind_inv_as E2 c. injection E2 as <-.
    assert (Hc : c = Z.to_nat lo /\ (Z.to_nat lo < ncols)%nat).
    { match goal with Hn : norm_index _ _ = Ok c |- _ => rename Hn into Hnorm end.
      unfold norm_index in Hnorm.
      destruct (lo <? 0)%Z eqn:Hneg; [lia |].
      destruct ((0 <=? lo) && (lo <? Z.of_nat ncols))%Z eqn:Hin; [| discriminate Hnorm].
      injection Hnorm as <-. apply andb_true_iff in Hin as [_ Hin].
      apply Z.ltb_lt in Hin. split; [reflexivity | lia]. }
    destruct Hc as [-> Hcol].
    destruct (IH (lo + 1)%Z _ _ _ _ ltac:(lia) H ltac:(congruence) Hr1 j row' Hj)
      as [row1 [Hrow1 Hentries]].
    rewrite lookup_zip_with in Hrow1.
    destruct (chrom !! j) as [row |] eqn:Hrow; [| discriminate Hrow1].
    destruct (evens red !! j) as [v |] eqn:Hv; [| discriminate Hrow1].
    cbn in Hrow1. injection Hrow1 as <-.
    exists row. split; [reflexivity |].
    pose proof (proj1 (Forall_lookup _ _) Hrows j row Hrow) as Hrowlen.
    cbv beta in Hrowlen.
    intros k. rewrite Hentries.
    replace (Z.to_nat (lo + 1)) with (S (Z.to_nat lo)) by lia.
    destruct (decide (S (Z.to_nat lo) <= k < S (Z.to_nat lo) + n)%nat).
    + rewrite decide_True by lia. reflexivity.
    + destruct (decide (k = Z.to_nat lo)) as [-> | Hne].
      * rewrite decide_True by lia.
        rewrite list_lookup_insert_eq by lia. rewrite Hsp. cbn.
        rewrite <- Hred. symmetry. exact Hv.
      * rewrite decide_False by lia.
        apply list_lookup_insert_ne. congruence.
Qed.

(** X15: in mode sum, run from the first scan, with [lo] and [hi] the bounds
    that were computed for target [j], whatever the rounding of [m - window]
    and [m + window] made of them: for a scan with ascending masses, when a
    peak of the scan lies in [lo, hi) and some peak lies at or above [hi],
    the entry of that target and scan is the sum of the intensities of the
    peaks with [lo <= mass < hi]. *)
Theorem chromatogram_sums_window (msexp : list Spectrum) bounds end_
    rt chromatograms j lo hi k sp :
  chromatogram_from msexp bounds None end_ "sum" = Ok (rt, chromatograms) ->
  bounds !! j = Some (lo, hi) ->
  (k < Z.to_nat (default (getNrSpectra msexp) end_))%nat ->
  msexp !! k = Some sp ->
  StronglySorted Qle (map fst (peaks sp)) ->
  (exists peak, In peak (peaks sp) /\ in_window lo hi peak = true) ->
  (exists peak, In peak (peaks sp) /\ hi <= fst peak) ->
  exists row,
    chromatograms !! j = Some row /\
    row !! k = Some (Qsum (map snd (List.filter (in_window lo hi) (peaks sp)))).
Proof.
  intros H Hm Hk Hsp Hsorted [peak [Hpeak Hin]] [top [Htop Habove]].
  unfold chromatogram_from in H. cbn [from_option id] in H.
  set (e := default (getNrSpectra msexp) end_) in *.
  rewrite Z.sub_0_r in H.
  destruct (e <? 0)%Z eqn:Hneg; [discriminate H |]. apply Z.ltb_ge in Hneg.
  replace e with (0 + Z.of_nat (Z.to_nat e))%Z in H at 2 by lia.
  assert (Hzero : Forall (fun row : list Q => length row = Z.to_nat e)
                    (repeat (repeat 0 (Z.to_nat e)) (length bounds))).
  { apply Forall_forall. intros r Hr.
    apply list_elem_of_In, repeat_spec in Hr. subst r. apply repeat_length. }
  pose proof (chromatogram_loop_result msexp _ "sum" (length bounds) (Z.to_nat e)
                (bounds_length bounds) _ _ _ _ _ _ (Z.le_refl 0) H
                (repeat_length _ _) (repeat_length _ _) Hzero) as (_ & Hrowsn & _).
  destruct (lookup_lt_is_Some_2 chromatograms j) as [row' Hrow'].
  { rewrite Hrowsn. eapply lookup_lt_Some. exact Hm. }
  destruct (chromatogram_loop_sum_entries msexp _ (length bounds) (Z.to_nat e)
              (bounds_length bounds) _ _ _ _ _ _ (Z.le_refl 0) H
              (repeat_length _ _) Hzero j row' Hrow') as [row0 [_ Hentries]].
  exists row'. split; [exact Hrow' |].
  rewrite Hentries, decide_True by (cbn; lia). rewrite Hsp. cbn [mbind option_bind].
  destruct (sum_column_entry sp bounds j lo hi Hm) as [l0 [h0 [Hlh Hentry]]].
  rewrite Hentry. f_equal.
  unfold in_window in Hin. apply andb_true_iff in Hin as [Hlow Hhigh].
  apply Qle_bool_iff in Hlow. apply Qltb_lt in Hhigh. cbn [fst] in Hlow, Hhigh.
  assert (Hle : lo <= hi) by lra.
  pose proof (window_slice (peaks sp) _ _ Hle Hsorted) as Hslice.
  set (l := searchsorted (map fst (peaks sp)) lo) in *.
  set (h := searchsorted (map fst (peaks sp)) hi) in *.
  assert (Hh : (h < length (map snd (peaks sp)))%nat).
  { rewrite length_map, <- (length_map fst).
    apply (searchsorted_lt_length _ _ (fst top)); [apply in_map; exact Htop | exact Habove]. }
  assert (Hl : (l <= h)%nat) by (apply searchsorted_le; exact Hle).
  assert (Hlt : (l < h)%nat).
  { destruct (decide (l < h)%nat) as [Hyes | Hno]; [exact Hyes |].
    exfalso. assert (l = h) as Heq by lia. rewrite Heq in Hslice.
    unfold slice in Hslice. rewrite Nat.sub_diag in Hslice. cbn [take] in Hslice.
    assert (Hmem : In peak (List.filter (in_window lo hi) (peaks sp))).
    { apply filter_In. split; [exact Hpeak |]. unfold in_window.
      apply andb_true_iff. split; [apply Qle_bool_iff; exact Hlow | apply Qltb_lt; exact Hhigh]. }
    destruct (List.filter _ (peaks sp)); [destruct Hmem | discriminate Hslice]. }
  unfold clamped_indices in Hlh. cbn [map] in Hlh. fold l h in Hlh.
  injection Hlh as <- <-.
  assert (Hcl : forall i : nat, (i < length (map snd (peaks sp)))%nat ->
            Z.to_nat (if (Z.of_nat (length (map snd (peaks sp))) <=? Z.of_nat i)%Z
                      then (Z.of_nat (length (map snd (peaks sp))) - 1)%Z
                      else Z.of_nat i) = i).
  { intros i Hi. destruct (Z.of_nat (length (map snd (peaks sp))) <=? Z.of_nat i)%Z eqn:Hc; lia. }
  rewrite !Hcl by lia.
  assert (Hb : Nat.ltb l h = true) by (apply Nat.ltb_lt; exact Hlt).
  rewrite Hb, Hslice. reflexivity.
Qed.

Lemma chromatogram_sums_window_witness :
  exists row,
    [[6]] !! 0%nat = Some row /\
    row !! 0%nat
    = Some (Qsum (map snd (List.filter
                             (in_window (fst rounded_bounds) (snd rounded_bounds))
                             (peaks edge_scan)))).
Proof.
  apply (chromatogram_sums_window [edge_scan] [rounded_bounds] None [0] [[6]]
           0%nat (fst rounded_bounds) (snd rounded_bounds) 0%nat edge_scan).
  - vm_compute. reflexivity.
  - reflexivity.
  - vm_compute. lia.
  - reflexivity.
  - repeat constructor; vm_compute; discriminate.
  - exists (1002 # 10, 2). split; [right; left; reflexivity | vm_compute; reflexivity].
  - exists (500, 8). split; [right; right; right; left; reflexivity | vm_compute; discriminate].
Defined.

(** ** ROI driver: every trace returned is long enough *)

Lemma tracker_ready_less min_len room p :
  tracker_ready min_len (S room) p -> tracker_ready min_len room p.
Proof.
  intros (n & size & Hshape & Hroom & Hmin & Hroi).
  exists n, size. split; [exact Hshape |]. split; [lia |]. split; assumption.
Qed.

(** One scan on one tracker: [add] followed by [append_to_roi]. *)
Lemma add_append_ready fc min_len room p rt mz sp p1 unmatched p2 :
  tracker_ready min_len (S room) p ->
  add fc p mz sp = Ok (p1, unmatched) ->
  append_to_roi p1 rt = Ok p2 ->
  tracker_ready min_len room p2.
Proof.
  intros (n & size & Hshape & Hroom & Hmin & Hroi) Hadd Happ.
  pose proof (add_shape _ _ _ _ _ _ _ _ Hshape Hadd) as Hshape1.
  apply add_keeps_parameters in Hadd as (Hmin1 & Hroi1 & Hidx1).
  destruct (append_to_roi_returns n size p1 rt Hshape1)
    as [p2' [chroms [Hp2 [Hroi2 [Hmin2 [Hidx2 Hvalid]]]]]]; [lia |].
  rewrite Happ in Hp2. injection Hp2 as <-.
  exists n, size. split; [eapply append_to_roi_shape; eassumption |].
  split; [lia |]. split; [congruence |].
  rewrite Hroi2, Hroi1. apply Forall_app. split; [exact Hroi |].
  rewrite Hmin1, Hmin in Hvalid. exact Hvalid.
Qed.

Lemma feed_processors_ready fc min_len room rt : forall ps mz sp ps' rest,
  Forall (tracker_ready min_len (S room)) ps ->
  feed_processors fc ps rt mz sp = Ok (ps', rest) ->
  Forall (tracker_ready min_len room) ps'.
Proof.
  induction ps as [| p ps IH]; intros mz sp ps' rest Hps H.
  - cbn [feed_processors] in H. injection H as <- _. constructor.
  - cbn [feed_processors] in H. apply Forall_cons in Hps as [Hp Hps].
    destruct (Nat.ltb 0 (length mz)).
    + bind_inv_as H [p1 [mz' sp']]. bind_inv_as H p2. bind_inv_as H [ps2 rest2].
      cbn [fst snd] in H. injection H as <- _.
      constructor.
      * eapply add_append_ready; eassumption.
      * eapply IH; eassumption.
    + injection H as <- _. constructor.
      * apply tracker_ready_less. exact Hp.
      * eapply Forall_impl; [exact Hps |]. intros q. apply tracker_ready_less.
Qed.

Lemma make_roi_loop_ready fc msexp tol max_miss min_len mode targeted start end_
    mz_reduce sp_reduce :
  forall n k rt ps rt' ps',
    end_ = (k + Z.of_nat n)%Z ->
    Forall (tracker_ready min_len n) ps ->
    make_roi_loop fc msexp tol max_miss min_len mode targeted start end_
      mz_reduce sp_reduce (range k end_) rt ps = Ok (rt', ps') ->
    Forall (tracker_ready min_len 0) ps'.
Proof.
  induction n as [| n IH]; intros k rt ps rt' ps' Hend Hps H.
  - rewrite range_nil in H by lia. cbn [make_roi_loop] in H.
    injection H as _ <-. exact Hps.
  - rewrite range_cons in H by lia. cbn [make_roi_loop] in H.
    bind_inv_as H sp. bind_inv_as H rt1. unfold get_peaks in H.
    bind_inv_as H [ps1 [mz' sp']].
    pose proof (feed_processors_ready _ _ _ _ _ _ _ _ _ Hps E1) as Hps1.
    destruct (Nat.ltb 0 (length mz') && negb targeted).
    + bind_inv_as H tmp. bind_inv_as H [tmp1 unmatched]. cbn [fst] in H.
      bind_inv_as H tmp2.
      apply (IH (k + 1)%Z _ _ _ _ ltac:(lia)) in H; [exact H |].
      apply Forall_app. split; [exact Hps1 |]. constructor; [| constructor].
      eapply (add_append_ready fc min_len n tmp); [| eassumption | eassumption].
      pose proof (RoiProcessor_init_shape _ _ _ _ _ _ _ _ _ _ E2) as Hshape.
      exists (length mz'), (Z.to_nat (end_ - k)). split; [exact Hshape |].
      unfold RoiProcessor_init in E2. destruct (negb _); [discriminate E2 |].
      injection E2 as <-. cbn [_index min_length roi].
      split; [lia |]. split; [reflexivity | constructor].
    + apply (IH (k + 1)%Z _ _ _ _ ltac:(lia)) in H; [exact H | exact Hps1].
Qed.

Lemma collect_roi_valid min_len rt : forall ps traces,
  Forall (tracker_ready min_len 0) ps ->
  collect_roi rt ps = Ok traces ->
  Forall (valid_trace min_len) traces.
Proof.
  induction ps as [| p ps IH]; intros traces Hps H.
  - cbn [collect_roi] in H. injection H as <-. constructor.
  - cbn [collect_roi] in H. apply Forall_cons in Hps as [Hp Hps].
    bind_inv_as H p1. bind_inv_as H rest. injection H as <-.
    destruct Hp as (n & size & Hshape & Hroom & Hmin & Hroi).
    destruct (append_to_roi_returns n size (flag_as_completed p) rt
                (flag_as_completed_shape _ _ _ Hshape))
      as [p1' [chroms [Hp1 [Hroi1 [_ [_ Hvalid]]]]]].
    { cbn [flag_as_completed _index]. lia. }
    rewrite E in Hp1. injection Hp1 as <-.
    apply Forall_app. split; [| eapply IH; [exact Hps | reflexivity]].
    rewrite Hroi1. cbn [flag_as_completed roi min_length] in *.
    apply Forall_app. split; [exact Hroi |]. rewrite Hmin in Hvalid. exact Hvalid.
Qed.

(** X16: whatever the scans, the seed, the matching mode and the search, every
    trace that [_make_roi] returns has a mass and an intensity series of the
    same length, and at least [min_length] points. *)
Theorem _make_roi_returns_valid_traces fc msexp tol max_miss min_len mode
    targeted_mz start end_ mz_reduce sp_reduce traces :
  _make_roi fc msexp tol max_miss min_len mode targeted_mz start end_
    mz_reduce sp_reduce = Ok traces ->
  Forall (valid_trace min_len) traces.
Proof.
  unfold _make_roi. intros H.
  set (s := default 0%Z start) in *.
  set (e := default (getNrSpectra msexp) end_) in *.
  bind_inv_as H [mz_seed targeted].
  destruct (e - s <? 0)%Z eqn:Hneg; [discriminate H |]. apply Z.ltb_ge in Hneg.
  bind_inv_as H p0. bind_inv_as H [rt ps]. cbn [fst snd] in H.
  eapply collect_roi_valid; [| exact H].
  eapply (make_roi_loop_ready fc msexp tol max_miss min_len mode targeted s e
            mz_reduce sp_reduce (Z.to_nat (e - s)) s); [lia | | exact E1].
  constructor; [| constructor].
  pose proof (RoiProcessor_init_shape _ _ _ _ _ _ _ _ _ _ E0) as Hshape.
  exists (length mz_seed), (Z.to_nat (e - s)). split; [exact Hshape |].
  unfold RoiProcessor_init in E0. destruct (negb _); [discriminate E0 |].
  injection E0 as <-. cbn [_index min_length roi].
  split; [lia |]. split; [reflexivity | constructor].
Qed.

Lemma _make_roi_returns_valid_traces_witness :
  exists traces,
    _make_roi find_closest three_scans tol_match 0 2 "closest" None None None
      (Named "mean") (Named "sum") = Ok traces /\
    length traces = 2%nat /\ Forall (valid_trace 2) traces.
Proof.
  destruct (_make_roi find_closest three_scans tol_match 0 2 "closest" None None None
              (Named "mean") (Named "sum")) as [traces |] eqn:H;
    [| vm_compute in H; discriminate H].
  exists traces. split; [reflexivity |]. split.
  - vm_compute in H. injection H as <-. reflexivity.
  - exact (_make_roi_returns_valid_traces _ _ _ _ _ _ _ _ _ _ _ _ H).
Defined.

(** ** Spectral accumulator: shape and sum *)

Lemma accumulator_length name f rows n :
  accumulator_functions name = Ok f ->
  Forall (fun row => length row = n) rows -> length (f rows n) = n.
Proof.
  unfold accumulator_functions. intros H Hrows.
  destruct (String.eqb name "sum").
  - injection H as <-. unfold np_sum. rewrite length_map.
    apply column_sums_length. exact Hrows.
  - destruct (String.eqb name "mean"); [| discriminate H].
    injection H as <-. apply np_mean_length. exact Hrows.
Qed.

(** X17: whenever the accumulator returns, in either mode and with or without
    a subtract region, the mass array is the grid of the subtract region (of
    the scan region when there is none) and the intensity array has one
    entry per mass. *)
Theorem accumulate_spectra_result_shape interp msexp start end_ subtract kind
    accumulator accum_mz accum_int :
  accumulate_spectra interp msexp start end_ subtract kind accumulator
    = Ok (accum_mz, accum_int) ->
  _get_mz_roi msexp (default (start, end_) subtract) = Ok accum_mz /\
  length accum_int = length accum_mz.
Proof.
  unfold accumulate_spectra. intros H.
  bind_inv_as H f. bind_inv_as H [s0 s1].
  assert (Hregion : default (start, end_) subtract = (s0, s1)).
  { destruct subtract as [[a b] |]; cbn [from_option id].
    - destruct ((a >? start) || (b <? end_))%Z; [discriminate E0 |].
      injection E0 as <- <-. reflexivity.
    - injection E0 as <- <-. reflexivity. }
  rewrite Hregion. cbn [fst snd] in H.
  bind_inv_as H mz_ref.
  destruct (s1 - s0 <? 0)%Z; [discriminate H |].
  bind_inv_as H interp_int. injection H as <- <-.
  split; [reflexivity |].
  apply interpolate_rows_width in E2.
  rewrite !length_zip_with.
  rewrite !(accumulator_length _ _ _ _ E) by (apply Forall_pyslice; exact E2).
  lia.
Qed.

Lemma accumulate_spectra_result_shape_witness :
  exists accum_mz accum_int,
    accumulate_spectra linear_interp1d [ramp; ramp; ramp] 1 2 (Some (0, 3)%Z)
      "linear" "mean" = Ok (accum_mz, accum_int) /\
    _get_mz_roi [ramp; ramp; ramp] (0, 3)%Z = Ok accum_mz /\
    length accum_int = length accum_mz.
Proof.
  destruct (accumulate_spectra linear_interp1d [ramp; ramp; ramp] 1 2 (Some (0, 3)%Z)
              "linear" "mean") as [[accum_mz accum_int] |] eqn:H;
    [| vm_compute in H; discriminate H].
  exists accum_mz, accum_int. split; [reflexivity |].
  exact (accumulate_spectra_result_shape linear_interp1d [ramp; ramp; ramp] 1 2
           (Some (0, 3)%Z) "linear" "mean" accum_mz accum_int H).
Defined.

Lemma interpolate_rows_length interp msexp kind mz_ref scans : forall rows,
  interpolate_rows interp msexp kind mz_ref scans = Ok rows ->
  length rows = length scans.
Proof.
  induction scans as [| scan scans IH]; cbn [interpolate_rows]; intros rows H.
  - injection H as <-. reflexivity.
  - bind_inv H. unfold get_peaks in H. bind_inv_as H row. bind_inv_as H rows'.
    injection H as <-. cbn [length]. f_equal. apply IH. reflexivity.
Qed.

Lemma range_length lo hi : length (range lo hi) = Z.to_nat (hi - lo).
Proof. unfold range. rewrite length_map, length_seq. reflexivity. Qed.

Lemma pyslice_all {A} (a : list A) : pyslice 0 (Z.of_nat (length a)) a = a.
Proof.
  unfold pyslice, slice, norm_bound. cbn [Z.ltb Z.compare].
  destruct (Z.of_nat (length a) <? 0)%Z eqn:Hneg; [apply Z.ltb_lt in Hneg; lia |].
  replace (Z.to_nat (Z.min (Z.max 0 0) (Z.of_nat (length a)))) with 0%nat by lia.
  replace (Z.to_nat (Z.min (Z.max 0 (Z.of_nat (length a))) (Z.of_nat (length a))))
    with (length a) by lia.
  rewrite Nat.sub_0_r, drop_0. apply firstn_all.
Qed.

Lemma np_sub_zeros (sums : list Q) :
  Forall2 (fun x s => exists q, x = Num q /\ q == s)
    (zip_with np_sub
       (zip_with np_sub (map Num sums) (map Num (repeat 0 (length sums))))
       (map Num (repeat 0 (length sums))))
    sums.
Proof.
  induction sums as [| s sums IH]; cbn; constructor; [| exact IH].
  eexists. split; [reflexivity | ring].
Qed.

(** X18: in mode sum and without a subtract region, a successful call has
    interpolated every scan of [start, end) on the grid, and the accumulated
    intensity at every grid point is a number, equal to the sum over these
    scans of the interpolated intensities. *)
Theorem accumulate_spectra_sum_without_subtract interp msexp start end_ kind
    accum_mz accum_int :
  accumulate_spectra interp msexp start end_ None kind "sum"
    = Ok (accum_mz, accum_int) ->
  exists rows,
    interpolate_rows interp msexp kind accum_mz (range start end_) = Ok rows /\
    length rows = Z.to_nat (end_ - start) /\
    Forall2 (fun x s => exists q, x = Num q /\ q == s)
      accum_int (column_sums rows (length accum_mz)).
Proof.
  unfold accumulate_spectra.
  change (accumulator_functions "sum") with (Ok np_sum). cbn [bind fst snd].
  intros H. bind_inv_as H mz_ref.
  destruct (end_ - start <? 0)%Z eqn:Hneg; [discriminate H |]. apply Z.ltb_ge in Hneg.
  bind_inv_as H interp_int. injection H as <- <-.
  exists interp_int. split; [exact E0 |].
  pose proof (interpolate_rows_length _ _ _ _ _ _ E0) as Hlen.
  rewrite range_length in Hlen. split; [exact Hlen |].
  apply interpolate_rows_width in E0.
  rewrite Z.sub_diag, !pyslice_empty.
  replace (end_ - start)%Z with (Z.of_nat (length interp_int)) by lia.
  rewrite pyslice_all. unfold np_sum.
  change (column_sums [] (length mz_ref)) with (repeat 0 (length mz_ref)).
  rewrite <- (column_sums_length interp_int (length mz_ref) E0) at 2 3.
  apply np_sub_zeros.
Qed.

Lemma accumulate_spectra_sum_without_subtract_witness :
  exists rows,
    interpolate_rows linear_interp1d [ramp; ramp] "linear" [100; 101] (range 0 2)
      = Ok rows /\
    length rows = Z.to_nat (2 - 0) /\
    Forall2 (fun x s => exists q, x = Num q /\ q == s)
      [Num 2; Num 6] (column_sums rows (length [100; 101])).
Proof.
  apply (accumulate_spectra_sum_without_subtract linear_interp1d [ramp; ramp] 0 2
           "linear" [100; 101] [Num 2; Num 6]).
  vm_compute. reflexivity.
Defined.

(** ** The grid of the accumulator is ascending *)

Lemma Qminb_le x y : Qminb x y <= x /\ Qminb x y <= y.
Proof.
  unfold Qminb. destruct (Qle_bool x y) eqn:H.
  - apply Qle_bool_iff in H. split; [apply Qle_refl | exact H].
  - assert (~ x <= y) by (intros Hle; apply Qle_bool_iff in Hle; congruence).
    split; [lra | apply Qle_refl].
Qed.

Lemma Qmaxb_ge x y : x <= Qmaxb x y /\ y <= Qmaxb x y.
Proof.
  unfold Qmaxb. destruct (Qle_bool x y) eqn:H.
  - apply Qle_bool_iff in H. split; [exact H | apply Qle_refl].
  - assert (~ x <= y) by (intros Hle; apply Qle_bool_iff in Hle; congruence).
    split; [apply Qle_refl | lra].
Qed.

Lemma fold_min_le a : forall acc, fold_left Qminb a acc <= acc.
Proof.
  induction a as [| x a IH]; intros acc; cbn [fold_left]; [apply Qle_refl |].
  eapply Qle_trans; [apply IH | apply Qminb_le].
Qed.

Lemma fold_max_ge a : forall acc, acc <= fold_left Qmaxb a acc.
Proof.
  induction a as [| x a IH]; intros acc; cbn [fold_left]; [apply Qle_refl |].
  eapply Qle_trans; [| apply IH]. apply Qmaxb_ge.
Qed.

Lemma amin_le_amax a lo hi : amin a = Ok lo -> amax a = Ok hi -> lo <= hi.
Proof.
  destruct a as [| x a]; [discriminate |]. cbn [amin amax].
  intros [= <-] [= <-].
  eapply Qle_trans; [apply fold_min_le | apply fold_max_ge].
Qed.

Lemma map_seq_ascending (f : nat -> Q) :
  (forall i j, (i <= j)%nat -> f i <= f j) ->
  forall n a, StronglySorted Qle (map f (seq a n)).
Proof.
  intros Hf. induction n as [| n IH]; intros a; cbn [seq map]; constructor.
  - apply IH.
  - apply List.Forall_forall. intros y Hy.
    apply in_map_iff in Hy as [j [<- Hj]]. apply in_seq in Hj. apply Hf. lia.
Qed.

(** With [lo <= hi], the points of [arange lo hi step] ascend from [lo]: a
    negative step gives no point at all. *)
Lemma arange_ascending lo hi step l :
  lo <= hi -> arange lo hi step = Ok l ->
  StronglySorted Qle l /\ Forall (fun x => lo <= x) l.
Proof.
  unfold arange. intros Hle H.
  destruct (Qeq_bool step 0) eqn:Hzero; [discriminate H |].
  apply Qeq_bool_neq in Hzero. injection H as <-.
  destruct (Qlt_le_dec 0 step) as [Hpos | Hneg].
  - split.
    + apply map_seq_ascending. intros i j Hij.
      assert (inject_Z (Z.of_nat i) <= inject_Z (Z.of_nat j))
        by (rewrite <- Zle_Qle; lia).
      assert (inject_Z (Z.of_nat i) * step <= inject_Z (Z.of_nat j) * step)
        by (apply Qmult_le_compat_r; lra).
      lra.
    + apply Forall_forall. intros x Hx. apply list_elem_of_In in Hx.
      apply in_map_iff in Hx as [i [<- Hi]].
      assert (Hi0 : 0 <= inject_Z (Z.of_nat i)) by apply inject_nat_nonneg.
      assert (0 <= inject_Z (Z.of_nat i) * step)
        by (apply Qmult_le_0_compat; lra).
      lra.
  - assert (Hstep : 0 < - step) by (destruct (Qeq_dec step 0); [contradiction | lra]).
    assert (Hq : (hi - lo) / step <= 0).
    { assert (0 <= (hi - lo) / - step) by (apply Qle_shift_div_l; lra).
      assert ((hi - lo) / step == - ((hi - lo) / - step))
        by (field; try split; first [exact Hzero | lra]).
      lra. }
    apply Qceiling_resp_le in Hq. change (Qceiling 0) with 0%Z in Hq.
    replace (Z.to_nat (Qceiling ((hi - lo) / step))) with 0%nat by lia.
    cbn [seq map]. split; constructor.
Qed.

Lemma compress_sorted {A} (R : A -> A -> Prop) (mask : list bool) : forall (a : list A),
  StronglySorted R a -> StronglySorted R (compress mask a).
Proof.
  induction mask as [| b mask IH]; intros a Ha; [constructor |].
  destruct a as [| x a]; [constructor |]. cbn [compress].
  apply StronglySorted_inv in Ha as [Ha Hx].
  destruct b; [| apply IH; exact Ha].
  constructor; [apply IH; exact Ha |].
  apply List.Forall_forall. intros y Hy. apply compress_in in Hy.
  eapply List.Forall_forall in Hx; eassumption.
Qed.

(** X19: whenever [_get_mz_roi] returns, its grid is in ascending order and
    no grid point lies below the smallest mass of the first scan of the
    region, whether or not the masses of that scan are sorted.  (Nothing is
    said about the upper end of the grid, which depends on the rounding in
    [np.arange].) *)
Theorem _get_mz_roi_ascending msexp scans grid :
  _get_mz_roi msexp scans = Ok grid ->
  StronglySorted Qle grid /\
  exists sp0 mz_min,
    getSpectrum msexp (fst scans) = Ok sp0 /\
    amin (fst (get_peaks sp0)) = Ok mz_min /\
    Forall (fun x => mz_min <= x) grid.
Proof.
  unfold _get_mz_roi. intros H.
  bind_inv_as H sp0. bind_inv_as H mz_min. bind_inv_as H mz_max.
  bind_inv_as H mz_res. bind_inv_as H mz_ref. bind_inv_as H roi.
  apply take_mask_ok in H as [_ ->].
  destruct (arange_ascending _ _ _ _ (amin_le_amax _ _ _ E0 E1) E3)
    as [Hsorted Hbounds].
  split; [apply compress_sorted; exact Hsorted |].
  exists sp0, mz_min.
  split; [reflexivity |]. split; [exact E0 |].
  apply Forall_forall. intros x Hx. apply list_elem_of_In, compress_in in Hx.
  eapply Forall_forall in Hbounds; [exact Hbounds | apply list_elem_of_In; exact Hx].
Qed.

Lemma _get_mz_roi_ascending_witness :
  StronglySorted Qle [100; 101] /\
  exists sp0 mz_min,
    getSpectrum [ramp; wide] (fst (0, 2)%Z) = Ok sp0 /\
    amin (fst (get_peaks sp0)) = Ok mz_min /\
    Forall (fun x => mz_min <= x) [100; 101].
Proof.
  apply (_get_mz_roi_ascending [ramp; wide] (0, 2)%Z [100; 101]).
  vm_compute. reflexivity.
Defined.

(** ** Peak picking parameters *)

(** X20: [MSSpectrum.find_peaks] accepts no mode but qtof.  The widths helper
    tests the mode qtof twice, so the mode orbitrap, for which the parameter
    helper has an entry, is refused with the message of the widths helper; any
    other mode is refused by the parameter helper.  The picker is not
    reached. *)
Theorem find_peaks_accepts_only_qtof (Peak : Type)
    (pick_cwt : list Q -> list Q -> list Q -> gmap string (option Q)
                -> result (list Peak))
    (self : MSSpectrum Peak) (mode : string) cwt_params :
  mode <> "qtof" ->
  find_peaks Peak pick_cwt self mode cwt_params
  = Raise (ValueError (if String.eqb mode "orbitrap"
                       then "mode must be `orbitrap` or `qtof`"
                       else "`mode` must be `qtof` or `orbitrap`")).
Proof.
  intros Hmode. apply String.eqb_neq in Hmode.
  unfold find_peaks, get_ms_cwt_params, make_widths_ms. rewrite Hmode.
  destruct (String.eqb mode "orbitrap"); reflexivity.
Qed.

Lemma find_peaks_accepts_only_qtof_witness :
  find_peaks unit (fun _ _ _ _ => Ok []) (MSSpectrum_init unit [100] [1])
    "orbitrap" None
  = Raise (ValueError "mode must be `orbitrap` or `qtof`") /\
  is_ok (get_ms_cwt_params "orbitrap") = true.
Proof.
  split; [| reflexivity].
  apply (find_peaks_accepts_only_qtof unit (fun _ _ _ _ => Ok [])
           (MSSpectrum_init unit [100] [1]) "orbitrap" None).
  discriminate.
Defined.

(** X21: the widths for LC data exist for the modes that the parameter helper
    accepts: 39 strictly ascending values that start at 1 and end at the
    [max_width] entry of the parameters of the same mode. *)
Theorem make_widths_lc_matches_params mode widths :
  make_widths_lc mode = Ok widths ->
  length widths = 39%nat /\ StronglySorted Qlt widths /\
  (exists w, head widths = Some w /\ w == 1) /\
  exists params max_width,
    get_lc_cwt_params mode = Ok params /\
    params !! "max_width" = Some (Some max_width) /\
    last widths = Some max_width.
Proof.
  unfold make_widths_lc, get_lc_cwt_params. intros H.
  destruct (String.eqb mode "uplc") eqn:Huplc.
  - apply String.eqb_eq in Huplc. subst mode.
    cbn [bind] in H. injection H as <-.
    split; [reflexivity |]. split; [repeat constructor |].
    split; [eexists; split; [reflexivity | vm_compute; reflexivity] |].
    eexists _, 60. split; [reflexivity |]. split; vm_compute; reflexivity.
  - destruct (String.eqb mode "hplc") eqn:Hhplc; [| discriminate H].
    cbn [bind] in H. injection H as <-.
    split; [reflexivity |]. split; [repeat constructor |].
    split; [eexists; split; [reflexivity | vm_compute; reflexivity] |].
    eexists _, 90. split; [reflexivity |]. split; vm_compute; reflexivity.
Qed.

Lemma make_widths_lc_matches_params_witness :
  exists widths,
    make_widths_lc "hplc" = Ok widths /\
    length widths = 39%nat /\ StronglySorted Qlt widths /\
    (exists w, head widths = Some w /\ w == 1) /\
    exists params max_width,
      get_lc_cwt_params "hplc" = Ok params /\
      params !! "max_width" = Some (Some max_width) /\
      last widths = Some max_width.
Proof.
  destruct (make_widths_lc "hplc") as [widths |] eqn:H;
    [| vm_compute in H; discriminate H].
  exists widths. split; [reflexivity |].
  exact (make_widths_lc_matches_params "hplc" widths H).
Defined.
